(** * tightdi: a shallow embedding of [container.ts]

    The model comes first: JavaScript values and their truthiness,
    insertion-ordered [Map] objects, the cycle detector ([checkForCycles],
    [hasCycle], [isCyclic]), service definitions, the resolver
    ([InternalResolver]) and the container builder ([createContainer],
    [createInnerContainer]).  Then come the notions the statements are
    written with, a few concrete stores, and the proofs.

    Objects that the source shares by reference ([Map] instances holding the
    registrations, [InternalResolver] instances holding a cache) live in a
    store and are named by their address; everything else is a value. *)

From Stdlib Require Import ZArith String.
From stdpp Require Import base option list relations gmap sets.

(** ** JavaScript values *)

(** The values a factory can hand back.  Objects are compared by reference,
    so an object is its address.  Numbers are restricted to integers. *)
Inductive Value : Type :=
  | VUndefined
  | VNull
  | VBool (b : bool)
  | VNumber (z : Z)
  | VString (s : string)
  | VObject (ref : nat).

(** [ToBoolean]: what [if (x)] and [!x] test. *)
Definition truthy (v : Value) : bool :=
  match v with
  | VUndefined => false
  | VNull => false
  | VBool b => b
  | VNumber z => negb (Z.eqb z 0)
  | VString s => negb (String.eqb s EmptyString)
  | VObject _ => true
  end.

(** ** Insertion-ordered maps ([Map]) *)

(** A JavaScript [Map] iterates in insertion order and [set] on a present
    key keeps the key's position, so the entries are kept as a list. *)
Module JSMap.
Section JSMap.
Context {K V : Type} `{EqDecision K}.

Fixpoint get (k : K) (m : list (K * V)) : option V :=
  match m with
  | [] => None
  | (k', v) :: m' => if decide (k' = k) then Some v else get k m'
  end.

Definition has (k : K) (m : list (K * V)) : bool :=
  match get k m with Some _ => true | None => false end.

Fixpoint set (k : K) (v : V) (m : list (K * V)) : list (K * V) :=
  match m with
  | [] => [(k, v)]
  | (k', v') :: m' =>
      if decide (k' = k) then (k, v) :: m' else (k', v') :: set k v m'
  end.

Definition keys (m : list (K * V)) : list K := m.*1.

Definition entries (m : list (K * V)) : list (K * V) := m.
End JSMap.
End JSMap.

Abbreviation JSMap K V := (list (K * V)).

(** ** Tokens, definitions, errors *)

(** An [InjectionToken] is compared by identity only: it is its address. *)
Definition Token : Type := nat.

Inductive Lifetime : Type := singleton | transient | scoped.

Inductive FactoryResult : Type :=
  | Returned (instance : Value)
  | Raised (thrown : Value).

(** What can be thrown.  [Error] and [CyclicDependencyError] are the two
    classes the container itself constructs; [Thrown] carries whatever a
    user factory threw. *)
Inductive Exn : Type :=
  | Error (message : string)
  | CyclicDependencyError (message : string)
  | Thrown (e : Value).

Definition MissingRegistration : Exn := Error "Missing registration for token".
Definition InheritingMissing : Exn :=
  Error "Inheriting container is missing some of parent's registrations".
Definition CircularDependency : Exn :=
  CyclicDependencyError "Circular dependency detected".

(** ** Cycle detection *)

Abbreviation Graph := (JSMap Token (list Token)).

Record DfsState : Type := mkDfs {
  visited : gset Token;
  recStack : gset Token
}.

(** [for (const x of xs) { if (body(x)) return true; }  ... return false]
    with the sets threaded through; [None] is fuel exhaustion. *)
Fixpoint for_some (body : Token -> DfsState -> option (bool * DfsState))
    (xs : list Token) (s : DfsState) : option (bool * DfsState) :=
  match xs with
  | [] => Some (false, s)
  | x :: xs' =>
      match body x s with
      | Some (true, s') => Some (true, s')
      | Some (false, s') => for_some body xs' s'
      | None => None
      end
  end.

Fixpoint hasCycle (fuel : nat) (graph : Graph) (node : Token) (s : DfsState)
    : option (bool * DfsState) :=
  match fuel with
  | O => None
  | S fuel' =>
      if decide (node ∈ recStack s) then Some (true, s)
      else if decide (node ∈ visited s) then Some (false, s)
      else
        let s1 := mkDfs ({[node]} ∪ visited s) ({[node]} ∪ recStack s) in
        match for_some (hasCycle fuel' graph)
                (default [] (JSMap.get node graph)) s1 with
        | Some (true, s2) => Some (true, s2)
        | Some (false, s2) =>
            Some (false, mkDfs (visited s2) (recStack s2 ∖ {[node]}))
        | None => None
        end
  end.

(** Every token the traversal can meet: the nodes and their neighbours. *)
Definition graph_tokens (graph : Graph) : list Token :=
  JSMap.keys graph ++ concat graph.*2.

(** The recursion of [hasCycle] is at most as deep as there are tokens. *)
Definition dfs_fuel (graph : Graph) : nat := S (length (graph_tokens graph)).

Definition isCyclic (graph : Graph) : option bool :=
  match for_some (hasCycle (dfs_fuel graph) graph) (JSMap.keys graph)
          (mkDfs ∅ ∅) with
  | Some (b, _) => Some b
  | None => None
  end.

(** ** The store, service definitions and the resolver *)

Section Model.
(** Whatever user factories can read and write (closed-over counters,
    the object allocator, ...).  The container never looks inside. *)
Context {W : Type}.

(** [instance] is the factory: it receives the resolved dependencies and
    either returns an instance or throws, possibly changing the world. *)
Record ServiceDefinition : Type := makeServiceDefinition {
  requires : list Token;
  lifetime : Lifetime;
  instance : list Value -> W -> FactoryResult * W
}.

Local Abbreviation Registrations := (JSMap Token ServiceDefinition).

(** An [InternalResolver] object: [registrations] is a reference to a
    [Map] in the store, [parent] a reference to another resolver. *)
Record InternalResolver : Type := mkResolver {
  registrations : nat;
  parent : option nat;
  cache : JSMap Token Value
}.

Record State : Type := mkState {
  maps : list Registrations;
  resolvers : list InternalResolver;
  world : W
}.

(** The result of running a piece of the program: a value, an exception
    (both with the store they leave behind), a dangling reference (which
    JavaScript cannot produce) or exhausted fuel. *)
Inductive Outcome (A : Type) : Type :=
  | Ret (a : A) (σ : State)
  | Throw (e : Exn) (σ : State)
  | Stuck
  | OutOfFuel.
Arguments Ret {A} a σ.
Arguments Throw {A} e σ.
Arguments Stuck {A}.
Arguments OutOfFuel {A}.

Definition bind {A B : Type} (o : Outcome A) (k : A -> State -> Outcome B)
    : Outcome B :=
  match o with
  | Ret a σ => k a σ
  | Throw e σ => Throw e σ
  | Stuck => Stuck
  | OutOfFuel => OutOfFuel
  end.

(** *** checkForCycles *)

Definition graphFromServiceMap (map : Registrations) : Graph :=
  fold_left (fun graph '(key, value) => JSMap.set key (requires value) graph)
    (JSMap.entries map) [].

Definition checkForCycles (map : nat) (σ : State) : Outcome unit :=
  match maps σ !! map with
  | None => Stuck
  | Some m =>
      match isCyclic (graphFromServiceMap m) with
      | Some true => Throw CircularDependency σ
      | Some false => Ret tt σ
      | None => OutOfFuel
      end
  end.

(** *** InternalResolver *)

(** [for (const key of keys) if (!inheriting.has(key)) throw ...] *)
Fixpoint check_inheriting (keys : list Token) (inheriting : Registrations)
    : option Exn :=
  match keys with
  | [] => None
  | key :: keys' =>
      if negb (JSMap.has key inheriting) then Some InheritingMissing
      else check_inheriting keys' inheriting
  end.

Definition InternalCheckInheriting (r : nat) (inheriting : nat) (σ : State)
    : Outcome unit :=
  match resolvers σ !! r with
  | None => Stuck
  | Some this =>
      match maps σ !! registrations this, maps σ !! inheriting with
      | Some regs, Some inh =>
          match check_inheriting (JSMap.keys regs) inh with
          | Some e => Throw e σ
          | None => Ret tt σ
          end
      | _, _ => Stuck
      end
  end.

(** [this.cache.get(token)] on resolver [r]. *)
Definition cache_get (r : nat) (token : Token) (σ : State) : Value :=
  match resolvers σ !! r with
  | Some this => default VUndefined (JSMap.get token (cache this))
  | None => VUndefined
  end.

(** [this.cache.set(token, instance)] on resolver [r]. *)
Definition cache_set (r : nat) (token : Token) (inst : Value) (σ : State)
    : State :=
  mkState (maps σ)
    (alter (fun this => mkResolver (registrations this) (parent this)
                          (JSMap.set token inst (cache this)))
       r (resolvers σ))
    (world σ).

(** [resolve] in terms of [this[InternalResolve]]. *)
Definition resolve_via (IR : nat -> Token -> State -> Outcome Value)
    (r : nat) (token : Token) (σ : State) : Outcome Value :=
  match IR r token σ with
  | Ret resolved σ' =>
      if truthy resolved then Ret resolved σ'
      else Throw MissingRegistration σ'
  | o => o
  end.

(** [tokens.map(token => this.resolve(token))]: left to right, the first
    exception ends the loop. *)
Fixpoint map_resolve (res : Token -> State -> Outcome Value)
    (tokens : list Token) (σ : State) : Outcome (list Value) :=
  match tokens with
  | [] => Ret [] σ
  | token :: tokens' =>
      bind (res token σ) (fun v σ1 =>
      bind (map_resolve res tokens' σ1) (fun vs σ2 =>
      Ret (v :: vs) σ2))
  end.

(** [definition.instance(...args)] *)
Definition call_instance (definition : ServiceDefinition)
    (args : list Value) (σ : State) : Outcome Value :=
  match instance definition args (world σ) with
  | (Returned inst, w) => Ret inst (mkState (maps σ) (resolvers σ) w)
  | (Raised e, w) => Throw (Thrown e) (mkState (maps σ) (resolvers σ) w)
  end.

(** [definition.instance(...definition.requires.map(t => this.resolve(t)))] *)
Definition construct (IR : nat -> Token -> State -> Outcome Value)
    (r : nat) (definition : ServiceDefinition) (σ : State) : Outcome Value :=
  bind (map_resolve (resolve_via IR r) (requires definition) σ)
    (call_instance definition).

(** ... followed by [this.cache.set(token, instance); return instance]. *)
Definition construct_and_cache (IR : nat -> Token -> State -> Outcome Value)
    (r : nat) (token : Token) (definition : ServiceDefinition) (σ : State)
    : Outcome Value :=
  bind (construct IR r definition σ) (fun inst σ' =>
  Ret inst (cache_set r token inst σ')).

(** [const cached = this.cache.get(token); if (cached) return cached;
     else { ...construct, cache, return... }] *)
Definition cached_or_construct (IR : nat -> Token -> State -> Outcome Value)
    (r : nat) (token : Token) (definition : ServiceDefinition) (σ : State)
    : Outcome Value :=
  let cached := cache_get r token σ in
  if truthy cached then Ret cached σ
  else construct_and_cache IR r token definition σ.

(** [if (this.parent) { const resolution = this.parent[InternalResolve](token);
     if (resolution) return resolution; }] then [otherwise]. *)
Definition probe_parent (IR : nat -> Token -> State -> Outcome Value)
    (par : option nat) (token : Token)
    (otherwise : State -> Outcome Value) (σ : State) : Outcome Value :=
  match par with
  | Some p =>
      match IR p token σ with
      | Ret resolution σ' =>
          if truthy resolution then Ret resolution σ' else otherwise σ'
      | o => o
      end
  | None => otherwise σ
  end.

Fixpoint InternalResolve (fuel : nat) (r : nat) (token : Token) (σ : State)
    : Outcome Value :=
  match fuel with
  | O => OutOfFuel
  | S fuel' =>
      match resolvers σ !! r with
      | None => Stuck
      | Some this =>
          match maps σ !! registrations this with
          | None => Stuck
          | Some regs =>
              match JSMap.get token regs with
              | None => Ret VUndefined σ
              | Some definition =>
                  match lifetime definition with
                  | scoped =>
                      cached_or_construct (InternalResolve fuel')
                        r token definition σ
                  | singleton =>
                      probe_parent (InternalResolve fuel') (parent this) token
                        (cached_or_construct (InternalResolve fuel')
                           r token definition) σ
                  | transient =>
                      probe_parent (InternalResolve fuel') (parent this) token
                        (construct (InternalResolve fuel') r definition) σ
                  end
              end
          end
      end
  end.

Definition resolve (fuel : nat) (r : nat) (token : Token) (σ : State)
    : Outcome Value :=
  resolve_via (InternalResolve fuel) r token σ.

(** *** The container builder *)

(** A container object; [ContainerMapKey] is a reference to its [Map]. *)
Record Container : Type := createInnerContainer {
  ContainerRequiredKey : list Token;
  ContainerProvidedKey : list Token;
  ContainerMapKey : nat
}.

(** [new Map(init)]: a fresh [Map] object holding a copy of the entries. *)
Definition new_Map (init : Registrations) (σ : State) : nat * State :=
  (length (maps σ), mkState (maps σ ++ [init]) (resolvers σ) (world σ)).

(** [map.set(token, value)] on the [Map] at address [map]. *)
Definition Map_set (map : nat) (token : Token) (value : ServiceDefinition)
    (σ : State) : State :=
  mkState (alter (JSMap.set token value) map (maps σ))
    (resolvers σ) (world σ).

(** [new InternalResolver(map, parent)] *)
Definition new_InternalResolver (map : nat) (par : option nat) (σ : State)
    : nat * State :=
  (length (resolvers σ),
   mkState (maps σ) (resolvers σ ++ [mkResolver map par []]) (world σ)).

(** [createContainer().provide(token, value)] *)
Definition createContainer_provide (token : Token)
    (value : ServiceDefinition) (σ : State) : Outcome Container :=
  let required := requires value in
  let provided := [token] in
  let '(map, σ1) := new_Map [] σ in
  let σ2 := Map_set map token value σ1 in
  Ret (createInnerContainer required provided map) σ2.

(** [container.provide(token, value)] *)
Definition provide (container : Container) (token : Token)
    (value : ServiceDefinition) (σ : State) : Outcome Container :=
  match maps σ !! ContainerMapKey container with
  | None => Stuck
  | Some map =>
      let nextRequired := ContainerRequiredKey container ++ requires value in
      let nextProvided := ContainerProvidedKey container ++ [token] in
      let '(nextMap, σ1) := new_Map map σ in
      let σ2 := Map_set nextMap token value σ1 in
      Ret (createInnerContainer nextRequired nextProvided nextMap) σ2
  end.

(** [container.resolver(parent?)] *)
Definition resolver (container : Container) (par : option nat) (σ : State)
    : Outcome nat :=
  bind (match par with
        | Some p => InternalCheckInheriting p (ContainerMapKey container) σ
        | None => Ret tt σ
        end) (fun _ σ1 =>
  bind (checkForCycles (ContainerMapKey container) σ1) (fun _ σ2 =>
  let '(r, σ3) := new_InternalResolver (ContainerMapKey container) par σ2 in
  Ret r σ3)).
End Model.

Arguments ServiceDefinition : clear implicits.

Abbreviation Registrations W := (JSMap Token (ServiceDefinition W)).

Arguments InternalResolver : clear implicits.
Arguments State : clear implicits.
Arguments Outcome : clear implicits.
Arguments Ret {W A} a σ.
Arguments Throw {W A} e σ.
Arguments Stuck {W A}.
Arguments OutOfFuel {W A}.

(** ** Injection tokens ([InjectionToken.of]) *)

(** What a token carries in its [TokenId] field: the qualifier it was made
    with, or the symbol that [Symbol()] minted for it.  A symbol is the
    number of symbols minted before it. *)
Inductive TokenId : Type :=
  | IdSymbol (s : nat)
  | IdValue (id : Value).

(** The tokens made so far (a token is its position in [tokenIds], in line
    with [Token]) and the number of symbols minted so far. *)
Record TokenStore : Type := mkTokens {
  tokenIds : list TokenId;
  symbols : nat
}.

(** [Symbol()] *)
Definition new_Symbol (h : TokenStore) : nat * TokenStore :=
  (symbols h, mkTokens (tokenIds h) (S (symbols h))).

(** [new InjectionToken(id)] *)
Definition new_InjectionToken (id : TokenId) (h : TokenStore)
    : Token * TokenStore :=
  (length (tokenIds h), mkTokens (tokenIds h ++ [id]) (symbols h)).

(** [static of(id?) { if (!id) return new InjectionToken(Symbol());
                      return new InjectionToken(id); }]
    A call without argument passes [VUndefined]. *)
Definition InjectionToken_of (id : Value) (h : TokenStore)
    : Token * TokenStore :=
  if negb (truthy id) then
    let '(s, h1) := new_Symbol h in new_InjectionToken (IdSymbol s) h1
  else new_InjectionToken (IdValue id) h.

(** ** The definition builder ([ServiceDefinition.requires(...)...]) *)

(** The object with the three lifetime methods. *)
Module ServiceDefinitionBuilderC.
Record t (W : Type) : Type := make {
  singleton : unit → ServiceDefinition W;
  transient : unit → ServiceDefinition W;
  scoped : unit → ServiceDefinition W
}.
Arguments make {W} _ _ _.
Arguments singleton {W} _ _.
Arguments transient {W} _ _.
Arguments scoped {W} _ _.
End ServiceDefinitionBuilderC.

(** The object [requires] returns.  A class is given by what [new] does
    with it: like a factory, it receives the arguments and returns the new
    object or throws. *)
Module ServiceDefinitionBuilderB.
Record t (W : Type) : Type := make {
  from : (list Value → W → FactoryResult * W) → ServiceDefinitionBuilderC.t W;
  fromClass :
    (list Value → W → FactoryResult * W) → ServiceDefinitionBuilderC.t W;
  fromValue : Value → ServiceDefinition W
}.
Arguments make {W} _ _ _.
Arguments from {W} _ _.
Arguments fromClass {W} _ _.
Arguments fromValue {W} _ _.
End ServiceDefinitionBuilderB.

Module ServiceDefinitionBuilderA.
Definition requires {W : Type} (tokens : list Token)
    : ServiceDefinitionBuilderB.t W :=
  ServiceDefinitionBuilderB.make
    (λ factory,
       ServiceDefinitionBuilderC.make
         (λ _, makeServiceDefinition tokens singleton factory)
         (λ _, makeServiceDefinition tokens transient factory)
         (λ _, makeServiceDefinition tokens scoped factory))
    (λ Class,
       let factory := λ context, Class context in
       ServiceDefinitionBuilderC.make
         (λ _, makeServiceDefinition tokens singleton factory)
         (λ _, makeServiceDefinition tokens transient factory)
         (λ _, makeServiceDefinition tokens scoped factory))
    (λ value,
       let factory := λ _ w, (Returned value, w) in
       makeServiceDefinition tokens singleton factory).
End ServiceDefinitionBuilderA.

(** * Specification vocabulary *)

(** ** Paths in a graph *)

(** [u → v]: [u] is a node and [v] is listed among its neighbours. *)
Definition edge (graph : Graph) (u v : Token) : Prop :=
  ∃ ns, JSMap.get u graph = Some ns ∧ v ∈ ns.

(** A cycle is a non-empty path from a token back to itself. *)
Definition has_cycle (graph : Graph) : Prop := ∃ t, tc (edge graph) t t.

(** The finished nodes of a traversal. *)
Definition black (s : DfsState) : gset Token := visited s ∖ recStack s.

(** What holds between two calls of [hasCycle] as long as no call returned
    [true]: the finished nodes are closed under [edge] and lie on no cycle. *)
Definition dfs_inv (graph : Graph) (s : DfsState) : Prop :=
  (∀ u v, u ∈ black s → edge graph u v → v ∈ black s) ∧
  (∀ u, u ∈ black s → ¬ tc (edge graph) u u).

Definition universe (graph : Graph) : gset Token :=
  list_to_set (graph_tokens graph).

(** ** Registries, stores and resolutions *)

Section Vocabulary.
Context {W : Type}.
Abbreviation IRfun := (nat → Token → State W → Outcome W Value).
Implicit Types (σ : State W) (d : ServiceDefinition W).
Implicit Types (this : InternalResolver) (IR : IRfun).
Implicit Types (m : Registrations W) (c : Container).

(** [t] depends on [u]: [t] is registered and [u] is one of the entries of
    its definition's [requires]. *)
Definition depends m (t u : Token) : Prop :=
  ∃ d, JSMap.get t m = Some d ∧ u ∈ requires d.

(** The registry has a dependency cycle. *)
Definition cyclic m : Prop := ∃ t, tc (depends m) t t.

(** The computation finished: it returned or threw. *)
Definition returns {A : Type} (o : Outcome W A) : Prop :=
  match o with Ret _ _ | Throw _ _ => True | _ => False end.

(** The store a finished computation leaves behind. *)
Definition final {A : Type} (o : Outcome W A) : option (State W) :=
  match o with Ret _ σ | Throw _ σ => Some σ | _ => None end.

(** The body of [InternalResolve], with the recursive calls abstracted. *)
Definition step IR (r : nat) (token : Token) σ : Outcome W Value :=
  match resolvers σ !! r with
  | None => Stuck
  | Some this =>
      match maps σ !! registrations this with
      | None => Stuck
      | Some regs =>
          match JSMap.get token regs with
          | None => Ret VUndefined σ
          | Some definition =>
              match lifetime definition with
              | scoped => cached_or_construct IR r token definition σ
              | singleton =>
                  probe_parent IR (parent this) token
                    (cached_or_construct IR r token definition) σ
              | transient =>
                  probe_parent IR (parent this) token
                    (construct IR r definition) σ
              end
          end
      end
  end.

(** [r] is a resolver whose registry maps [t] to [d]. *)
Definition def_at σ (r : nat) (t : Token) d : Prop :=
  ∃ this m, resolvers σ !! r = Some this ∧
            maps σ !! registrations this = Some m ∧
            JSMap.get t m = Some d.

(** [r] is a resolver whose registry has no entry for [t]. *)
Definition absent_at σ (r : nat) (t : Token) : Prop :=
  ∃ this m, resolvers σ !! r = Some this ∧
            maps σ !! registrations this = Some m ∧
            JSMap.get t m = None.

(** [IR'] finishes wherever [IR] does, with the same result. *)
Definition refines IR IR' : Prop :=
  ∀ r t σ, returns (IR r t σ) → IR' r t σ = IR r t σ.

(** [q] is [r] or one of its ancestors. *)
Inductive in_chain σ : nat → nat → Prop :=
  | in_chain_here r : in_chain σ r r
  | in_chain_parent r this p q :
      resolvers σ !! r = Some this → parent this = Some p →
      in_chain σ p q → in_chain σ r q.

(** [this] may cache [k]: its registry gives [k] a caching lifetime. *)
Definition cacheable σ this (k : Token) : Prop :=
  ∃ m d, maps σ !! registrations this = Some m ∧
         JSMap.get k m = Some d ∧ lifetime d ≠ transient.

(** Running a resolution on [r] from [σ] to [σ']: no [Map] changes, no
    resolver appears or changes its registry or parent, only entries of
    cacheable tokens are written, and only in [r] and its ancestors. *)
Record footprint (r : nat) σ σ' : Prop := mkFootprint {
  fp_maps : maps σ' = maps σ;
  fp_length : length (resolvers σ') = length (resolvers σ);
  fp_shape : ∀ i this, resolvers σ !! i = Some this →
    ∃ this', resolvers σ' !! i = Some this' ∧
             registrations this' = registrations this ∧
             parent this' = parent this ∧
             ∀ k, ¬ cacheable σ this k →
                  JSMap.get k (cache this') = JSMap.get k (cache this);
  fp_frame : ∀ i, ¬ in_chain σ r i → resolvers σ' !! i = resolvers σ !! i
}.

(** Every finished call of [IR] stays within its footprint. *)
Definition fp_sound IR : Prop :=
  ∀ r t σ σ', final (IR r t σ) = Some σ' → footprint r σ σ'.

(** What [resolver()] guarantees of the resolver it creates: the registry
    exists and is acyclic, the parent was created earlier and registers
    nothing the child does not. *)
Definition resolver_ok σ (i : nat) this : Prop :=
  ∃ m, maps σ !! registrations this = Some m ∧ ¬ cyclic m ∧
    ∀ p, parent this = Some p →
      p < i ∧ ∃ pthis mp, resolvers σ !! p = Some pthis ∧
               maps σ !! registrations pthis = Some mp ∧
               ∀ k, k ∈ JSMap.keys mp → k ∈ JSMap.keys m.

Record state_ok σ : Prop := mkStateOk {
  ok_maps : ∀ a m, maps σ !! a = Some m → NoDup (JSMap.keys m);
  ok_resolvers : ∀ i this, resolvers σ !! i = Some this → resolver_ok σ i this
}.

(** Two stores that differ in caches and world only. *)
Definition same_shape σ σ' : Prop :=
  maps σ' = maps σ ∧
  (λ this, (registrations this, parent this)) <$> resolvers σ'
  = (λ this, (registrations this, parent this)) <$> resolvers σ.

Definition empty_state (w : W) : State W := mkState [] [] w.

(** The parent (if any) exists and registers only tokens of [m]. *)
Definition inherits σ (par : option nat) m : Prop :=
  ∀ p, par = Some p →
    ∃ pthis mp, resolvers σ !! p = Some pthis ∧
                maps σ !! registrations pthis = Some mp ∧
                ∀ k, k ∈ JSMap.keys mp → k ∈ JSMap.keys m.

(** The parent probe of a singleton or transient resolution did not
    supply an instance: there is no parent, or the parent's
    [InternalResolve] returned a falsy value, leaving the store [σ0]. *)
Definition parent_declines (n : nat) σ (par : option nat) (t : Token) σ0
    : Prop :=
  match par with
  | None => σ0 = σ
  | Some p => ∃ u, InternalResolve n p t σ = Ret u σ0 ∧ truthy u = false
  end.


(** Every resolver among [r] and its ancestors that registers [t] caches
    it (its lifetime is not transient) and builds truthy instances only. *)
Definition keeps_instances σ (r : nat) (t : Token) : Prop :=
  ∀ q d, in_chain σ r q → def_at σ q t d →
    lifetime d ≠ transient ∧
    ∀ args w v w', instance d args w = (Returned v, w') → truthy v = true.

(** The exceptions [resolve] can end with: its own missing-registration
    error, or whatever a factory threw. *)
Definition missing_or_thrown (e : Exn) : Prop :=
  e = MissingRegistration ∨ ∃ v, e = Thrown v.

Definition throws_only {A : Type} (P : Exn → Prop) (o : Outcome W A) : Prop :=
  match o with Throw e _ => P e | _ => True end.
End Vocabulary.

(** ** Token stores, call sequences and cache invariants *)

(** No token carries a symbol that [Symbol()] has yet to mint, and no two
    tokens carry the same symbol. *)
Definition tokens_ok (h : TokenStore) : Prop :=
  (∀ t s, tokenIds h !! t = Some (IdSymbol s) → s < symbols h) ∧
  (∀ t t' s, tokenIds h !! t = Some (IdSymbol s) →
             tokenIds h !! t' = Some (IdSymbol s) → t = t').

Section Sequences.
Context {W : Type}.
Implicit Types (σ : State W) (d : ServiceDefinition W).
Implicit Types (this : InternalResolver) (m : Registrations W).

(** [container.provide(t1, d1).provide(t2, d2)...] *)
Fixpoint provide_all (container : Container)
    (entries : list (Token * ServiceDefinition W)) σ
    : Outcome W Container :=
  match entries with
  | [] => Ret container σ
  | (token, value) :: entries' =>
      bind (provide container token value σ) (λ next σ',
      provide_all next entries' σ')
  end.

(** [createContainer().provide(t, d).provide(t1, d1)...] *)
Definition createContainer_provide_all (token : Token) d
    (entries : list (Token * ServiceDefinition W)) σ
    : Outcome W Container :=
  bind (createContainer_provide token d σ) (λ first σ',
  provide_all first entries σ').

(** The registry a chain of [provide] calls builds up from [m]. *)
Definition set_all (entries : list (Token * ServiceDefinition W)) m
    : Registrations W :=
  fold_left (λ acc '(token, value), JSMap.set token value acc) entries m.

(** Every definition comes after the registrations of all the tokens it
    requires. *)
Definition dependencies_first m : Prop :=
  ∀ i t d, m !! i = Some (t, d) →
    ∀ u, u ∈ requires d → u ∈ JSMap.keys (take i m).

(** Every key of every cache is a token that the resolver's own registry
    registers with a caching lifetime. *)
Definition caches_clean σ : Prop :=
  ∀ i this k, resolvers σ !! i = Some this →
    k ∈ JSMap.keys (cache this) → cacheable σ this k.

(** From [σ] to [σ'] no cache entry disappears and no truthy cache entry
    changes. *)
Definition retains σ σ' : Prop :=
  ∀ i this k v, resolvers σ !! i = Some this →
    JSMap.get k (cache this) = Some v →
    ∃ this' v', resolvers σ' !! i = Some this' ∧
                JSMap.get k (cache this') = Some v' ∧
                (truthy v = true → v' = v).

(** Every finished call of [IR] retains the cache entries. *)
Definition retaining (IR : nat → Token → State W → Outcome W Value)
    : Prop :=
  ∀ r t σ σ', final (IR r t σ) = Some σ' → retains σ σ'.

(** One finished call of [resolve], on any resolver and token. *)
Definition resolve_step σ σ' : Prop :=
  ∃ k r t, final (resolve k r t σ) = Some σ'.

(** One finished call of the public interface. *)
Inductive api_step : State W → State W → Prop :=
  | api_createContainer_provide t d σ σ' :
      final (createContainer_provide t d σ) = Some σ' → api_step σ σ'
  | api_provide c t d σ σ' :
      final (provide c t d σ) = Some σ' → api_step σ σ'
  | api_resolver c par σ σ' :
      final (resolver c par σ) = Some σ' → api_step σ σ'
  | api_resolve k r t σ σ' :
      final (resolve k r t σ) = Some σ' → api_step σ σ'.

(** [r] hands a lookup of [t] up to [q]: every resolver from [r] up to,
    but not including, [q] registers [t] with a lifetime that probes the
    parent first. *)
Inductive delegates σ (t : Token) : nat → nat → Prop :=
  | delegates_here r : delegates σ t r r
  | delegates_parent r this m d p q :
      resolvers σ !! r = Some this →
      maps σ !! registrations this = Some m →
      JSMap.get t m = Some d → lifetime d ≠ scoped →
      parent this = Some p →
      delegates σ t p q → delegates σ t r q.
End Sequences.

(** ** Concrete registries and stores

    The scenarios of the test suite and a few more; the world is the
    object allocator (the address of the next object), except in the last
    scenario where it is the log of the factory calls. *)

Module Examples.

Definition depA : Token := 0.
Definition depB : Token := 1.
Definition depC : Token := 2.
Definition depD : Token := 3.

(** A factory that allocates a new object on every call. *)
Definition fresh : list Value → nat → FactoryResult * nat :=
  λ _ w, (Returned (VObject w), S w).


Definition singletonService : ServiceDefinition nat :=
  makeServiceDefinition [] singleton fresh.
Definition scopedService : ServiceDefinition nat :=
  makeServiceDefinition [] scoped fresh.
Definition transientService : ServiceDefinition nat :=
  makeServiceDefinition [] transient fresh.

(** *** One registration, no resolver *)

Definition containerA : Container := createInnerContainer [] [depA] 0.

Definition one_registration : State nat :=
  mkState [[(depA, singletonService)]] [] 0.

(** *** "catches cyclical dependencies": A requires A and B *)

Definition cyclicService : ServiceDefinition nat :=
  makeServiceDefinition [depA; depB] singleton fresh.

Definition cyclic_registration : State nat :=
  mkState [[(depA, cyclicService)]] [] 0.

(** *** "parent resolvers types must be of a subset of the child" *)

Definition containerADB : Container :=
  createInnerContainer [] [depA; depB; depD] 1.

Definition mismatch_state : State nat :=
  mkState
    [ [(depC, singletonService); (depB, singletonService)];
      [(depA, scopedService); (depB, singletonService);
       (depD, singletonService)] ]
    [mkResolver 0 None []] 0.

(** *** A partial root: the session service needs the user request, which
    only the child registers *)

Definition userRequest : Token := 0.
Definition sessionService : Token := 1.

Definition sessionDefinition : ServiceDefinition nat :=
  makeServiceDefinition [userRequest] singleton fresh.

Definition partial_root : State nat :=
  mkState
    [ [(sessionService, sessionDefinition)];
      [(sessionService, sessionDefinition); (userRequest, singletonService)] ]
    [mkResolver 0 None []; mkResolver 1 (Some 0) []] 0.

(** *** A factory that returns 0 *)



(** *** One resolver, one token of each lifetime *)

Definition root_state : State nat :=
  mkState
    [[(depA, scopedService); (depB, singletonService);
      (depC, transientService)]]
    [mkResolver 0 None []] 0.

(** *** The parent registers the token as transient, the child as
    singleton *)

Definition mixed_lifetimes : State nat :=
  mkState
    [ [(depC, transientService)]; [(depC, singletonService)] ]
    [mkResolver 0 None []; mkResolver 1 (Some 0) []] 0.

(** *** "supports scoped lifetimes": two children of one root *)

Definition siblings : State nat :=
  mkState
    [ [(depA, scopedService)];
      [(depA, scopedService); (depB, singletonService)] ]
    [mkResolver 1 None []; mkResolver 1 (Some 0) []; mkResolver 1 (Some 0) []]
    0.

(** *** Factories that log their calls *)

Definition Log : Type := list (Token * list Value).

Definition logging (name : Token) : list Value → Log → FactoryResult * Log :=
  λ args log, (Returned (VObject (length log)), log ++ [(name, args)]).

Definition logged (name : Token) (deps : list Token) (policy : Lifetime)
    : ServiceDefinition Log :=
  makeServiceDefinition deps policy (logging name).


(** *** "supports transient lifetimes", "supports singleton lifetimes":
    A and B both need C *)

Definition shared_dependency (policy : Lifetime) : State Log :=
  mkState
    [[(depA, logged depA [depC] singleton);
      (depB, logged depB [depC] singleton);
      (depC, logged depC [] policy)]]
    [mkResolver 0 None []] [].

(** *** "allows partial resolvers to be used as root": scoped services
    above a per-request child *)

Definition itemsService : Token := 2.

Definition scopedSession : ServiceDefinition nat :=
  makeServiceDefinition [userRequest] scoped fresh.
Definition scopedItems : ServiceDefinition nat :=
  makeServiceDefinition [sessionService] scoped fresh.

End Examples.

(** ** More concrete stores: built definitions, failing factories *)

Module Scenarios.
Import Examples.

(** No token made yet. *)
Definition no_tokens : TokenStore := mkTokens [] 0.




(** A factory that throws after allocating. *)
Definition failing : list Value → nat → FactoryResult * nat :=
  λ _ w, (Raised (VString "boom"), S w).

(** [ServiceDefinition.requires(depB).from(failing).scoped()] *)
Definition failingService : ServiceDefinition nat :=
  ServiceDefinitionBuilderC.scoped
    (ServiceDefinitionBuilderB.from
       (ServiceDefinitionBuilderA.requires [depB]) failing) tt.

Definition failing_state : State nat :=
  mkState [[(depA, failingService); (depB, singletonService)]]
    [mkResolver 0 None []] 0.

(** A needs B, C and D; C is not registered. *)
Definition needsThree : ServiceDefinition nat :=
  ServiceDefinitionBuilderC.singleton
    (ServiceDefinitionBuilderB.fromClass
       (ServiceDefinitionBuilderA.requires [depB; depC; depD]) fresh) tt.

Definition missing_dependency : State nat :=
  mkState [[(depA, needsThree); (depB, singletonService);
            (depD, singletonService)]]
    [mkResolver 0 None []] 0.

(** A root that has resolved its singleton, and a grandchild two levels
    below it. *)
Definition three_levels : State nat :=
  mkState
    [[(depB, singletonService)];
     [(depB, transientService); (depA, scopedService)]]
    [mkResolver 0 None [(depB, VObject 7)];
     mkResolver 1 (Some 0) [];
     mkResolver 1 (Some 1) []] 8.

(** ... after the grandchild has resolved its scoped token. *)
Definition three_levels_later : State nat :=
  mkState (maps three_levels)
    [mkResolver 0 None [(depB, VObject 7)];
     mkResolver 1 (Some 0) [];
     mkResolver 1 (Some 1) [(depA, VObject 8)]] 9.

(** [root_state] after [resolve] of the scoped, the transient and the
    singleton token, in this order. *)
Definition root_state_later : State nat :=
  mkState (maps root_state)
    [mkResolver 0 None [(depA, VObject 0); (depB, VObject 2)]] 3.

(** A store with one container and no resolver yet. *)
Definition one_scoped : State nat :=
  mkState [[(depA, scopedService)]] [] 0.

(** The root of [partial_root] before the child's container is made. *)
Definition root_only : State nat :=
  mkState [[(sessionService, sessionDefinition)]] [mkResolver 0 None []] 0.

Definition sessionContainer : Container :=
  createInnerContainer [userRequest] [sessionService] 0.

(** A requires B and B requires A, registered in either order. *)
Definition mutual : Registrations nat :=
  [(depA, makeServiceDefinition [depB] singleton fresh);
   (depB, makeServiceDefinition [depA] singleton fresh)].

Definition mutual_swapped : Registrations nat :=
  [(depB, makeServiceDefinition [depA] singleton fresh);
   (depA, makeServiceDefinition [depB] singleton fresh)].

Definition two_orders : State nat := mkState [mutual; mutual_swapped] [] 0.

(** A depends on B, B on C, registered dependencies first. *)
Definition layered : Registrations nat :=
  [(depC, singletonService);
   (depB, makeServiceDefinition [depC] scoped fresh);
   (depA, makeServiceDefinition [depB; depC] transient fresh)].

End Scenarios.

(** * Properties *)

(** ** Insertion-ordered maps *)

Section JSMapFacts.
Context {K V : Type} `{EqDecision K}.
Implicit Types (m : list (K * V)) (k : K) (v : V).

Lemma get_set_eq m k v : JSMap.get k (JSMap.set k v m) = Some v.
Proof.
  induction m as [|[k' v'] m IH]; simpl.
  - by rewrite decide_True.
  - destruct (decide (k' = k)) as [->|Hne]; simpl.
    + by rewrite decide_True.
    + by rewrite decide_False.
Qed.

Lemma get_set_ne m k k' v :
  k ≠ k' → JSMap.get k' (JSMap.set k v m) = JSMap.get k' m.
Proof.
  intros Hne. induction m as [|[k0 v0] m IH]; simpl.
  - by rewrite decide_False.
  - destruct (decide (k0 = k)) as [->|Hne0]; simpl.
    + by rewrite !decide_False.
    + destruct (decide (k0 = k')); done.
Qed.

Lemma get_Some_keys m k v : JSMap.get k m = Some v → k ∈ JSMap.keys m.
Proof.
  unfold JSMap.keys.
  induction m as [|[k' v'] m IH]; simpl; [done|].
  destruct (decide (k' = k)) as [->|Hne]; intros Hget.
  - apply list_elem_of_here.
  - apply list_elem_of_further. auto.
Qed.

Lemma get_None_keys m k : JSMap.get k m = None ↔ k ∉ JSMap.keys m.
Proof.
  unfold JSMap.keys.
  induction m as [|[k' v'] m IH]; simpl.
  - split; [intros _; apply not_elem_of_nil | done].
  - rewrite not_elem_of_cons. destruct (decide (k' = k)) as [->|Hne].
    + split; [done | intros [? _]; done].
    + rewrite IH. split; [intros ?; split; [congruence | done] | tauto].
Qed.

Lemma has_keys m k : JSMap.has k m = true ↔ k ∈ JSMap.keys m.
Proof.
  unfold JSMap.has. destruct (JSMap.get k m) as [v|] eqn:Hget.
  - split; [intros _; by eapply get_Some_keys | done].
  - apply get_None_keys in Hget. split; [done | tauto].
Qed.

Lemma get_elem_of m k v : JSMap.get k m = Some v → (k, v) ∈ m.
Proof.
  induction m as [|[k' v'] m IH]; simpl; [done|].
  destruct (decide (k' = k)) as [->|Hne].
  - intros [= ->]. apply list_elem_of_here.
  - intros Hget. apply list_elem_of_further. auto.
Qed.

Lemma set_fresh m k v : k ∉ JSMap.keys m → JSMap.set k v m = m ++ [(k, v)].
Proof.
  unfold JSMap.keys.
  induction m as [|[k' v'] m IH]; simpl; [done|].
  rewrite not_elem_of_cons. intros [Hne Hnin].
  rewrite decide_False by congruence. by rewrite IH.
Qed.

Lemma keys_set_present m k v :
  k ∈ JSMap.keys m → JSMap.keys (JSMap.set k v m) = JSMap.keys m.
Proof.
  unfold JSMap.keys.
  induction m as [|[k' v'] m IH]; simpl.
  - intros Hin. by apply elem_of_nil in Hin.
  - destruct (decide (k' = k)) as [->|Hne]; [done|].
    intros [?|Hin]%elem_of_cons; [congruence|]. simpl. f_equal. by apply IH.
Qed.

Lemma keys_set m k v :
  JSMap.keys (JSMap.set k v m) =
    if decide (k ∈ JSMap.keys m) then JSMap.keys m else JSMap.keys m ++ [k].
Proof.
  destruct (decide (k ∈ JSMap.keys m)) as [Hin|Hnin].
  - by apply keys_set_present.
  - rewrite set_fresh by done. unfold JSMap.keys. by rewrite fmap_app.
Qed.

Lemma NoDup_keys_set m k v :
  NoDup (JSMap.keys m) → NoDup (JSMap.keys (JSMap.set k v m)).
Proof.
  intros Hnd. rewrite keys_set. case_decide; [done|].
  apply NoDup_app. split_and!; [done | | apply NoDup_singleton].
  intros x Hx ->%list_elem_of_singleton. done.
Qed.
End JSMapFacts.

(** ** Cycle detection: [isCyclic] decides the existence of a cycle *)

Section CycleDetection.
Variable graph : Graph.

Lemma neighbours_edge node v :
  v ∈ default [] (JSMap.get node graph) → edge graph node v.
Proof.
  unfold edge. destruct (JSMap.get node graph) as [ns|]; simpl.
  - eauto.
  - intros Hin. by apply elem_of_nil in Hin.
Qed.

Lemma edge_neighbours node v :
  edge graph node v → v ∈ default [] (JSMap.get node graph).
Proof. intros (ns & -> & Hin). done. Qed.

Lemma closed_tc (X : gset Token) u v :
  (∀ a b, a ∈ X → edge graph a b → b ∈ X) → tc (edge graph) u v → u ∈ X → v ∈ X.
Proof. intros Hcl. induction 1; eauto. Qed.

(** *** Termination *)

Lemma edge_universe u v : edge graph u v → v ∈ universe graph.
Proof.
  intros (ns & Hget & Hin). unfold universe, graph_tokens.
  rewrite elem_of_list_to_set, elem_of_app. right.
  apply list_elem_of_In, in_concat. exists ns. split.
  - apply list_elem_of_In, list_elem_of_fmap.
    exists (u, ns). split; [done|]. by apply get_elem_of.
  - by apply list_elem_of_In.
Qed.

Lemma key_universe u : u ∈ JSMap.keys graph → u ∈ universe graph.
Proof.
  intros Hin. unfold universe, graph_tokens.
  rewrite elem_of_list_to_set, elem_of_app. by left.
Qed.

Lemma size_universe : size (universe graph) < dfs_fuel graph.
Proof.
  unfold universe, dfs_fuel.
  generalize (graph_tokens graph). intros l.
  assert (size (list_to_set (C := gset Token) l) ≤ length l); [|lia].
  induction l as [|x l IH].
  - by rewrite list_to_set_nil, size_empty.
  - rewrite list_to_set_cons, size_union_alt, size_singleton. simpl.
    assert (Hle : size (list_to_set l ∖ {[x]})
                ≤ size (list_to_set (C := gset Token) l))
      by (apply subseteq_size; set_solver). lia.
Qed.

Lemma hasCycle_terminates fuel node s :
  node ∈ universe graph → size (universe graph ∖ visited s) < fuel →
  ∃ b s', hasCycle fuel graph node s = Some (b, s') ∧
          visited s ⊆ visited s'.
Proof.
  revert node s. induction fuel as [|fuel IH]; intros node s Hin Hsz; [lia|].
  simpl. destruct (decide (node ∈ recStack s)); [by eauto|].
  destruct (decide (node ∈ visited s)) as [|Hnv]; [by eauto|].
  set (s1 := mkDfs _ _).
  assert (Hloop : ∀ xs s0,
    Forall (λ x, x ∈ universe graph) xs →
    size (universe graph ∖ visited s0) < fuel →
    ∃ b s', for_some (hasCycle fuel graph) xs s0 = Some (b, s') ∧
            visited s0 ⊆ visited s').
  { induction xs as [|x xs IHxs]; intros s0 Hall Hs0; simpl; [by eauto|].
    inversion Hall as [|? ? Hx Hxs]; subst.
    destruct (IH x s0 Hx Hs0) as (b & s' & -> & Hsub).
    destruct b; [by eauto|].
    destruct (IHxs s' Hxs) as (b' & s'' & -> & Hsub').
    - assert (Hle : size (universe graph ∖ visited s')
                    ≤ size (universe graph ∖ visited s0))
      by (apply subseteq_size; set_solver). lia.
    - exists b', s''. split; [done | set_solver]. }
  destruct (Hloop (default [] (JSMap.get node graph)) s1)
    as (b & s2 & -> & Hsub).
  - apply Forall_forall. intros v Hv.
    eapply edge_universe, neighbours_edge, Hv.
  - assert (Hlt : size (universe graph ∖ visited s1)
                  < size (universe graph ∖ visited s)).
    { apply subset_size. subst s1; simpl. split; [set_solver|].
      intros Hsub. specialize (Hsub node). set_solver. }
    lia.
  - subst s1. simpl in Hsub. destruct b; eexists _, _; (split; [done|]);
      simpl; set_solver.
Qed.

(** *** [false] answers maintain the invariant *)

Lemma hasCycle_false fuel node s s' :
  hasCycle fuel graph node s = Some (false, s') →
  recStack s' = recStack s ∧ (visited s ⊆ visited s') ∧
  node ∈ visited s' ∧ (node ∉ recStack s) ∧
  (dfs_inv graph s → dfs_inv graph s').
Proof.
  revert node s s'.
  induction fuel as [|fuel IH]; intros node s s'; simpl; [done|].
  destruct (decide (node ∈ recStack s)) as [|Hns]; [done|].
  destruct (decide (node ∈ visited s)) as [Hv|Hnv].
  { intros [= <-]. done. }
  set (ns := default [] (JSMap.get node graph)).
  assert (Hloop : ∀ xs s0 s0',
    for_some (hasCycle fuel graph) xs s0 = Some (false, s0') →
    recStack s0' = recStack s0 ∧ (visited s0 ⊆ visited s0') ∧
    (dfs_inv graph s0 → dfs_inv graph s0' ∧ ∀ x, x ∈ xs → x ∈ black s0')).
  { induction xs as [|x xs IHxs]; intros s0 s0'; simpl.
    - intros [= <-]. split_and!; [done..|]. intros Hinv. split; [done|].
      intros x Hx. by apply elem_of_nil in Hx.
    - destruct (hasCycle fuel graph x s0) as [[[] s1]|] eqn:Hx; [done| |done].
      intros Hrest.
      destruct (IH _ _ _ Hx) as (Hst1 & Hv1 & Hx1 & Hxs & Hinv1).
      destruct (IHxs _ _ Hrest) as (Hst2 & Hv2 & Hinv2).
      split_and!; [congruence | set_solver |].
      intros Hinv. destruct (Hinv2 (Hinv1 Hinv)) as [Hinv' Hblack].
      split; [done|]. intros y [->|Hy]%elem_of_cons; [|by auto].
      unfold black. rewrite Hst2, Hst1. set_solver. }
  destruct (for_some _ ns _) as [[[] s2]|] eqn:Hfor; [done| |done].
  intros [= <-]. simpl.
  destruct (Hloop _ _ _ Hfor) as (Hst & Hvis & Hinv2). simpl in *.
  split_and!; [rewrite Hst; set_solver | set_solver | set_solver | done |].
  intros Hinv.
  assert (Hb1 : black (mkDfs ({[node]} ∪ visited s) ({[node]} ∪ recStack s))
                = black s).
  { unfold black; simpl. set_solver. }
  destruct Hinv2 as [[Hcl Hac] Hns2].
  { unfold dfs_inv. rewrite Hb1. done. }
  assert (Hb2 : ∀ x, x ∈ black (mkDfs (visited s2) (recStack s2 ∖ {[node]}))
                ↔ x = node ∨ x ∈ black s2).
  { intros x. unfold black; simpl. rewrite Hst.
    destruct (decide (x = node)); set_solver. }
  assert (Hnb : node ∉ black s2).
  { unfold black. rewrite Hst. set_solver. }
  split.
  - intros u v [->|Hu]%Hb2 Huv; apply Hb2; right; [|by eauto].
    by apply Hns2, edge_neighbours.
  - intros u [->|Hu]%Hb2 Hcyc; [|by eapply Hac].
    apply Hnb. inversion Hcyc as [? ? He|? y ? He Htc]; subst.
    + by apply Hns2, edge_neighbours.
    + eapply closed_tc; [exact Hcl | exact Htc |].
      by apply Hns2, edge_neighbours.
Qed.

Lemma for_some_false fuel xs s s' :
  for_some (hasCycle fuel graph) xs s = Some (false, s') →
  recStack s' = recStack s ∧ (visited s ⊆ visited s') ∧
  (dfs_inv graph s → dfs_inv graph s' ∧ ∀ x, x ∈ xs → x ∈ black s').
Proof.
  revert s s'. induction xs as [|x xs IHxs]; intros s s'; cbn [for_some].
  - intros [= <-]. split_and!; [done..|]. intros Hinv. split; [done|].
    intros x Hx. by apply elem_of_nil in Hx.
  - destruct (hasCycle fuel graph x s) as [[[] s1]|] eqn:Hx; [done| |done].
    intros Hrest.
    destruct (hasCycle_false _ _ _ _ Hx) as (Hst1 & Hv1 & Hx1 & Hxs & Hinv1).
    destruct (IHxs _ _ Hrest) as (Hst2 & Hv2 & Hinv2).
    split_and!; [congruence | set_solver |].
    intros Hinv. destruct (Hinv2 (Hinv1 Hinv)) as [Hinv' Hblack].
    split; [done|]. intros y [->|Hy]%elem_of_cons; [|by auto].
    unfold black. rewrite Hst2, Hst1. set_solver.
Qed.

(** *** A [true] answer exhibits a cycle *)

Lemma hasCycle_true fuel node s s' :
  hasCycle fuel graph node s = Some (true, s') →
  (∀ x, x ∈ recStack s → tc (edge graph) x node) →
  has_cycle graph.
Proof.
  revert node s s'.
  induction fuel as [|fuel IH]; intros node s s'; simpl; [done|].
  destruct (decide (node ∈ recStack s)) as [Hs|Hns].
  { intros _ Hreach. exists node. auto. }
  destruct (decide (node ∈ visited s)) as [Hv|Hnv]; [done|].
  set (ns := default [] (JSMap.get node graph)).
  assert (Hloop : ∀ xs s0 s0',
    for_some (hasCycle fuel graph) xs s0 = Some (true, s0') →
    (∀ x y, x ∈ xs → y ∈ recStack s0 → tc (edge graph) y x) → has_cycle graph).
  { induction xs as [|x xs IHxs]; intros s0 s0'; simpl; [done|].
    destruct (hasCycle fuel graph x s0) as [[[] s1]|] eqn:Hx; [| |done].
    - intros _ Hreach. eapply IH; [exact Hx|].
      intros y Hy. apply Hreach; [apply list_elem_of_here | done].
    - intros Hrest Hreach. eapply IHxs; [exact Hrest|].
      destruct (hasCycle_false _ _ _ _ Hx) as (Hst & _).
      intros x' y Hx' Hy. rewrite Hst in Hy.
      apply Hreach; [by apply list_elem_of_further | done]. }
  destruct (for_some _ ns _) as [[[] s2]|] eqn:Hfor; [|done|done].
  intros _ Hreach. eapply Hloop; [exact Hfor|]. simpl.
  intros x y Hx%neighbours_edge [->%elem_of_singleton|Hy]%elem_of_union.
  - by apply tc_once.
  - eapply tc_r; eauto.
Qed.

(** *** [isCyclic] *)

Lemma isCyclic_total : ∃ b, isCyclic graph = Some b.
Proof.
  unfold isCyclic.
  assert (Hloop : ∀ xs s, Forall (λ x, x ∈ universe graph) xs →
    ∃ b s', for_some (hasCycle (dfs_fuel graph) graph) xs s = Some (b, s')).
  { induction xs as [|x xs IHxs]; intros s Hall; cbn [for_some]; [by eauto|].
    inversion Hall as [|? ? Hx Hxs]; subst.
    destruct (hasCycle_terminates (dfs_fuel graph) x s Hx)
      as (b & s' & -> & _).
    - pose proof size_universe.
      assert (Hle : size (universe graph ∖ visited s) ≤ size (universe graph))
      by (apply subseteq_size; set_solver). lia.
    - destruct b; eauto. }
  destruct (Hloop (JSMap.keys graph) (mkDfs ∅ ∅)) as (b & s' & ->); [|eauto].
  apply Forall_forall. intros x Hx. by apply key_universe.
Qed.

Lemma isCyclic_true : isCyclic graph = Some true → has_cycle graph.
Proof.
  unfold isCyclic.
  assert (Hloop : ∀ xs s s',
    for_some (hasCycle (dfs_fuel graph) graph) xs s = Some (true, s') →
    recStack s = ∅ → has_cycle graph).
  { induction xs as [|x xs IHxs]; intros s s'; cbn [for_some]; [done|].
    destruct (hasCycle _ graph x s) as [[[] s1]|] eqn:Hx; [| |done].
    - intros _ Hemp. eapply hasCycle_true; [exact Hx|].
      intros y Hy. rewrite Hemp in Hy. set_solver.
    - intros Hrest Hemp. eapply IHxs; [exact Hrest|].
      destruct (hasCycle_false _ _ _ _ Hx) as (Hst & _). congruence. }
  destruct (for_some _ _ _) as [[[] s']|] eqn:Hfor; [|done|done].
  intros _. by eapply Hloop.
Qed.

Lemma isCyclic_false : isCyclic graph = Some false → ¬ has_cycle graph.
Proof.
  unfold isCyclic.
  destruct (for_some _ _ _) as [[[] s']|] eqn:Hfor; [done| |done].
  intros _ [t Hcyc].
  destruct (for_some_false _ _ _ _ Hfor) as (_ & _ & Hinv).
  destruct Hinv as [[_ Hac] Hall].
  { split; unfold black; simpl; set_solver. }
  apply (Hac t); [|done]. apply Hall.
  inversion Hcyc as [? ? (ns & Hget & _)|? ? ? (ns & Hget & _) _]; subst;
    by eapply get_Some_keys.
Qed.

(** [isCyclic] always answers, and answers [true] exactly on cyclic graphs. *)
Lemma isCyclic_spec : isCyclic graph = Some true ↔ has_cycle graph.
Proof.
  split; [apply isCyclic_true|].
  intros Hcyc. destruct isCyclic_total as [[] Hb]; [done|].
  by apply isCyclic_false in Hb.
Qed.

Lemma isCyclic_spec_false : isCyclic graph = Some false ↔ ¬ has_cycle graph.
Proof.
  split; [apply isCyclic_false|].
  intros Hcyc. destruct isCyclic_total as [[] Hb]; [|done].
  by apply isCyclic_true in Hb.
Qed.
End CycleDetection.

(** ** The dependency graph of a registry *)

Section Registry.
Context {W : Type}.
Implicit Types (m : Registrations W) (d : ServiceDefinition W).

Lemma graph_fold m (acc : Graph) :
  NoDup (JSMap.keys acc ++ JSMap.keys m) →
  fold_left (λ graph '(key, value), JSMap.set key (requires value) graph)
    m acc
  = acc ++ ((λ '(key, value), (key, requires value)) <$> m).
Proof.
  revert acc. induction m as [|[k d] m IH]; intros acc Hnd; simpl.
  - by rewrite app_nil_r.
  - unfold JSMap.keys in Hnd. simpl in Hnd.
    apply NoDup_app in Hnd as (Hacc & Hdisj & Hm).
    apply NoDup_cons in Hm as [Hk Hm].
    rewrite set_fresh.
    + rewrite IH; [by rewrite <- app_assoc|].
      unfold JSMap.keys. rewrite fmap_app. simpl.
      rewrite <- app_assoc. simpl.
      apply NoDup_app. split_and!; [done| |by apply NoDup_cons].
      intros x Hx. apply Hdisj in Hx. done.
    + intros Hin. apply Hdisj in Hin. apply Hin, list_elem_of_here.
Qed.

Lemma graphFromServiceMap_eq m :
  NoDup (JSMap.keys m) →
  graphFromServiceMap m = (λ '(key, value), (key, requires value)) <$> m.
Proof. intros Hnd. unfold graphFromServiceMap, JSMap.entries.
       by rewrite graph_fold. Qed.

Lemma get_graph m t :
  NoDup (JSMap.keys m) →
  JSMap.get t (graphFromServiceMap m) = requires <$> JSMap.get t m.
Proof.
  intros Hnd. rewrite graphFromServiceMap_eq by done. clear Hnd.
  induction m as [|[k d] m IH]; simpl; [done|].
  destruct (decide (k = t)); done.
Qed.

Lemma edge_depends m t u :
  NoDup (JSMap.keys m) →
  edge (graphFromServiceMap m) t u ↔ depends m t u.
Proof.
  intros Hnd. unfold edge, depends. rewrite get_graph by done.
  destruct (JSMap.get t m) as [d|]; simpl; split.
  - intros (ns & [= <-] & Hin). eauto.
  - intros (d' & [= <-] & Hin). eauto.
  - intros (ns & [=] & _).
  - intros (d' & [=] & _).
Qed.

Lemma has_cycle_cyclic m :
  NoDup (JSMap.keys m) → has_cycle (graphFromServiceMap m) ↔ cyclic m.
Proof.
  intros Hnd. unfold has_cycle, cyclic.
  assert (Heq : ∀ t u, tc (edge (graphFromServiceMap m)) t u
                       ↔ tc (depends m) t u).
  { intros t u. split; induction 1 as [x y Hxy|x y z Hxy _ IH];
      apply edge_depends in Hxy; try done;
      [by apply tc_once | by eapply tc_l | by apply tc_once | by eapply tc_l]. }
  split; intros [t Ht]; exists t; by apply Heq.
Qed.

(** A token that is only ever mentioned as a dependency has no outgoing
    edge, hence lies on no cycle. *)
Lemma unregistered_no_edge m t u : JSMap.get t m = None → ¬ depends m t u.
Proof. intros Hnone (d & Hget & _). congruence. Qed.

Lemma unregistered_no_cycle m t : JSMap.get t m = None → ¬ tc (depends m) t t.
Proof.
  intros Hnone Htc.
  inversion Htc as [? ? He|? ? ? He _]; subst;
    by eapply unregistered_no_edge.
Qed.

Lemma checkForCycles_spec (map : nat) (σ : State W) m :
  maps σ !! map = Some m → NoDup (JSMap.keys m) →
  (cyclic m → checkForCycles map σ = Throw CircularDependency σ) ∧
  (¬ cyclic m → checkForCycles map σ = Ret tt σ).
Proof.
  intros Hm Hnd. unfold checkForCycles. rewrite Hm. split; intros Hc.
  - apply has_cycle_cyclic, isCyclic_spec in Hc; [|done]. by rewrite Hc.
  - rewrite <- has_cycle_cyclic, <- isCyclic_spec_false in Hc by done.
    by rewrite Hc.
Qed.
End Registry.

(** ** The resolver: fuel, footprint, termination *)

Section Resolver.
Context {W : Type}.
Abbreviation IRfun := (nat → Token → State W → Outcome W Value).
Implicit Types (σ : State W) (d : ServiceDefinition W).
Implicit Types (this : InternalResolver) (IR : IRfun).

Lemma final_returns {A : Type} (o : Outcome W A) σ :
  final o = Some σ → returns o.
Proof. by destruct o. Qed.

Lemma returns_final {A : Type} (o : Outcome W A) :
  returns o → ∃ σ, final o = Some σ.
Proof. destruct o; simpl; eauto; done. Qed.

Lemma bind_returns {A B : Type} (o : Outcome W A)
    (k : A → State W → Outcome W B) :
  returns (bind o k) → returns o.
Proof. by destruct o. Qed.

Lemma InternalResolve_unfold n r t σ :
  InternalResolve (S n) r t σ = step (InternalResolve n) r t σ.
Proof. reflexivity. Qed.

(** *** More fuel never changes a finished computation *)

Lemma resolve_via_refines IR IR' r t σ :
  refines IR IR' → returns (resolve_via IR r t σ) →
  resolve_via IR' r t σ = resolve_via IR r t σ.
Proof.
  intros Href Hret. unfold resolve_via in *.
  rewrite Href; [done|]. by destruct (IR r t σ).
Qed.

Lemma map_resolve_refines (f g : Token → State W → Outcome W Value) ts σ :
  (∀ t σ, returns (f t σ) → g t σ = f t σ) →
  returns (map_resolve f ts σ) → map_resolve g ts σ = map_resolve f ts σ.
Proof.
  intros Hfg. revert σ. induction ts as [|t ts IH]; intros σ; simpl; [done|].
  intros Hret. rewrite Hfg by (by apply bind_returns in Hret).
  destruct (f t σ) as [v σ1| | |]; simpl in *; try done.
  rewrite IH; [done|]. by apply bind_returns in Hret.
Qed.

Lemma construct_refines IR IR' r d σ :
  refines IR IR' → returns (construct IR r d σ) →
  construct IR' r d σ = construct IR r d σ.
Proof.
  intros Href Hret. unfold construct in *.
  rewrite (map_resolve_refines (resolve_via IR r) (resolve_via IR' r));
    [done| |by apply bind_returns in Hret].
  intros t σ0. by apply resolve_via_refines.
Qed.

Lemma cached_or_construct_refines IR IR' r t d σ :
  refines IR IR' → returns (cached_or_construct IR r t d σ) →
  cached_or_construct IR' r t d σ = cached_or_construct IR r t d σ.
Proof.
  intros Href. unfold cached_or_construct, construct_and_cache.
  destruct (truthy (cache_get r t σ)); [done|].
  intros Hret%bind_returns. by rewrite (construct_refines IR IR').
Qed.

Lemma probe_parent_refines IR IR' par t (k k' : State W → Outcome W Value) σ :
  refines IR IR' → (∀ σ0, returns (k σ0) → k' σ0 = k σ0) →
  returns (probe_parent IR par t k σ) →
  probe_parent IR' par t k' σ = probe_parent IR par t k σ.
Proof.
  intros Href Hk. unfold probe_parent. destruct par as [p|]; [|by auto].
  intros Hret. rewrite Href; [|by destruct (IR p t σ)].
  destruct (IR p t σ) as [v σ1| | |]; try done.
  destruct (truthy v); auto.
Qed.

Lemma step_refines IR IR' : refines IR IR' → refines (step IR) (step IR').
Proof.
  intros Href r t σ. unfold step.
  destruct (resolvers σ !! r) as [this|]; [|done].
  destruct (maps σ !! registrations this) as [m|]; [|done].
  destruct (JSMap.get t m) as [d|]; [|done].
  destruct (lifetime d).
  - apply probe_parent_refines; [done|].
    intros σ0. by apply cached_or_construct_refines.
  - apply probe_parent_refines; [done|].
    intros σ0. by apply construct_refines.
  - by apply cached_or_construct_refines.
Qed.

Lemma InternalResolve_S n :
  refines (W := W) (InternalResolve n) (InternalResolve (S n)).
Proof.
  induction n as [|n IH]; [by intros r t σ|].
  intros r t σ. rewrite !InternalResolve_unfold. by apply step_refines.
Qed.

Lemma InternalResolve_fuel n n' :
  n ≤ n' → refines (W := W) (InternalResolve n) (InternalResolve n').
Proof.
  induction 1 as [|n' _ IH]; [by intros r t σ|].
  intros r t σ Hret. rewrite <- (IH r t σ Hret).
  apply InternalResolve_S. by rewrite IH.
Qed.

Lemma resolve_fuel n n' r t σ :
  n ≤ n' → returns (resolve n r t σ) → resolve n' r t σ = resolve n r t σ.
Proof.
  intros Hle. apply resolve_via_refines. by apply InternalResolve_fuel.
Qed.

(** *** What a resolution may touch *)

Lemma footprint_refl r σ : footprint r σ σ.
Proof. split; eauto 10. Qed.

Lemma fp_shape_inv r σ σ' i this' :
  footprint r σ σ' → resolvers σ' !! i = Some this' →
  ∃ this, resolvers σ !! i = Some this ∧
          registrations this' = registrations this ∧
          parent this' = parent this.
Proof.
  intros Hfp Hi.
  destruct (lookup_lt_is_Some_2 (resolvers σ) i) as [this Hthis].
  { rewrite <- (fp_length _ _ _ Hfp). by eapply lookup_lt_Some. }
  destruct (fp_shape _ _ _ Hfp _ _ Hthis) as (this'' & Hi' & ? & ? & _).
  exists this. by simplify_eq.
Qed.

Lemma in_chain_footprint q σ σ' r i :
  footprint q σ σ' → in_chain σ r i ↔ in_chain σ' r i.
Proof.
  intros Hfp. split; induction 1 as [|r this p i Hr Hp _ IH];
    try apply in_chain_here.
  - destruct (fp_shape _ _ _ Hfp _ _ Hr) as (this' & Hr' & _ & Hp' & _).
    apply (in_chain_parent _ r this' p); [done|congruence|done].
  - destruct (fp_shape_inv _ _ _ _ _ Hfp Hr) as (this' & Hr' & _ & Hp').
    apply (in_chain_parent _ r this' p); [done|congruence|done].
Qed.

Lemma cacheable_footprint q σ σ' this this' k :
  footprint q σ σ' → registrations this' = registrations this →
  cacheable σ this k ↔ cacheable σ' this' k.
Proof.
  intros Hfp Hreg. unfold cacheable.
  by rewrite (fp_maps _ _ _ Hfp), Hreg.
Qed.

Lemma footprint_trans r σ σ1 σ2 :
  footprint r σ σ1 → footprint r σ1 σ2 → footprint r σ σ2.
Proof.
  intros H1 H2. split.
  - by rewrite (fp_maps _ _ _ H2), (fp_maps _ _ _ H1).
  - by rewrite (fp_length _ _ _ H2), (fp_length _ _ _ H1).
  - intros i this Hi.
    destruct (fp_shape _ _ _ H1 _ _ Hi) as (this1 & Hi1 & Hr1 & Hp1 & Hc1).
    destruct (fp_shape _ _ _ H2 _ _ Hi1) as (this2 & Hi2 & Hr2 & Hp2 & Hc2).
    exists this2. split_and!; [done|congruence|congruence|].
    intros k Hk. rewrite Hc2, Hc1; [done..|].
    by rewrite <- (cacheable_footprint r σ σ1 this this1).
  - intros i Hi. rewrite (fp_frame _ _ _ H2), (fp_frame _ _ _ H1); [done..|].
    by rewrite <- (in_chain_footprint r σ σ1).
Qed.

Lemma footprint_parent r this p σ σ' :
  resolvers σ !! r = Some this → parent this = Some p →
  footprint p σ σ' → footprint r σ σ'.
Proof.
  intros Hr Hp [Hm Hl Hs Hf]. split; [done..|].
  intros i Hi. apply Hf. intros Hin. apply Hi.
  by eapply in_chain_parent.
Qed.

Lemma footprint_world r σ w :
  footprint r σ (mkState (maps σ) (resolvers σ) w).
Proof. split; simpl; eauto 10. Qed.

Lemma footprint_cache_set r t v σ this :
  resolvers σ !! r = Some this → cacheable σ this t →
  footprint r σ (cache_set r t v σ).
Proof.
  intros Hr Hc. split; unfold cache_set; simpl.
  - done.
  - by rewrite length_alter.
  - intros i this0 Hi. destruct (decide (i = r)) as [->|Hne].
    + rewrite list_lookup_alter_eq, Hr. simpl. eexists. split; [done|].
      simpl. assert (this0 = this) as -> by congruence.
      split_and!; [done..|]. intros k Hk.
      apply get_set_ne. intros ->. done.
    + rewrite list_lookup_alter_ne by done. eauto 10.
  - intros i Hi. apply list_lookup_alter_ne. intros ->.
    apply Hi, in_chain_here.
Qed.

Lemma def_at_footprint q σ σ' r t d :
  footprint q σ σ' → def_at σ r t d → def_at σ' r t d.
Proof.
  intros Hfp (this & m & Hr & Hm & Hget).
  destruct (fp_shape _ _ _ Hfp _ _ Hr) as (this' & Hr' & Hreg & _).
  exists this', m. by rewrite Hreg, (fp_maps _ _ _ Hfp).
Qed.

Lemma def_at_cacheable σ r t d :
  def_at σ r t d → lifetime d ≠ transient →
  ∃ this, resolvers σ !! r = Some this ∧ cacheable σ this t.
Proof. intros (this & m & Hr & Hm & Hget) Hlt. exists this.
       split; [done|]. by exists m, d. Qed.

Lemma resolve_via_footprint IR r t σ σ' :
  fp_sound IR → final (resolve_via IR r t σ) = Some σ' → footprint r σ σ'.
Proof.
  intros Hs. unfold resolve_via. specialize (Hs r t σ).
  destruct (IR r t σ) as [v σ1| | |]; simpl in *; try done.
  - destruct (truthy v); simpl; auto.
  - auto.
Qed.

Lemma map_resolve_footprint IR r ts σ σ' :
  fp_sound IR →
  final (map_resolve (resolve_via IR r) ts σ) = Some σ' → footprint r σ σ'.
Proof.
  intros Hs. revert σ. induction ts as [|t ts IH]; intros σ; simpl.
  - intros [= <-]. apply footprint_refl.
  - pose proof (resolve_via_footprint IR r t σ) as Ht.
    destruct (resolve_via IR r t σ) as [v σ1| | |]; simpl in *; try done.
    + intros Hfin. eapply footprint_trans; [by apply Ht|].
      apply IH. by destruct (map_resolve _ ts σ1).
    + intros [= <-]. by apply Ht.
Qed.

Lemma call_instance_footprint r d args σ σ' :
  final (call_instance d args σ) = Some σ' → footprint r σ σ'.
Proof.
  unfold call_instance. destruct (instance d args (world σ)) as [[v|e] w];
    intros [= <-]; apply footprint_world.
Qed.

Lemma construct_footprint IR r d σ σ' :
  fp_sound IR → final (construct IR r d σ) = Some σ' → footprint r σ σ'.
Proof.
  intros Hs. unfold construct.
  pose proof (map_resolve_footprint IR r (requires d) σ) as Hm.
  destruct (map_resolve _ _ σ) as [args σ1| | |]; simpl in *; try done.
  - intros Hfin. eapply footprint_trans; [by apply Hm|].
    by eapply call_instance_footprint.
  - intros [= <-]. by apply Hm.
Qed.

Lemma cached_or_construct_footprint IR r t d σ σ' :
  fp_sound IR → def_at σ r t d → lifetime d ≠ transient →
  final (cached_or_construct IR r t d σ) = Some σ' → footprint r σ σ'.
Proof.
  intros Hs Hdef Hlt. unfold cached_or_construct, construct_and_cache.
  destruct (truthy (cache_get r t σ)).
  { intros [= <-]. apply footprint_refl. }
  pose proof (construct_footprint IR r d σ) as Hc.
  destruct (construct IR r d σ) as [v σ1| | |]; simpl in *; try done.
  - intros [= <-]. specialize (Hc _ Hs eq_refl).
    eapply footprint_trans; [exact Hc|].
    destruct (def_at_cacheable σ1 r t d) as (this1 & Hr1 & Hc1); [|done|].
    { by eapply def_at_footprint. }
    by eapply footprint_cache_set.
  - intros [= <-]. by apply Hc.
Qed.

Lemma probe_parent_footprint IR r this t (k : State W → Outcome W Value)
    σ σ' :
  fp_sound IR → resolvers σ !! r = Some this →
  (∀ σ0 σ0', footprint r σ σ0 → final (k σ0) = Some σ0' →
             footprint r σ0 σ0') →
  final (probe_parent IR (parent this) t k σ) = Some σ' → footprint r σ σ'.
Proof.
  intros Hs Hr Hk. unfold probe_parent.
  destruct (parent this) as [p|] eqn:Hp.
  - pose proof (Hs p t σ) as Hpar.
    destruct (IR p t σ) as [v σ1| | |]; simpl in *; try done.
    + assert (footprint r σ σ1) as Hfp1.
      { eapply footprint_parent; eauto. }
      destruct (truthy v); [by intros [= <-]|].
      intros Hfin. eapply footprint_trans; [exact Hfp1|]. by apply Hk.
    + intros [= <-]. eapply footprint_parent; eauto.
  - intros Hfin. apply Hk; [apply footprint_refl | done].
Qed.

Lemma step_footprint IR : fp_sound IR → fp_sound (step IR).
Proof.
  intros Hs r t σ σ'. unfold step.
  destruct (resolvers σ !! r) as [this|] eqn:Hr; [|done].
  destruct (maps σ !! registrations this) as [m|] eqn:Hm; [|done].
  destruct (JSMap.get t m) as [d|] eqn:Hget.
  2:{ intros [= <-]. apply footprint_refl. }
  assert (def_at σ r t d) as Hdef by (by exists this, m).
  destruct (lifetime d) eqn:Hlt.
  - apply probe_parent_footprint; [done..|].
    intros σ0 σ0' Hfp0. apply cached_or_construct_footprint; [done| |].
    + by eapply def_at_footprint.
    + by rewrite Hlt.
  - apply probe_parent_footprint; [done..|].
    intros σ0 σ0' Hfp0. by apply construct_footprint.
  - apply cached_or_construct_footprint; [done..|]. by rewrite Hlt.
Qed.

Lemma InternalResolve_footprint n : fp_sound (W := W) (InternalResolve n).
Proof.
  induction n as [|n IH]; [by intros r t σ σ'|].
  intros r t σ σ'. rewrite InternalResolve_unfold. by apply step_footprint.
Qed.

Lemma resolve_footprint n r t σ σ' :
  final (resolve n r t σ) = Some σ' → footprint r σ σ'.
Proof. apply resolve_via_footprint, InternalResolve_footprint. Qed.
End Resolver.

(** ** Well-formed stores and termination of resolution *)

Section WellFormed.
Context {W : Type}.
Abbreviation IRfun := (nat → Token → State W → Outcome W Value).
Implicit Types (σ : State W) (d : ServiceDefinition W).
Implicit Types (this : InternalResolver) (IR : IRfun).
Implicit Types (m : Registrations W).

Lemma same_shape_refl σ : same_shape σ σ.
Proof. by split. Qed.

Lemma same_shape_trans σ1 σ2 σ3 :
  same_shape σ1 σ2 → same_shape σ2 σ3 → same_shape σ1 σ3.
Proof. intros [? ?] [? ?]. split; congruence. Qed.

Lemma same_shape_sym σ1 σ2 : same_shape σ1 σ2 → same_shape σ2 σ1.
Proof. intros [? ?]. by split. Qed.

Lemma same_shape_lookup σ σ' i this :
  same_shape σ σ' → resolvers σ !! i = Some this →
  ∃ this', resolvers σ' !! i = Some this' ∧
           registrations this' = registrations this ∧
           parent this' = parent this.
Proof.
  intros [_ Heq] Hi.
  assert (((λ this, (registrations this, parent this)) <$> resolvers σ') !! i
          = Some (registrations this, parent this)) as Hi'.
  { by rewrite Heq, list_lookup_fmap, Hi. }
  rewrite list_lookup_fmap in Hi'.
  destruct (resolvers σ' !! i) as [this'|]; simplify_eq/=. eauto.
Qed.

Lemma footprint_same_shape r σ σ' : footprint r σ σ' → same_shape σ σ'.
Proof.
  intros Hfp. split; [by apply (fp_maps _ _ _ Hfp)|].
  apply list_eq. intros i. rewrite !list_lookup_fmap.
  destruct (resolvers σ !! i) as [this|] eqn:Hi.
  - destruct (fp_shape _ _ _ Hfp _ _ Hi) as (this' & Hi' & Hr & Hp & _).
    rewrite Hi'. simpl. by rewrite Hr, Hp.
  - apply lookup_ge_None in Hi. rewrite <- (fp_length _ _ _ Hfp) in Hi.
    apply lookup_ge_None in Hi. by rewrite Hi.
Qed.

Lemma state_ok_same_shape σ σ' : state_ok σ → same_shape σ σ' → state_ok σ'.
Proof.
  intros [Hmaps Hres] Hsh. pose proof Hsh as [Hm _]. split.
  - intros a m. rewrite Hm. apply Hmaps.
  - intros i this' Hi'.
    destruct (same_shape_lookup σ' σ i this') as (this & Hi & Hreg & Hpar);
      [by apply same_shape_sym | done |].
    destruct (Hres i this Hi) as (m & Hmi & Hac & Hp).
    exists m. rewrite Hm, <- Hreg. split_and!; [done..|].
    intros p Hpp. rewrite <- Hpar in Hpp.
    destruct (Hp p Hpp) as (Hlt & pthis & mp & Hpi & Hmp & Hsub).
    split; [done|].
    destruct (same_shape_lookup σ σ' p pthis) as (pthis' & ? & Hreg' & _);
      [done..|].
    exists pthis', mp. by rewrite Hreg'.
Qed.

Lemma state_ok_footprint r σ σ' : state_ok σ → footprint r σ σ' → state_ok σ'.
Proof. intros Hok Hfp. eapply state_ok_same_shape; [done|].
       by eapply footprint_same_shape. Qed.

(** Ancestors were created before their descendants. *)
Lemma in_chain_le σ r q : state_ok σ → in_chain σ r q → q ≤ r.
Proof.
  intros Hok. induction 1 as [|r this p q Hr Hp _ IH]; [done|].
  destruct (ok_resolvers _ Hok _ _ Hr) as (m & _ & _ & Hpar).
  destruct (Hpar p Hp) as [Hlt _]. lia.
Qed.

(** A token unknown to a resolver is unknown to all its ancestors. *)
Lemma absent_in_chain σ r q t :
  state_ok σ → in_chain σ r q → absent_at σ r t → absent_at σ q t.
Proof.
  intros Hok. induction 1 as [|r this p q Hr Hp _ IH]; [done|].
  intros (this' & m & Hr' & Hm & Hget). apply IH.
  rewrite Hr in Hr'. injection Hr' as <-.
  destruct (ok_resolvers _ Hok _ _ Hr) as (m' & Hm' & _ & Hpar).
  destruct (Hpar p Hp) as (_ & pthis & mp & Hpi & Hmp & Hsub).
  exists pthis, mp. split_and!; [done..|].
  apply get_None_keys. intros Hin%Hsub.
  assert (m' = m) as -> by congruence. by apply get_None_keys in Hget.
Qed.

(** *** Termination *)

Lemma depends_finite m t : pred_finite (tc (depends m) t).
Proof.
  exists (concat (requires <$> m.*2)). intros u Htc.
  assert (∃ y, depends m y u) as (y & d & Hget & Hin).
  { induction Htc; eauto. }
  apply list_elem_of_In, in_concat. exists (requires d). split.
  - apply list_elem_of_In, list_elem_of_fmap. exists d. split; [done|].
    apply list_elem_of_fmap. exists (y, d). split; [done|].
    by apply get_elem_of.
  - by apply list_elem_of_In.
Qed.

Lemma acyclic_sn m t : ¬ cyclic m → sn (depends m) t.
Proof.
  intros Hac. apply tc_finite_sn; [|apply depends_finite].
  intros x Hx. apply Hac. by exists x.
Qed.

Lemma uniform_bound {A : Type} (l : list A) (P : A → nat → Prop) :
  (∀ x, x ∈ l → ∃ N, ∀ n, N ≤ n → P x n) →
  ∃ N, ∀ x n, x ∈ l → N ≤ n → P x n.
Proof.
  induction l as [|a l IH]; intros Hall.
  - exists 0. intros x n Hx. by apply elem_of_nil in Hx.
  - destruct IH as [N1 H1].
    { intros x Hx. apply Hall. by apply list_elem_of_further. }
    destruct (Hall a) as [N2 H2]; [apply list_elem_of_here|].
    exists (N1 `max` N2). intros x n [->|Hx]%elem_of_cons Hn.
    + apply H2. lia.
    + apply H1; [done|lia].
Qed.

Lemma map_resolve_returns IR r ts σ σ0 :
  fp_sound IR → same_shape σ σ0 →
  (∀ u σ1, u ∈ ts → same_shape σ σ1 → returns (IR r u σ1)) →
  returns (map_resolve (resolve_via IR r) ts σ0).
Proof.
  intros Hs Hsh Hall. revert σ0 Hsh.
  induction ts as [|u ts IH]; intros σ0 Hsh; simpl; [done|].
  pose proof (Hall u σ0 (list_elem_of_here _ _) Hsh) as Hu.
  pose proof (Hs r u σ0) as Hfp.
  unfold resolve_via at 1.
  destruct (IR r u σ0) as [v σ1| | |]; try done.
  destruct (truthy v); [|done]. simpl.
  specialize (IH (λ u' σ', λ Hin, Hall u' σ' (list_elem_of_further _ _ _ Hin))
                σ1).
  destruct (map_resolve _ ts σ1); try done; apply IH;
    (eapply same_shape_trans; [exact Hsh|]);
    eapply footprint_same_shape; by apply Hfp.
Qed.

Lemma call_instance_returns d args σ : returns (call_instance d args σ).
Proof.
  unfold call_instance. by destruct (instance d args (world σ)) as [[v|e] w].
Qed.

Lemma construct_returns IR r d σ σ0 :
  fp_sound IR → same_shape σ σ0 →
  (∀ u σ1, u ∈ requires d → same_shape σ σ1 → returns (IR r u σ1)) →
  returns (construct IR r d σ0).
Proof.
  intros Hs Hsh Hall. unfold construct.
  pose proof (map_resolve_returns IR r (requires d) σ σ0 Hs Hsh Hall) as Hm.
  destruct (map_resolve _ _ σ0); try done. apply call_instance_returns.
Qed.

Lemma cached_or_construct_returns IR r t d σ σ0 :
  fp_sound IR → same_shape σ σ0 →
  (∀ u σ1, u ∈ requires d → same_shape σ σ1 → returns (IR r u σ1)) →
  returns (cached_or_construct IR r t d σ0).
Proof.
  intros Hs Hsh Hall. unfold cached_or_construct, construct_and_cache.
  destruct (truthy _); [done|].
  pose proof (construct_returns IR r d σ σ0 Hs Hsh Hall) as Hc.
  by destruct (construct IR r d σ0).
Qed.

Lemma probe_parent_returns IR par t (k : State W → Outcome W Value) σ σ0 :
  fp_sound IR → same_shape σ σ0 →
  (∀ p, par = Some p → returns (IR p t σ0)) →
  (∀ σ1, same_shape σ σ1 → returns (k σ1)) →
  returns (probe_parent IR par t k σ0).
Proof.
  intros Hs Hsh Hpar Hk. unfold probe_parent.
  destruct par as [p|]; [|by apply Hk].
  specialize (Hpar p eq_refl). pose proof (Hs p t σ0) as Hfp.
  destruct (IR p t σ0) as [v σ1| | |]; try done.
  destruct (truthy v); [done|]. apply Hk.
  eapply same_shape_trans; [exact Hsh|].
  eapply footprint_same_shape. by apply Hfp.
Qed.

(** On a well-formed store every resolution finishes, given enough fuel:
    the recursion goes to the parent (created earlier) or to a dependency
    (in an acyclic registry). *)
Lemma InternalResolve_terminates σ r t :
  state_ok σ → r < length (resolvers σ) →
  ∃ N, ∀ n σ', N ≤ n → same_shape σ σ' →
       returns (InternalResolve n r t σ').
Proof.
  intros Hok. revert t. induction (lt_wf r) as [r _ IHr]. intros t Hr.
  destruct (lookup_lt_is_Some_2 _ _ Hr) as [this Hthis].
  destruct (ok_resolvers _ Hok _ _ Hthis) as (m & Hm & Hac & Hpar).
  induction (acyclic_sn m t Hac) as [t _ IHt].
  assert (Hparent : ∃ Np, ∀ p n σ', parent this = Some p → Np ≤ n →
            same_shape σ σ' → returns (InternalResolve n p t σ')).
  { destruct (parent this) as [p|] eqn:Hp.
    - destruct (Hpar p eq_refl) as (Hlt & pthis & _ & Hpi & _).
      destruct (IHr p Hlt t) as [Np HNp].
      { by eapply lookup_lt_Some. }
      exists Np. intros p' n σ' [= <-]. apply HNp.
    - exists 0. by intros. }
  destruct Hparent as [Np HNp].
  destruct (JSMap.get t m) as [d|] eqn:Hget.
  2:{ exists 1. intros n σ' Hn Hsh. destruct n as [|n]; [lia|].
      rewrite InternalResolve_unfold. unfold step.
      destruct (same_shape_lookup _ _ _ _ Hsh Hthis) as (this' & -> & -> & _).
      destruct Hsh as [-> _]. by rewrite Hm, Hget. }
  destruct (uniform_bound (requires d)
              (λ u n, ∀ σ', same_shape σ σ' →
                            returns (InternalResolve n r u σ')))
    as [Nd HNd].
  { intros u Hu. destruct (IHt u) as [N HN]; [by exists d|].
    exists N. intros n Hn σ' Hsh. by apply HN. }
  exists (S (Np `max` Nd)). intros n σ' Hn Hsh.
  destruct n as [|n]; [lia|]. rewrite InternalResolve_unfold. unfold step.
  destruct (same_shape_lookup _ _ _ _ Hsh Hthis) as (this' & -> & -> & Hp').
  pose proof Hsh as [-> _]. rewrite Hm, Hget.
  assert (Hdeps : ∀ u σ1, u ∈ requires d → same_shape σ σ1 →
                          returns (InternalResolve n r u σ1)).
  { intros u σ1 Hu Hsh1. apply HNd; [done|lia|done]. }
  pose proof (InternalResolve_footprint (W := W) n) as Hs.
  destruct (lifetime d).
  - apply (probe_parent_returns _ _ _ _ σ); [done..| |].
    + intros p Hp. apply HNp; [congruence|lia|done].
    + intros σ1 Hsh1. by apply (cached_or_construct_returns _ _ _ _ σ).
  - apply (probe_parent_returns _ _ _ _ σ); [done..| |].
    + intros p Hp. apply HNp; [congruence|lia|done].
    + intros σ1 Hsh1. by apply (construct_returns _ _ _ σ).
  - by apply (cached_or_construct_returns _ _ _ _ σ).
Qed.

Lemma resolve_terminates σ r t :
  state_ok σ → r < length (resolvers σ) →
  ∃ N, ∀ n, N ≤ n → returns (resolve n r t σ).
Proof.
  intros Hok Hr. destruct (InternalResolve_terminates σ r t Hok Hr) as [N HN].
  exists N. intros n Hn. unfold resolve, resolve_via.
  specialize (HN n σ Hn (same_shape_refl σ)).
  destruct (InternalResolve n r t σ) as [v σ'| | |]; try done.
  by destruct (truthy v).
Qed.
End WellFormed.

(** ** The container builder *)

Section Builder.
Context {W : Type}.
Implicit Types (σ : State W) (d : ServiceDefinition W).
Implicit Types (this : InternalResolver) (m : Registrations W).
Implicit Types (c : Container).

Lemma empty_state_ok (w : W) : state_ok (empty_state w).
Proof. split; intros i x Hi; simpl in Hi; by rewrite lookup_nil in Hi. Qed.

(** [provide] copies the [Map], writes into the copy and wraps it. *)
Lemma provide_eq c t d σ m :
  maps σ !! ContainerMapKey c = Some m →
  provide c t d σ
  = Ret (createInnerContainer (ContainerRequiredKey c ++ requires d)
           (ContainerProvidedKey c ++ [t]) (length (maps σ)))
      (mkState (maps σ ++ [JSMap.set t d m]) (resolvers σ) (world σ)).
Proof.
  intros Hm. unfold provide, new_Map, Map_set. rewrite Hm. simpl.
  rewrite alter_app_r_alt by done. by rewrite Nat.sub_diag.
Qed.

Lemma createContainer_provide_eq t d σ :
  createContainer_provide t d σ
  = Ret (createInnerContainer (requires d) [t] (length (maps σ)))
      (mkState (maps σ ++ [[(t, d)]]) (resolvers σ) (world σ)).
Proof.
  unfold createContainer_provide, new_Map, Map_set. simpl.
  rewrite alter_app_r_alt by done. by rewrite Nat.sub_diag.
Qed.

Lemma state_ok_new_map σ m :
  state_ok σ → NoDup (JSMap.keys m) →
  state_ok (mkState (maps σ ++ [m]) (resolvers σ) (world σ)).
Proof.
  intros [Hmaps Hres] Hnd. split; simpl.
  - intros a m' [Ha|[_ Ha]]%lookup_app_Some; [by eauto|].
    apply list_elem_of_lookup_2, list_elem_of_singleton in Ha. by subst.
  - intros i this Hi.
    destruct (Hres i this Hi) as (mi & Hmi & Hac & Hp).
    exists mi. split_and!; [by apply lookup_app_l_Some|done|].
    intros p Hpp. destruct (Hp p Hpp) as (Hlt & pthis & mp & ? & ? & ?).
    split; [done|]. exists pthis, mp.
    split_and!; [done|by apply lookup_app_l_Some|done].
Qed.

Lemma provide_ok c t d σ c' σ' :
  state_ok σ → provide c t d σ = Ret c' σ' → state_ok σ'.
Proof.
  intros Hok. destruct (maps σ !! ContainerMapKey c) as [m|] eqn:Hm.
  - rewrite (provide_eq _ _ _ _ _ Hm). intros [= _ <-].
    apply state_ok_new_map; [done|].
    apply NoDup_keys_set. by eapply ok_maps.
  - unfold provide. by rewrite Hm.
Qed.

Lemma createContainer_provide_ok t d σ c' σ' :
  state_ok σ → createContainer_provide t d σ = Ret c' σ' → state_ok σ'.
Proof.
  intros Hok. rewrite createContainer_provide_eq. intros [= _ <-].
  apply state_ok_new_map; [done|]. apply NoDup_singleton.
Qed.

(** *** [resolver] *)

Lemma check_inheriting_None keys m :
  check_inheriting keys m = None ↔ ∀ k, k ∈ keys → k ∈ JSMap.keys m.
Proof.
  induction keys as [|key keys IH]; simpl.
  - split; [|done]. intros _ k Hk. by apply elem_of_nil in Hk.
  - destruct (JSMap.has key m) eqn:Hhas; simpl.
    + apply has_keys in Hhas. rewrite IH. split.
      * intros Hall k [->|Hk]%elem_of_cons; auto.
      * intros Hall k Hk. apply Hall. by apply list_elem_of_further.
    + split; [done|]. intros Hall.
      assert (JSMap.has key m = true) as Heq; [|congruence].
      apply has_keys, Hall, list_elem_of_here.
Qed.

Lemma check_inheriting_Some keys m e :
  check_inheriting keys m = Some e →
  e = InheritingMissing ∧ ∃ k, k ∈ keys ∧ k ∉ JSMap.keys m.
Proof.
  induction keys as [|key keys IH]; simpl; [done|].
  destruct (JSMap.has key m) eqn:Hhas; simpl.
  - intros [-> (k & Hk & Hnin)]%IH. split; [done|]. exists k.
    split; [by apply list_elem_of_further | done].
  - intros [= <-]. split; [done|]. exists key.
    split; [apply list_elem_of_here|].
    intros Hin%has_keys. congruence.
Qed.

Lemma InternalCheckInheriting_eq p inheriting σ pthis mp m :
  resolvers σ !! p = Some pthis →
  maps σ !! registrations pthis = Some mp →
  maps σ !! inheriting = Some m →
  InternalCheckInheriting p inheriting σ
  = match check_inheriting (JSMap.keys mp) m with
    | Some e => Throw e σ
    | None => Ret tt σ
    end.
Proof.
  intros Hp Hmp Hm. unfold InternalCheckInheriting.
  by rewrite Hp, Hmp, Hm.
Qed.

(** The three ways [resolver(parent?)] can end, in the order of the code:
    the inheritance check, then the cycle check, then the new resolver. *)
Lemma resolver_mismatch c p σ pthis mp m :
  resolvers σ !! p = Some pthis →
  maps σ !! registrations pthis = Some mp →
  maps σ !! ContainerMapKey c = Some m →
  (∃ k, k ∈ JSMap.keys mp ∧ k ∉ JSMap.keys m) →
  resolver c (Some p) σ = Throw InheritingMissing σ.
Proof.
  intros Hp Hmp Hm (k & Hk & Hnin). unfold resolver.
  rewrite (InternalCheckInheriting_eq _ _ _ _ _ _ Hp Hmp Hm).
  destruct (check_inheriting (JSMap.keys mp) m) as [e|] eqn:Hchk.
  - by apply check_inheriting_Some in Hchk as [-> _].
  - exfalso. apply Hnin. by eapply check_inheriting_None.
Qed.

Lemma resolver_inherits c par σ m :
  maps σ !! ContainerMapKey c = Some m → inherits σ par m →
  resolver c par σ
  = bind (checkForCycles (ContainerMapKey c) σ) (λ _ σ2,
      Ret (length (resolvers σ2))
        (mkState (maps σ2)
           (resolvers σ2 ++ [mkResolver (ContainerMapKey c) par []])
           (world σ2))).
Proof.
  intros Hm Hinh. unfold resolver. destruct par as [p|]; [|done].
  destruct (Hinh p eq_refl) as (pthis & mp & Hp & Hmp & Hsub).
  rewrite (InternalCheckInheriting_eq _ _ _ _ _ _ Hp Hmp Hm).
  apply check_inheriting_None in Hsub. by rewrite Hsub.
Qed.

Lemma resolver_cyclic c par σ m :
  maps σ !! ContainerMapKey c = Some m → NoDup (JSMap.keys m) →
  inherits σ par m → cyclic m →
  resolver c par σ = Throw CircularDependency σ.
Proof.
  intros Hm Hnd Hinh Hcyc. rewrite (resolver_inherits _ _ _ _ Hm Hinh).
  destruct (checkForCycles_spec _ _ _ Hm Hnd) as [-> _]; done.
Qed.

Lemma resolver_success c par σ m :
  maps σ !! ContainerMapKey c = Some m → NoDup (JSMap.keys m) →
  inherits σ par m → ¬ cyclic m →
  resolver c par σ
  = Ret (length (resolvers σ))
      (mkState (maps σ)
         (resolvers σ ++ [mkResolver (ContainerMapKey c) par []])
         (world σ)).
Proof.
  intros Hm Hnd Hinh Hcyc. rewrite (resolver_inherits _ _ _ _ Hm Hinh).
  destruct (checkForCycles_spec _ _ _ Hm Hnd) as [_ ->]; done.
Qed.

(** Conversely, the outcome of [resolver] tells which case applied. *)
Lemma resolver_cases c par σ m :
  maps σ !! ContainerMapKey c = Some m → NoDup (JSMap.keys m) →
  (∀ p, par = Some p → ∃ pthis mp, resolvers σ !! p = Some pthis ∧
                          maps σ !! registrations pthis = Some mp) →
  (¬ inherits σ par m ∧ resolver c par σ = Throw InheritingMissing σ) ∨
  (inherits σ par m ∧ cyclic m ∧
     resolver c par σ = Throw CircularDependency σ) ∨
  (inherits σ par m ∧ ¬ cyclic m ∧
     resolver c par σ
     = Ret (length (resolvers σ))
         (mkState (maps σ)
            (resolvers σ ++ [mkResolver (ContainerMapKey c) par []])
            (world σ))).
Proof.
  intros Hm Hnd Hpar.
  assert (Hinh : inherits σ par m ∨
            ∃ p pthis mp, par = Some p ∧ resolvers σ !! p = Some pthis ∧
              maps σ !! registrations pthis = Some mp ∧
              ∃ k, k ∈ JSMap.keys mp ∧ k ∉ JSMap.keys m).
  { destruct par as [p|]; [|by left; intros p [=]].
    destruct (Hpar p eq_refl) as (pthis & mp & Hp & Hmp).
    destruct (check_inheriting (JSMap.keys mp) m) as [e|] eqn:Hchk.
    - right. apply check_inheriting_Some in Hchk as [_ Hk]. eauto 10.
    - left. intros p' [= <-]. exists pthis, mp. split_and!; [done..|].
      by apply check_inheriting_None. }
  destruct Hinh as [Hinh|(p & pthis & mp & -> & Hp & Hmp & Hk)].
  - right. destruct (isCyclic_total (graphFromServiceMap m)) as [[] Hb].
    + left. apply isCyclic_spec, has_cycle_cyclic in Hb; [|done].
      split_and!; [done..|]. by eapply resolver_cyclic.
    + right. apply isCyclic_spec_false in Hb.
      rewrite has_cycle_cyclic in Hb by done.
      split_and!; [done..|]. by eapply resolver_success.
  - left. split; [|by eapply resolver_mismatch].
    intros Hinh. destruct (Hinh p eq_refl) as (pthis' & mp' & ? & ? & Hsub).
    destruct Hk as (k & Hk & Hnin). apply Hnin, Hsub.
    by simplify_eq.
Qed.

Lemma resolver_ok_new c par σ m :
  state_ok σ → maps σ !! ContainerMapKey c = Some m →
  inherits σ par m → ¬ cyclic m →
  state_ok (mkState (maps σ)
              (resolvers σ ++ [mkResolver (ContainerMapKey c) par []])
              (world σ)).
Proof.
  intros [Hmaps Hres] Hm Hinh Hac. split; simpl; [done|].
  intros i this [Hi|[Hlen Hi]]%lookup_app_Some.
  - destruct (Hres i this Hi) as (mi & Hmi & Haci & Hp).
    exists mi. split_and!; [done..|].
    intros p Hpp. destruct (Hp p Hpp) as (Hlt & pthis & mp & ? & ? & ?).
    split; [done|]. exists pthis, mp.
    split_and!; [by apply lookup_app_l_Some|done..].
  - apply list_elem_of_lookup_2, list_elem_of_singleton in Hi. subst this.
    exists m. split_and!; [done..|].
    simpl. intros p ->.
    destruct (Hinh p eq_refl) as (pthis & mp & Hp & Hmp & Hk).
    split; [apply lookup_lt_Some in Hp; lia|].
    exists pthis, mp. split_and!; [by apply lookup_app_l_Some|done..].
Qed.

Lemma resolver_state_ok c par σ r σ' :
  state_ok σ →
  (∀ p, par = Some p → p < length (resolvers σ)) →
  resolver c par σ = Ret r σ' →
  state_ok σ' ∧ r = length (resolvers σ) ∧
  σ' = mkState (maps σ)
         (resolvers σ ++ [mkResolver (ContainerMapKey c) par []]) (world σ).
Proof.
  intros Hok Hpar.
  destruct (maps σ !! ContainerMapKey c) as [m|] eqn:Hm.
  2:{ unfold resolver, InternalCheckInheriting, checkForCycles.
      destruct par as [p|]; simpl; rewrite ?Hm; [|done].
      destruct (resolvers σ !! p) as [pthis|]; [|done].
      by destruct (maps σ !! registrations pthis). }
  destruct (resolver_cases c par σ m Hm)
    as [[_ ->]|[(_ & _ & ->)|(? & ? & ->)]];
    [by eapply ok_maps| |done|done|].
  - intros p Hp. destruct (lookup_lt_is_Some_2 _ _ (Hpar p Hp)) as [pthis Hi].
    destruct (ok_resolvers _ Hok _ _ Hi) as (mp & ? & _). eauto.
  - intros [= <- <-]. split_and!; [|done..]. by eapply resolver_ok_new.
Qed.

End Builder.

(** * The container against its specification *)

Section Specification.
Context {W : Type}.
Implicit Types (σ : State W) (d : ServiceDefinition W).
Implicit Types (this : InternalResolver) (m : Registrations W).
Implicit Types (c : Container).

Lemma resolver_Ret_inv c par σ r σ' :
  resolver c par σ = Ret r σ' →
  r = length (resolvers σ) ∧
  σ' = mkState (maps σ)
         (resolvers σ ++ [mkResolver (ContainerMapKey c) par []]) (world σ).
Proof.
  unfold resolver.
  assert (Hchk : ∀ σ0 r0 σ0',
    bind (checkForCycles (ContainerMapKey c) σ0) (λ _ σ2,
      let '(r, σ3) := new_InternalResolver (ContainerMapKey c) par σ2 in
      Ret r σ3) = Ret r0 σ0' →
    r0 = length (resolvers σ0) ∧
    σ0' = mkState (maps σ0)
            (resolvers σ0 ++ [mkResolver (ContainerMapKey c) par []])
            (world σ0)).
  { intros σ0 r0 σ0'. unfold checkForCycles.
    destruct (maps σ0 !! ContainerMapKey c) as [m0|]; [|done].
    destruct (isCyclic _) as [[]|]; simpl; [done| |done].
    by intros [= <- <-]. }
  destruct par as [p|]; simpl; [|by apply Hchk].
  unfold InternalCheckInheriting.
  destruct (resolvers σ !! p) as [pthis|]; [|done].
  destruct (maps σ !! registrations pthis) as [mp|]; [|done].
  destruct (maps σ !! ContainerMapKey c) as [m|]; [|done].
  destruct (check_inheriting _ _); simpl; [done|]. apply Hchk.
Qed.

Lemma InternalResolve_absent n r t σ :
  absent_at σ r t → InternalResolve (S n) r t σ = Ret VUndefined σ.
Proof.
  intros (this & m & Hr & Hm & Hget).
  rewrite InternalResolve_unfold. unfold step. by rewrite Hr, Hm, Hget.
Qed.

Lemma resolve_absent n r t σ :
  absent_at σ r t → resolve (S n) r t σ = Throw MissingRegistration σ.
Proof.
  intros Habs. unfold resolve, resolve_via.
  by rewrite InternalResolve_absent.
Qed.

(** C1 (as amended).  [provide] performs no run-time check for a token
    that is already registered: the call returns normally with a new
    registry that has the same tokens in the same order, the token's
    definition replaced by the new one, every other registration kept, and
    the original registry left as it was. *)
Theorem provide_duplicate_replaces c t d σ m :
  maps σ !! ContainerMapKey c = Some m →
  t ∈ JSMap.keys m →
  ∃ c' σ',
    provide c t d σ = Ret c' σ' ∧
    maps σ' !! ContainerMapKey c' = Some (JSMap.set t d m) ∧
    JSMap.keys (JSMap.set t d m) = JSMap.keys m ∧
    JSMap.get t (JSMap.set t d m) = Some d ∧
    (∀ k, k ≠ t → JSMap.get k (JSMap.set t d m) = JSMap.get k m) ∧
    maps σ' !! ContainerMapKey c = Some m.
Proof.
  intros Hm Hin. eexists _, _. split; [by apply provide_eq|]. simpl.
  split_and!.
  - by rewrite lookup_app_r, Nat.sub_diag.
  - by apply keys_set_present.
  - apply get_set_eq.
  - intros k Hk. by apply get_set_ne.
  - by apply lookup_app_l_Some.
Qed.

(** C10.  [provide] returns a new registry, held in a freshly allocated
    [Map], that maps [t] to [d] and every other token to what [R] maps it
    to (when [t] is new, the entries of [R] followed by [(t, d)]); every
    [Map] that existed before, the one of [R] included, is unchanged,
    and so are the resolvers and the world.  A resolver built from [R]
    afterwards does not know [t]. *)
Theorem provide_persistent c t d σ m :
  maps σ !! ContainerMapKey c = Some m →
  ∃ c' σ',
    provide c t d σ = Ret c' σ' ∧
    ContainerMapKey c' = length (maps σ) ∧
    maps σ' !! ContainerMapKey c' = Some (JSMap.set t d m) ∧
    JSMap.get t (JSMap.set t d m) = Some d ∧
    (∀ k, k ≠ t → JSMap.get k (JSMap.set t d m) = JSMap.get k m) ∧
    (t ∉ JSMap.keys m → JSMap.set t d m = m ++ [(t, d)]) ∧
    (∀ a, a < length (maps σ) → maps σ' !! a = maps σ !! a) ∧
    maps σ' !! ContainerMapKey c = Some m ∧
    resolvers σ' = resolvers σ ∧ world σ' = world σ ∧
    (t ∉ JSMap.keys m → ∀ par r σ'' n,
       resolver c par σ' = Ret r σ'' →
       InternalResolve (S n) r t σ'' = Ret VUndefined σ'' ∧
       resolve (S n) r t σ'' = Throw MissingRegistration σ'').
Proof.
  intros Hm. eexists _, _. split; [by apply provide_eq|].
  cbn [maps resolvers world ContainerMapKey].
  split_and!; try done.
  - by rewrite lookup_app_r, Nat.sub_diag.
  - apply get_set_eq.
  - intros k Hk. by apply get_set_ne.
  - apply set_fresh.
  - intros a Ha. by apply lookup_app_l.
  - by apply lookup_app_l_Some.
  - intros Hnin par r σ'' n [-> ->]%resolver_Ret_inv.
    cbn [maps resolvers world].
    assert (absent_at
              (mkState (maps σ ++ [JSMap.set t d m])
                 (resolvers σ ++ [mkResolver (ContainerMapKey c) par []])
                 (world σ))
              (length (resolvers σ)) t) as Habs.
    { eexists _, m. simpl. split_and!.
      - by rewrite lookup_app_r, Nat.sub_diag.
      - by apply lookup_app_l_Some.
      - by apply get_None_keys. }
    split; [by apply InternalResolve_absent | by apply resolve_absent].
Qed.

(** C5.  Finalizing [R] with parent [P] throws the inheritance error
    exactly when some token registered with [P] is not registered in [R];
    the error comes before the cycle check (it is thrown whether or not
    [R] is cyclic), no resolver is created and the store is unchanged.
    When a resolver is returned, every token of [P] is a token of [R]. *)
Theorem resolver_inheritance_check c p σ pthis mp m :
  resolvers σ !! p = Some pthis →
  maps σ !! registrations pthis = Some mp →
  maps σ !! ContainerMapKey c = Some m →
  (resolver c (Some p) σ = Throw InheritingMissing σ
   ↔ ∃ k, k ∈ JSMap.keys mp ∧ k ∉ JSMap.keys m) ∧
  (∀ e σ', resolver c (Some p) σ = Throw e σ' →
           e = InheritingMissing ∨ inherits σ (Some p) m) ∧
  (∀ r σ', resolver c (Some p) σ = Ret r σ' →
           ∀ k, k ∈ JSMap.keys mp → k ∈ JSMap.keys m).
Proof.
  intros Hp Hmp Hm.
  assert (Hcases : (∃ k, k ∈ JSMap.keys mp ∧ k ∉ JSMap.keys m) ∨
                   inherits σ (Some p) m).
  { destruct (check_inheriting (JSMap.keys mp) m) as [e|] eqn:Hchk.
    - left. by apply check_inheriting_Some in Hchk as [_ ?].
    - right. intros p' [= <-]. exists pthis, mp. split_and!; [done..|].
      by apply check_inheriting_None. }
  assert (Hno : inherits σ (Some p) m →
                ¬ ∃ k, k ∈ JSMap.keys mp ∧ k ∉ JSMap.keys m).
  { intros Hinh (k & Hk & Hnin).
    destruct (Hinh p eq_refl) as (pthis' & mp' & ? & ? & Hsub).
    apply Hnin, Hsub. by simplify_eq. }
  assert (Hcyc : inherits σ (Some p) m →
                 resolver c (Some p) σ ≠ Throw InheritingMissing σ).
  { intros Hinh. rewrite (resolver_inherits _ _ _ _ Hm Hinh).
    unfold checkForCycles. rewrite Hm.
    by destruct (isCyclic _) as [[]|]. }
  split_and!.
  - split.
    + intros Hthrow. destruct Hcases as [?|Hinh]; [done|].
      by apply Hcyc in Hinh.
    + by eapply resolver_mismatch.
  - intros e σ' Hthrow. destruct Hcases as [Hk|Hinh]; [|by right].
    left. rewrite (resolver_mismatch _ _ _ _ _ _ Hp Hmp Hm Hk) in Hthrow.
    by simplify_eq.
  - intros r σ' Hret. destruct Hcases as [Hk|Hinh].
    + by rewrite (resolver_mismatch _ _ _ _ _ _ Hp Hmp Hm Hk) in Hret.
    + intros k Hk. destruct (Hinh p eq_refl) as (pthis' & mp' & ? & ? & Hsub).
      apply Hsub. by simplify_eq.
Qed.

(** *** What [resolve] can throw *)

Lemma bind_throws_only {A B : Type} (P : Exn → Prop) (o : Outcome W A)
    (k : A → State W → Outcome W B) :
  throws_only P o → (∀ a σ, throws_only P (k a σ)) →
  throws_only P (bind o k).
Proof. destruct o; simpl; auto. Qed.

Lemma resolve_via_throws IR r t σ :
  (∀ r t σ, throws_only missing_or_thrown (IR r t σ)) →
  throws_only missing_or_thrown (resolve_via IR r t σ).
Proof.
  intros HIR. unfold resolve_via. specialize (HIR r t σ).
  destruct (IR r t σ) as [v σ'| | |]; try done.
  destruct (truthy v); simpl; [done|by left].
Qed.

Lemma map_resolve_throws (f : Token → State W → Outcome W Value) ts σ :
  (∀ t σ, throws_only missing_or_thrown (f t σ)) →
  throws_only missing_or_thrown (map_resolve f ts σ).
Proof.
  intros Hf. revert σ. induction ts as [|t ts IH]; intros σ; simpl; [done|].
  apply bind_throws_only; [done|]. intros v σ1.
  apply bind_throws_only; [done|]. done.
Qed.

Lemma construct_throws IR r d σ :
  (∀ r t σ, throws_only missing_or_thrown (IR r t σ)) →
  throws_only missing_or_thrown (construct IR r d σ).
Proof.
  intros HIR. unfold construct. apply bind_throws_only.
  - apply map_resolve_throws. intros t σ0. by apply resolve_via_throws.
  - intros args σ1. unfold call_instance.
    destruct (instance d args (world σ1)) as [[v|e] w]; simpl; [done|].
    right. by exists e.
Qed.

Lemma cached_or_construct_throws IR r t d σ :
  (∀ r t σ, throws_only missing_or_thrown (IR r t σ)) →
  throws_only missing_or_thrown (cached_or_construct IR r t d σ).
Proof.
  intros HIR. unfold cached_or_construct, construct_and_cache.
  destruct (truthy _); [done|].
  apply bind_throws_only; [by apply construct_throws | done].
Qed.

Lemma probe_parent_throws IR par t (k : State W → Outcome W Value) σ :
  (∀ r t σ, throws_only missing_or_thrown (IR r t σ)) →
  (∀ σ0, throws_only missing_or_thrown (k σ0)) →
  throws_only missing_or_thrown (probe_parent IR par t k σ).
Proof.
  intros HIR Hk. unfold probe_parent. destruct par as [p|]; [|done].
  specialize (HIR p t σ). destruct (IR p t σ) as [v σ'| | |]; try done.
  by destruct (truthy v).
Qed.

Lemma InternalResolve_throws n r t σ :
  throws_only missing_or_thrown (InternalResolve n r t σ).
Proof.
  revert r t σ. induction n as [|n IH]; intros r t σ; [done|].
  rewrite InternalResolve_unfold. unfold step.
  destruct (resolvers σ !! r) as [this|]; [|done].
  destruct (maps σ !! registrations this) as [m|]; [|done].
  destruct (JSMap.get t m) as [d|]; [|done].
  destruct (lifetime d).
  - apply probe_parent_throws; [done|].
    intros σ0. by apply cached_or_construct_throws.
  - apply probe_parent_throws; [done|].
    intros σ0. by apply construct_throws.
  - by apply cached_or_construct_throws.
Qed.

Lemma resolve_throws n r t σ e σ' :
  resolve n r t σ = Throw e σ' → missing_or_thrown e.
Proof.
  intros Hthrow.
  pose proof (resolve_via_throws (InternalResolve n) r t σ
                (InternalResolve_throws n)) as Hall.
  unfold resolve in Hthrow. by rewrite Hthrow in Hall.
Qed.

(** C2.  [resolver()] throws [CyclicDependencyError] exactly when the
    registry has a dependency cycle (with a parent: when, in addition, the
    inheritance check passed), and returns a new resolver when it has
    none.  [resolve] never throws it: it ends with the
    missing-registration error or with what a factory threw, and on the
    stores [resolver()] produces it always ends.  A token that is only a
    dependency has no outgoing edge and lies on no cycle. *)
Theorem cycle_detection_correct c σ m :
  maps σ !! ContainerMapKey c = Some m →
  NoDup (JSMap.keys m) →
  (resolver c None σ = Throw CircularDependency σ ↔ cyclic m) ∧
  (¬ cyclic m →
     resolver c None σ
     = Ret (length (resolvers σ))
         (mkState (maps σ)
            (resolvers σ ++ [mkResolver (ContainerMapKey c) None []])
            (world σ))) ∧
  (∀ par, inherits σ par m →
     (resolver c par σ = Throw CircularDependency σ ↔ cyclic m)) ∧
  (∀ n r t (σ0 : State W) e σ',
     resolve n r t σ0 = Throw e σ' →
     missing_or_thrown e ∧ ∀ message, e ≠ CyclicDependencyError message) ∧
  (∀ (σ0 : State W) r t,
     state_ok σ0 → r < length (resolvers σ0) →
     ∃ N, ∀ n, N ≤ n → returns (resolve n r t σ0)) ∧
  (∀ t, JSMap.get t m = None →
     (∀ u, ¬ depends m t u) ∧ ¬ tc (depends m) t t).
Proof.
  intros Hm Hnd.
  assert (Hgen : ∀ par, inherits σ par m →
            (resolver c par σ = Throw CircularDependency σ ↔ cyclic m)).
  { intros par Hinh. split; [|by eapply resolver_cyclic].
    intros Hthrow.
    destruct (isCyclic_total (graphFromServiceMap m)) as [[] Hb].
    - by apply isCyclic_spec, has_cycle_cyclic in Hb.
    - apply isCyclic_spec_false in Hb.
      rewrite has_cycle_cyclic in Hb by done.
      by rewrite (resolver_success _ _ _ _ Hm Hnd Hinh Hb) in Hthrow. }
  split_and!.
  - apply Hgen. by intros p [=].
  - intros Hac. apply (resolver_success c None σ m); [done..| |done].
    by intros p [=].
  - done.
  - intros n r t σ0 e σ' Hthrow%resolve_throws. split; [done|].
    intros message. by destruct Hthrow as [->|[v ->]].
  - intros σ0 r t. apply resolve_terminates.
  - intros t Hnone. split.
    + intros u. by apply unregistered_no_edge.
    + by apply unregistered_no_cycle.
Qed.

(** C3 (as amended).  When the token has no definition in the resolver's
    own registry, the internal variant returns [undefined] without
    throwing and without consulting the parent, and [resolve] throws the
    missing-registration error; on the stores [resolver()] produces, such
    a token has no definition in any ancestor either. *)
Theorem resolve_unregistered σ r t n :
  absent_at σ r t →
  InternalResolve (S n) r t σ = Ret VUndefined σ ∧
  resolve (S n) r t σ = Throw MissingRegistration σ ∧
  (state_ok σ → ∀ q, in_chain σ r q → absent_at σ q t).
Proof.
  intros Habs. split_and!.
  - by apply InternalResolve_absent.
  - by apply resolve_absent.
  - intros Hok q Hq. by eapply absent_in_chain.
Qed.
End Specification.

(** ** Lifetimes *)

Section Lifetimes.
Context {W : Type}.
Abbreviation IRfun := (nat → Token → State W → Outcome W Value).
Implicit Types (σ : State W) (d : ServiceDefinition W).
Implicit Types (this : InternalResolver) (m : Registrations W).
Implicit Types (IR : IRfun).

(** *** The branches of [InternalResolve] *)

Lemma InternalResolve_scoped n σ r t this m d :
  resolvers σ !! r = Some this → maps σ !! registrations this = Some m →
  JSMap.get t m = Some d → lifetime d = scoped →
  InternalResolve (S n) r t σ
  = cached_or_construct (InternalResolve n) r t d σ.
Proof.
  intros Hr Hm Hget Hlt. rewrite InternalResolve_unfold. unfold step.
  by rewrite Hr, Hm, Hget, Hlt.
Qed.

Lemma InternalResolve_singleton n σ r t this m d :
  resolvers σ !! r = Some this → maps σ !! registrations this = Some m →
  JSMap.get t m = Some d → lifetime d = singleton →
  InternalResolve (S n) r t σ
  = probe_parent (InternalResolve n) (parent this) t
      (cached_or_construct (InternalResolve n) r t d) σ.
Proof.
  intros Hr Hm Hget Hlt. rewrite InternalResolve_unfold. unfold step.
  by rewrite Hr, Hm, Hget, Hlt.
Qed.

Lemma InternalResolve_transient n σ r t this m d :
  resolvers σ !! r = Some this → maps σ !! registrations this = Some m →
  JSMap.get t m = Some d → lifetime d = transient →
  InternalResolve (S n) r t σ
  = probe_parent (InternalResolve n) (parent this) t
      (construct (InternalResolve n) r d) σ.
Proof.
  intros Hr Hm Hget Hlt. rewrite InternalResolve_unfold. unfold step.
  by rewrite Hr, Hm, Hget, Hlt.
Qed.

Lemma probe_parent_supplies IR p t (k : State W → Outcome W Value) σ v σ' :
  IR p t σ = Ret v σ' → truthy v = true →
  probe_parent IR (Some p) t k σ = Ret v σ'.
Proof. intros Hp Hv. unfold probe_parent. by rewrite Hp, Hv. Qed.

Lemma probe_parent_declines n par t (k : State W → Outcome W Value) σ σ0 :
  parent_declines n σ par t σ0 →
  probe_parent (InternalResolve n) par t k σ = k σ0.
Proof.
  unfold parent_declines, probe_parent. destruct par as [p|].
  - intros (u & -> & ->). done.
  - by intros ->.
Qed.

Lemma construct_eq n r d σ0 args σ1 v w :
  map_resolve (resolve n r) (requires d) σ0 = Ret args σ1 →
  instance d args (world σ1) = (Returned v, w) →
  construct (InternalResolve n) r d σ0
  = Ret v (mkState (maps σ1) (resolvers σ1) w).
Proof.
  intros Hargs Hinst. unfold construct.
  change (resolve_via (InternalResolve n) r) with (resolve (W := W) n r).
  rewrite Hargs. simpl.
  unfold call_instance. by rewrite Hinst.
Qed.

Lemma cached_or_construct_hit IR r t d σ :
  truthy (cache_get r t σ) = true →
  cached_or_construct IR r t d σ = Ret (cache_get r t σ) σ.
Proof. intros Hc. unfold cached_or_construct. by rewrite Hc. Qed.

Lemma cached_or_construct_miss IR r t d σ v σ' :
  truthy (cache_get r t σ) = false →
  construct IR r d σ = Ret v σ' →
  cached_or_construct IR r t d σ = Ret v (cache_set r t v σ').
Proof.
  intros Hc Hcon. unfold cached_or_construct, construct_and_cache.
  by rewrite Hc, Hcon.
Qed.

Lemma cache_get_set r t v σ :
  r < length (resolvers σ) → cache_get r t (cache_set r t v σ) = v.
Proof.
  intros Hr. destruct (lookup_lt_is_Some_2 _ _ Hr) as [this Hthis].
  unfold cache_get, cache_set. simpl.
  rewrite list_lookup_alter_eq, Hthis. simpl. by rewrite get_set_eq.
Qed.

(** The stores met while probing the parent and resolving the
    dependencies have the resolvers of the initial store. *)
Lemma parent_declines_footprint n σ r this t σ0 :
  resolvers σ !! r = Some this →
  parent_declines n σ (parent this) t σ0 → footprint r σ σ0.
Proof.
  intros Hr. unfold parent_declines.
  destruct (parent this) as [p|] eqn:Hp.
  - intros (u & Hu & _). eapply footprint_parent; [done..|].
    apply (InternalResolve_footprint n p t). by rewrite Hu.
  - intros ->. apply footprint_refl.
Qed.

Lemma dependencies_footprint n r ts σ0 args σ1 :
  map_resolve (resolve n r) ts σ0 = Ret args σ1 → footprint r σ0 σ1.
Proof.
  intros Hargs.
  apply (map_resolve_footprint (InternalResolve n) r ts).
  - apply InternalResolve_footprint.
  - change (resolve_via (InternalResolve n) r) with (resolve (W := W) n r).
    by rewrite Hargs.
Qed.

Lemma footprint_valid q σ σ' r this :
  footprint q σ σ' → resolvers σ !! r = Some this →
  r < length (resolvers σ').
Proof.
  intros Hfp Hr. rewrite (fp_length _ _ _ Hfp). by eapply lookup_lt_Some.
Qed.

(** With more fuel a finished resolution gives the same result. *)
Lemma enough_fuel n k r t σ v σ' :
  InternalResolve (S n) r t σ = Ret v σ' → n < k →
  InternalResolve k r t σ = Ret v σ'.
Proof.
  intros Hres Hk. rewrite <- Hres.
  apply (InternalResolve_fuel (S n) k); [lia|]. by rewrite Hres.
Qed.

Lemma enough_fuel_resolve n k r t σ o :
  resolve n r t σ = o → returns o → n ≤ k → resolve k r t σ = o.
Proof.
  intros <- Hret Hk. by apply resolve_fuel.
Qed.




(** *** Reading a result backwards *)



Lemma construct_inv n r d σ0 v σ' :
  construct (InternalResolve n) r d σ0 = Ret v σ' →
  ∃ args σ1,
    map_resolve (resolve n r) (requires d) σ0 = Ret args σ1 ∧
    instance d args (world σ1) = (Returned v, world σ') ∧
    maps σ' = maps σ1 ∧ resolvers σ' = resolvers σ1.
Proof.
  unfold construct.
  change (resolve_via (InternalResolve n) r) with (resolve (W := W) n r).
  destruct (map_resolve _ _ σ0) as [args σ1| | |]; try done.
  simpl. unfold call_instance.
  destruct (instance d args (world σ1)) as [[v'|e] w] eqn:Hinst; [|done].
  intros [= <- <-]. by exists args, σ1.
Qed.

Lemma cached_or_construct_inv IR r t d σ v σ' :
  cached_or_construct IR r t d σ = Ret v σ' →
  (truthy v = true ∧ v = cache_get r t σ ∧ σ' = σ) ∨
  (truthy (cache_get r t σ) = false ∧
   ∃ σc, construct IR r d σ = Ret v σc ∧ σ' = cache_set r t v σc).
Proof.
  unfold cached_or_construct, construct_and_cache.
  destruct (truthy (cache_get r t σ)) eqn:Hc.
  - intros [= <- <-]. by left.
  - destruct (construct IR r d σ) as [v' σc| | |]; try done.
    simpl. intros [= <- <-]. right. eauto.
Qed.

Lemma probe_parent_inv n par t (k : State W → Outcome W Value) σ v σ' :
  probe_parent (InternalResolve n) par t k σ = Ret v σ' →
  (∃ p, par = Some p ∧ InternalResolve n p t σ = Ret v σ' ∧
        truthy v = true) ∨
  (∃ σ0, parent_declines n σ par t σ0 ∧ k σ0 = Ret v σ').
Proof.
  unfold probe_parent, parent_declines. destruct par as [p|].
  - destruct (InternalResolve n p t σ) as [u σ0| | |] eqn:HIR; try done.
    destruct (truthy u) eqn:Hu.
    + intros [= <- <-]. left. eauto.
    + intros Hk. right. eauto 10.
  - intros Hk. right. eauto.
Qed.


(** *** Asking twice *)

Lemma absent_at_footprint q σ σ' r t :
  footprint q σ σ' → absent_at σ r t → absent_at σ' r t.
Proof.
  intros Hfp (this & m & Hr & Hm & Hget).
  destruct (fp_shape _ _ _ Hfp _ _ Hr) as (this' & Hr' & Hreg & _).
  exists this', m. by rewrite Hreg, (fp_maps _ _ _ Hfp).
Qed.

Lemma def_at_footprint_inv q σ σ' r t d :
  footprint q σ σ' → def_at σ' r t d → def_at σ r t d.
Proof.
  intros Hfp (this' & m & Hr' & Hm & Hget).
  destruct (fp_shape_inv _ _ _ _ _ Hfp Hr') as (this & Hr & Hreg & _).
  exists this, m. by rewrite <- Hreg, <- (fp_maps _ _ _ Hfp).
Qed.

Lemma keeps_instances_footprint q σ σ' r t :
  footprint q σ σ' → keeps_instances σ r t → keeps_instances σ' r t.
Proof.
  intros Hfp Hk q' d Hin Hdef. apply (Hk q' d).
  - by apply (in_chain_footprint q σ σ').
  - by eapply def_at_footprint_inv.
Qed.

Lemma keeps_instances_parent σ r this p t :
  resolvers σ !! r = Some this → parent this = Some p →
  keeps_instances σ r t → keeps_instances σ p t.
Proof.
  intros Hr Hp Hk q d Hin Hdef. apply (Hk q d); [|done].
  by eapply in_chain_parent.
Qed.

(** Where instances are kept, a falsy answer means an unknown token. *)
Lemma falsy_absent n σ p t u σ' :
  keeps_instances σ p t →
  InternalResolve n p t σ = Ret u σ' → truthy u = false →
  absent_at σ p t ∧ σ' = σ.
Proof.
  intros Hk. destruct n as [|n]; [done|].
  rewrite InternalResolve_unfold. unfold step.
  destruct (resolvers σ !! p) as [this|] eqn:Hr; [|done].
  destruct (maps σ !! registrations this) as [m|] eqn:Hm; [|done].
  destruct (JSMap.get t m) as [d|] eqn:Hget.
  2:{ intros [= <- <-] _. split; [|done]. by exists this, m. }
  destruct (Hk p d) as [Hlt Htruthy]; [constructor|by exists this, m|].
  assert (Hcon : ∀ σ0 σc,
    construct (InternalResolve n) p d σ0 = Ret u σc → truthy u = true).
  { intros σ0 σc (args & σ1 & _ & Hinst & _)%construct_inv. eauto. }
  assert (Hcoc : ∀ σ0 σc,
    cached_or_construct (InternalResolve n) p t d σ0 = Ret u σc →
    truthy u = true).
  { intros σ0 σc [(? & _)|(_ & σc' & ? & _)]%cached_or_construct_inv;
      eauto. }
  intros Hres Hu. exfalso. destruct (lifetime d); [| done |].
  - apply probe_parent_inv in Hres as [(? & _ & _ & ?)|(σ0 & _ & ?)];
      [congruence|]. apply Hcoc in H. congruence.
  - apply Hcoc in Hres. congruence.
Qed.

Lemma cached_or_construct_repeat n r t d σ v σ1 :
  r < length (resolvers σ) →
  cached_or_construct (InternalResolve n) r t d σ = Ret v σ1 →
  truthy v = true →
  cached_or_construct (InternalResolve n) r t d σ1 = Ret v σ1.
Proof.
  intros Hr Hres Hv.
  apply cached_or_construct_inv in Hres
    as [(_ & -> & ->)|(_ & σc & Hc & ->)].
  - by apply cached_or_construct_hit.
  - assert (cache_get r t (cache_set r t v σc) = v) as Hget.
    { apply cache_get_set.
      assert (footprint r σ σc) as Hfp.
      { apply (construct_footprint (InternalResolve n) r d).
        - apply InternalResolve_footprint.
        - by rewrite Hc. }
      by rewrite (fp_length _ _ _ Hfp). }
    rewrite <- Hget at 2. apply cached_or_construct_hit. by rewrite Hget.
Qed.

Lemma InternalResolve_repeat n r t σ v σ1 :
  (∀ d, def_at σ r t d → lifetime d ≠ transient) →
  (∀ this p, resolvers σ !! r = Some this → parent this = Some p →
             keeps_instances σ p t) →
  InternalResolve n r t σ = Ret v σ1 → truthy v = true →
  InternalResolve n r t σ1 = Ret v σ1.
Proof.
  revert r σ v σ1.
  induction n as [|n IH]; intros r σ v σ1 Hown Hanc Hres Hv; [done|].
  assert (footprint r σ σ1) as Hfp.
  { apply (InternalResolve_footprint (S n) r t). by rewrite Hres. }
  rewrite InternalResolve_unfold in Hres. unfold step in Hres.
  destruct (resolvers σ !! r) as [this|] eqn:Hr; [|done].
  destruct (maps σ !! registrations this) as [m|] eqn:Hm; [|done].
  destruct (JSMap.get t m) as [d|] eqn:Hget.
  2:{ by simplify_eq. }
  assert (lifetime d ≠ transient) as Hlt by (apply Hown; by exists this, m).
  destruct (fp_shape _ _ _ Hfp _ _ Hr) as (this1 & Hr1 & Hreg1 & Hpar1 & _).
  assert (maps σ1 !! registrations this1 = Some m) as Hm1.
  { by rewrite Hreg1, (fp_maps _ _ _ Hfp). }
  assert (r < length (resolvers σ)) as Hlen by (by eapply lookup_lt_Some).
  destruct (lifetime d) eqn:Hlife; [| done |].
  - rewrite (InternalResolve_singleton _ _ _ _ _ _ _ Hr1 Hm1 Hget Hlife).
    rewrite Hpar1.
    apply probe_parent_inv in Hres as [(p & Hp & Hres & _)|(σ0 & Hdecl & Hres)].
    + rewrite Hp. apply probe_parent_supplies; [|done].
      pose proof (Hanc this p eq_refl Hp) as Hkp.
      apply (IH p σ); [| |done..].
      * intros d' Hd'. by apply (Hkp p d'); [constructor|].
      * intros pthis pp Hpthis Hpp. by eapply keeps_instances_parent.
    + assert (σ0 = σ ∧ parent_declines n σ1 (parent this) t σ1) as [-> Hd1].
      { unfold parent_declines in *. destruct (parent this) as [p|] eqn:Hp;
          [|done].
        destruct Hdecl as (u & Hu & Hfalsy).
        destruct (falsy_absent n σ p t u σ0) as [Habs ->]; [|done..|].
        { by apply (Hanc this). }
        split; [done|]. exists VUndefined. split; [|done].
        destruct n as [|n']; [done|].
        apply InternalResolve_absent. by eapply absent_at_footprint. }
      rewrite (probe_parent_declines _ _ _ _ _ _ Hd1).
      by apply (cached_or_construct_repeat n r t d σ).
  - rewrite (InternalResolve_scoped _ _ _ _ _ _ _ Hr1 Hm1 Hget Hlife).
    by apply (cached_or_construct_repeat n r t d σ).
Qed.

Lemma resolve_repeat n r t σ v σ1 :
  (∀ d, def_at σ r t d → lifetime d ≠ transient) →
  (∀ this p, resolvers σ !! r = Some this → parent this = Some p →
             keeps_instances σ p t) →
  resolve n r t σ = Ret v σ1 → resolve n r t σ1 = Ret v σ1.
Proof.
  intros Hown Hanc. unfold resolve, resolve_via.
  destruct (InternalResolve n r t σ) as [v' σ'| | |] eqn:Hres; try done.
  destruct (truthy v') eqn:Hv; [|done]. intros [= <- <-].
  by rewrite (InternalResolve_repeat _ _ _ _ _ _ Hown Hanc Hres Hv), Hv.
Qed.

(** C7 (as amended).  A singleton token: the parent is asked first, and a
    truthy instance from the parent is returned as it is, this resolver's
    own record (its cache included) staying untouched; when the parent
    does not supply one, a truthy cached instance is returned, and
    otherwise the dependencies are resolved, the factory invoked, the
    result stored in this resolver's cache and returned.  When every
    ancestor that registers the token gives it a caching lifetime and
    builds truthy instances, a [resolve] that returned an instance
    returns the same instance, without any change of the store, when
    repeated. *)
Theorem singleton_resolution n σ r t this m d :
  resolvers σ !! r = Some this →
  maps σ !! registrations this = Some m →
  JSMap.get t m = Some d →
  lifetime d = singleton →
  (∀ p v σ', parent this = Some p →
     InternalResolve n p t σ = Ret v σ' → truthy v = true →
     (∀ k, n < k → InternalResolve k r t σ = Ret v σ') ∧
     (state_ok σ → resolvers σ' !! r = Some this)) ∧
  (∀ σ0, parent_declines n σ (parent this) t σ0 →
     truthy (cache_get r t σ0) = true →
     ∀ k, n < k → InternalResolve k r t σ = Ret (cache_get r t σ0) σ0) ∧
  (∀ σ0 args σ1 v w,
     parent_declines n σ (parent this) t σ0 →
     truthy (cache_get r t σ0) = false →
     map_resolve (resolve n r) (requires d) σ0 = Ret args σ1 →
     instance d args (world σ1) = (Returned v, w) →
     let σ2 := cache_set r t v (mkState (maps σ1) (resolvers σ1) w) in
     (∀ k, n < k → InternalResolve k r t σ = Ret v σ2) ∧
     cache_get r t σ2 = v) ∧
  ((∀ p, parent this = Some p → keeps_instances σ p t) → ∀ k v σ1,
     resolve k r t σ = Ret v σ1 →
     ∀ k', k ≤ k' → resolve k' r t σ1 = Ret v σ1).
Proof.
  intros Hr Hm Hget Hlt.
  pose proof (InternalResolve_singleton n _ _ _ _ _ _ Hr Hm Hget Hlt) as Heq.
  split_and!.
  - intros p v σ' Hp Hres Hv. split.
    + intros k Hk. apply (enough_fuel n); [|done].
      rewrite Heq, Hp. by apply probe_parent_supplies.
    + intros Hok.
      assert (footprint p σ σ') as Hfp.
      { apply (InternalResolve_footprint n p t). by rewrite Hres. }
      rewrite (fp_frame _ _ _ Hfp); [done|].
      intros Hin. apply (in_chain_le σ p r Hok) in Hin.
      destruct (ok_resolvers _ Hok _ _ Hr) as (m' & _ & _ & Hpar).
      destruct (Hpar p Hp) as [Hlt' _]. lia.
  - intros σ0 Hdecl Hc k Hk. apply (enough_fuel n); [|done].
    rewrite Heq, (probe_parent_declines _ _ _ _ _ _ Hdecl).
    by apply cached_or_construct_hit.
  - intros σ0 args σ1 v w Hdecl Hc Hargs Hinst σ2. split.
    + intros k Hk. apply (enough_fuel n); [|done].
      rewrite Heq, (probe_parent_declines _ _ _ _ _ _ Hdecl).
      apply cached_or_construct_miss; [done|]. by eapply construct_eq.
    + apply cache_get_set. simpl.
      eapply (footprint_valid r σ σ1); [|done].
      eapply footprint_trans; [by eapply parent_declines_footprint|].
      by eapply dependencies_footprint.
  - intros Hanc k v σ1 Hres k' Hk'.
    apply (enough_fuel_resolve k); [|done..].
    apply (resolve_repeat k r t σ); [| |done].
    + intros d' (this' & m' & Hr' & Hm' & Hget'). simplify_eq.
      by rewrite Hlt.
    + intros this' p Hr' Hp. simplify_eq. by apply Hanc.
Qed.
End Lifetimes.

(** * The specification on concrete stores *)

Import Examples.

(** The stores of [Examples] are the ones the API produces. *)
Lemma partial_root_built :
  bind (createContainer_provide sessionService sessionDefinition
          (empty_state 0)) (λ base σ1,
  bind (resolver base None σ1) (λ root σ2,
  bind (provide base userRequest singletonService σ2) (λ complete σ3,
  resolver complete (Some root) σ3)))
  = Ret 1 partial_root.
Proof. vm_compute. reflexivity. Qed.

Lemma mixed_lifetimes_built :
  bind (createContainer_provide depC transientService (empty_state 0))
    (λ above σ1,
  bind (resolver above None σ1) (λ root σ2,
  bind (createContainer_provide depC singletonService σ2) (λ below σ3,
  resolver below (Some root) σ3)))
  = Ret 1 mixed_lifetimes.
Proof. vm_compute. reflexivity. Qed.

Lemma siblings_built :
  bind (createContainer_provide depA scopedService (empty_state 0)) (λ c1 σ1,
  bind (provide c1 depB singletonService σ1) (λ c2 σ2,
  bind (resolver c2 None σ2) (λ root σ3,
  bind (resolver c2 (Some root) σ3) (λ childA σ4,
  bind (resolver c2 (Some root) σ4) (λ childB σ5,
  Ret (root, childA, childB) σ5)))))
  = Ret (0, 1, 2) siblings.
Proof. vm_compute. reflexivity. Qed.

(** C1, counterexample.  The token is registered, and [provide] with the
    same token returns a registry instead of throwing. *)
Lemma provide_duplicate_accepted :
  createContainer_provide depA singletonService (empty_state 0)
  = Ret containerA one_registration ∧
  JSMap.has depA [(depA, singletonService)] = true ∧
  provide containerA depA scopedService one_registration
  = Ret (createInnerContainer [] [depA; depA] 1)
      (mkState [[(depA, singletonService)]; [(depA, scopedService)]] [] 0) ∧
  ¬ ∃ e σ', provide containerA depA scopedService one_registration
            = Throw e σ'.
Proof.
  split_and!; [reflexivity..|]. by intros (e & σ' & [=]).
Qed.

Lemma provide_duplicate_replaces_witness :
  maps one_registration !! ContainerMapKey containerA
  = Some [(depA, singletonService)] ∧
  depA ∈ JSMap.keys [(depA, singletonService)] ∧
  ∃ c' σ',
    provide containerA depA scopedService one_registration = Ret c' σ' ∧
    maps σ' !! ContainerMapKey c' = Some [(depA, scopedService)] ∧
    maps σ' !! ContainerMapKey containerA = Some [(depA, singletonService)].
Proof.
  assert (H1 : maps one_registration !! ContainerMapKey containerA
               = Some [(depA, singletonService)]) by reflexivity.
  assert (H2 : depA ∈ JSMap.keys [(depA, singletonService)])
    by apply list_elem_of_here.
  split_and!; [done..|].
  destruct (provide_duplicate_replaces containerA depA scopedService
              one_registration _ H1 H2)
    as (c' & σ' & Hp & Hnew & _ & _ & _ & Hold).
  exists c', σ'. done.
Defined.

Lemma provide_persistent_witness :
  maps one_registration !! ContainerMapKey containerA
  = Some [(depA, singletonService)] ∧
  ∃ c' σ',
    provide containerA depB scopedService one_registration = Ret c' σ' ∧
    ContainerMapKey c' = 1 ∧
    maps σ' !! ContainerMapKey c'
    = Some [(depA, singletonService); (depB, scopedService)] ∧
    maps σ' !! ContainerMapKey containerA = Some [(depA, singletonService)].
Proof.
  assert (H1 : maps one_registration !! ContainerMapKey containerA
               = Some [(depA, singletonService)]) by reflexivity.
  split; [done|].
  destruct (provide_persistent containerA depB scopedService
              one_registration _ H1)
    as (c' & σ' & Hp & Hkey & Hnew & _ & _ & _ & _ & Hold & _).
  exists c', σ'. done.
Defined.

Lemma cycle_detection_correct_witness :
  maps cyclic_registration !! ContainerMapKey containerA
  = Some [(depA, cyclicService)] ∧
  NoDup (JSMap.keys [(depA, cyclicService)]) ∧
  resolver containerA None cyclic_registration
  = Throw CircularDependency cyclic_registration ∧
  cyclic [(depA, cyclicService)].
Proof.
  assert (H1 : maps cyclic_registration !! ContainerMapKey containerA
               = Some [(depA, cyclicService)]) by reflexivity.
  assert (H2 : NoDup (JSMap.keys [(depA, cyclicService)]))
    by apply NoDup_singleton.
  assert (H3 : resolver containerA None cyclic_registration
               = Throw CircularDependency cyclic_registration)
    by (vm_compute; reflexivity).
  split_and!; [done..|].
  destruct (cycle_detection_correct containerA cyclic_registration _ H1 H2)
    as [Hiff _].
  by apply Hiff.
Defined.

(** C3, counterexample.  On the store built by [partial_root_built] the
    session service is registered with the child and with its parent, and
    [resolve] still throws the missing-registration error: the parent builds
    the singleton and does not know the dependency. *)
Lemma registered_token_missing :
  def_at partial_root 1 sessionService sessionDefinition ∧
  def_at partial_root 0 sessionService sessionDefinition ∧
  def_at partial_root 1 userRequest singletonService ∧
  resolve 3 1 sessionService partial_root
  = Throw MissingRegistration partial_root.
Proof.
  split_and!; [by eexists _, _..|]. vm_compute. reflexivity.
Qed.

Lemma resolve_unregistered_witness :
  absent_at partial_root 0 userRequest ∧
  InternalResolve 1 0 userRequest partial_root = Ret VUndefined partial_root ∧
  resolve 1 0 userRequest partial_root
  = Throw MissingRegistration partial_root.
Proof.
  assert (H : absent_at partial_root 0 userRequest) by (by eexists _, _).
  split; [done|].
  destruct (resolve_unregistered partial_root 0 userRequest 0 H)
    as (H1 & H2 & _).
  done.
Defined.


Lemma resolver_inheritance_check_witness :
  resolvers mismatch_state !! 0 = Some (mkResolver 0 None []) ∧
  depC ∈ JSMap.keys [(depC, singletonService); (depB, singletonService)] ∧
  (depC ∉ JSMap.keys [(depA, scopedService); (depB, singletonService);
                      (depD, singletonService)]) ∧
  resolver containerADB (Some 0) mismatch_state
  = Throw InheritingMissing mismatch_state.
Proof.
  assert (H1 : depC ∈ JSMap.keys
                 [(depC, singletonService); (depB, singletonService)])
    by apply list_elem_of_here.
  assert (H2 : depC ∉ JSMap.keys
                 [(depA, scopedService); (depB, singletonService);
                  (depD, singletonService)]).
  { apply (bool_decide_unpack _). vm_compute. exact I. }
  split_and!; [reflexivity | done.. |].
  destruct (resolver_inheritance_check containerADB 0 mismatch_state
              (mkResolver 0 None []) _ _ eq_refl eq_refl eq_refl)
    as [Hiff _].
  apply Hiff. by exists depC.
Defined.


(** C7, counterexample.  On the store built by [mixed_lifetimes_built] the
    child registers the token as a singleton, and two [resolve] calls on
    the child return two different objects: each time the parent, which
    registers the token as transient, builds a new one. *)
Lemma singleton_not_identical :
  def_at mixed_lifetimes 1 depC singletonService ∧
  lifetime singletonService = singleton ∧
  resolve 2 1 depC mixed_lifetimes
  = Ret (VObject 0)
      (mkState (maps mixed_lifetimes) (resolvers mixed_lifetimes) 1) ∧
  resolve 2 1 depC
    (mkState (maps mixed_lifetimes) (resolvers mixed_lifetimes) 1)
  = Ret (VObject 1)
      (mkState (maps mixed_lifetimes) (resolvers mixed_lifetimes) 2) ∧
  VObject 0 ≠ VObject 1.
Proof.
  split_and!; [by eexists _, _|reflexivity..|done].
Qed.

Lemma root_keeps_instances : keeps_instances siblings 0 depB.
Proof.
  intros q d Hin (this & m & Hr & Hm & Hget).
  assert (q = 0) as ->.
  { inversion Hin as [|? this' p ? Hr' Hp _]; [done|]. by simplify_eq/=. }
  simplify_eq/=. split; [done|].
  intros args w v w' [= <- _]. done.
Defined.

Lemma singleton_resolution_witness :
  resolvers siblings !! 1 = Some (mkResolver 1 (Some 0) []) ∧
  lifetime singletonService = singleton ∧
  resolve 2 1 depB siblings
  = Ret (VObject 0) (cache_set 0 depB (VObject 0)
                       (mkState (maps siblings) (resolvers siblings) 1)) ∧
  resolve 2 1 depB (cache_set 0 depB (VObject 0)
                      (mkState (maps siblings) (resolvers siblings) 1))
  = Ret (VObject 0) (cache_set 0 depB (VObject 0)
                       (mkState (maps siblings) (resolvers siblings) 1)).
Proof.
  assert (H : resolve 2 1 depB siblings
    = Ret (VObject 0) (cache_set 0 depB (VObject 0)
        (mkState (maps siblings) (resolvers siblings) 1)))
    by reflexivity.
  split_and!; [reflexivity..|done|].
  destruct (singleton_resolution 0 siblings 1 depB (mkResolver 1 (Some 0) [])
              _ singletonService eq_refl eq_refl eq_refl eq_refl)
    as (_ & _ & _ & Hrepeat).
  assert (Hanc : ∀ p, parent (mkResolver 1 (Some 0) []) = Some p →
                      keeps_instances siblings p depB).
  { intros p [= <-]. exact root_keeps_instances. }
  apply (Hrepeat Hanc 2 _ _ H 2). apply Nat.le_refl.
Defined.


(** Two children of one root: each builds its own scoped instance and keeps
    it, the root's cache stays empty. *)
Lemma scoped_instances_per_resolver :
  bind (resolve 1 1 depA siblings) (λ a1 σ1,
  bind (resolve 1 2 depA σ1) (λ b1 σ2,
  bind (resolve 1 1 depA σ2) (λ a2 σ3,
  bind (resolve 1 2 depA σ3) (λ b2 σ4,
  Ret [a1; b1; a2; b2] σ4))))
  = Ret [VObject 0; VObject 1; VObject 0; VObject 1]
      (mkState (maps siblings)
         [mkResolver 1 None [];
          mkResolver 1 (Some 0) [(depA, VObject 0)];
          mkResolver 1 (Some 0) [(depA, VObject 1)]] 2).
Proof. vm_compute. reflexivity. Qed.

(** The scenarios of the test suite.  A transient dependency is built once
    for each dependent, a singleton dependency once for all. *)
Lemma transient_dependency_not_shared :
  bind (resolve 2 0 depA (shared_dependency transient)) (λ a σ1,
  bind (resolve 2 0 depB σ1) (λ b σ2, Ret (a, b) σ2))
  = Ret (VObject 1, VObject 3)
      (mkState (maps (shared_dependency transient))
         [mkResolver 0 None [(depA, VObject 1); (depB, VObject 3)]]
         [(depC, []); (depA, [VObject 0]);
          (depC, []); (depB, [VObject 2])]).
Proof. vm_compute. reflexivity. Qed.

Lemma singleton_dependency_shared :
  bind (resolve 2 0 depA (shared_dependency singleton)) (λ a σ1,
  bind (resolve 2 0 depB σ1) (λ b σ2, Ret (a, b) σ2))
  = Ret (VObject 1, VObject 2)
      (mkState (maps (shared_dependency singleton))
         [mkResolver 0 None
            [(depC, VObject 0); (depA, VObject 1); (depB, VObject 2)]]
         [(depC, []); (depA, [VObject 0]); (depB, [VObject 0])]).
Proof. vm_compute. reflexivity. Qed.

(** With scoped services a partial root works: the child builds the
    services itself and finds the request in its own registry. *)
Lemma partial_root_scoped :
  bind (createContainer_provide sessionService scopedSession (empty_state 0))
    (λ c1 σ1,
  bind (provide c1 itemsService scopedItems σ1) (λ c2 σ2,
  bind (resolver c2 None σ2) (λ root σ3,
  bind (provide c2 userRequest singletonService σ3) (λ c3 σ4,
  bind (resolver c3 (Some root) σ4) (λ child σ5,
  bind (resolve 4 child itemsService σ5) (λ items σ6,
  Ret (root, child, items, resolvers σ6) σ6))))))
  = Ret (0, 1, VObject 2,
         [mkResolver 1 None [];
          mkResolver 2 (Some 0)
            [(userRequest, VObject 0); (sessionService, VObject 1);
             (itemsService, VObject 2)]])
      (mkState
         [ [(sessionService, scopedSession)];
           [(sessionService, scopedSession); (itemsService, scopedItems)];
           [(sessionService, scopedSession); (itemsService, scopedItems);
            (userRequest, singletonService)] ]
         [mkResolver 1 None [];
          mkResolver 2 (Some 0)
            [(userRequest, VObject 0); (sessionService, VObject 1);
             (itemsService, VObject 2)]] 3).
Proof. vm_compute. reflexivity. Qed.


(** * Beyond the specification: tokens, built definitions, failures *)

(** ** [InjectionToken.of] *)

Section Tokens.
Implicit Types (h : TokenStore) (id : Value).

(** X1.  [InjectionToken.of(id)] returns a token that did not exist
    before and leaves the earlier tokens as they were.  A truthy
    qualifier is kept as the token's id and no symbol is minted; a falsy
    one (a missing argument, [0], the empty string, [false], [null]) is
    replaced by a symbol that no other token carries.  The store stays
    well formed. *)
Theorem InjectionToken_of_spec id h :
  tokens_ok h →
  let t := (InjectionToken_of id h).1 in
  let h' := (InjectionToken_of id h).2 in
  tokenIds h !! t = None ∧
  (∀ t0, t0 < length (tokenIds h) →
         t0 ≠ t ∧ tokenIds h' !! t0 = tokenIds h !! t0) ∧
  (truthy id = true →
     tokenIds h' !! t = Some (IdValue id) ∧ symbols h' = symbols h) ∧
  (truthy id = false →
     ∃ s, tokenIds h' !! t = Some (IdSymbol s) ∧
          ∀ t0, t0 ≠ t → tokenIds h' !! t0 ≠ Some (IdSymbol s)) ∧
  tokens_ok h'.
Proof.
  intros [Hlt Hinj]. unfold InjectionToken_of.
  destruct (truthy id) eqn:Hid; simpl; split_and!.
  - by apply lookup_ge_None_2.
  - intros t0 Ht0. split; [lia|]. by apply lookup_app_l.
  - intros _. split; [|done]. by rewrite lookup_app_r, Nat.sub_diag.
  - done.
  - split.
    + intros t s [H|[_ H]]%lookup_app_Some; [by eapply Hlt|].
      by apply list_lookup_singleton_Some in H as [_ ?].
    + intros t t' s [H|[_ H]]%lookup_app_Some;
        [|by apply list_lookup_singleton_Some in H as [_ ?]].
      intros [H'|[_ H']]%lookup_app_Some; [by eapply Hinj|].
      by apply list_lookup_singleton_Some in H' as [_ ?].
  - by apply lookup_ge_None_2.
  - intros t0 Ht0. split; [lia|]. by apply lookup_app_l.
  - done.
  - intros _. exists (symbols h). split.
    + by rewrite lookup_app_r, Nat.sub_diag.
    + intros t0 Ht0 [H|[Hge H]]%lookup_app_Some.
      * apply Hlt in H. lia.
      * apply list_lookup_singleton_Some in H as [H _]. lia.
  - split; simpl.
    + intros t s [H|[_ H]]%lookup_app_Some.
      * apply Hlt in H. lia.
      * apply list_lookup_singleton_Some in H as [_ [= <-]]. lia.
    + intros t t' s [H|[Hge H]]%lookup_app_Some
        [H'|[Hge' H']]%lookup_app_Some.
      * by eapply Hinj.
      * apply list_lookup_singleton_Some in H' as [_ [= <-]].
        apply Hlt in H. lia.
      * apply list_lookup_singleton_Some in H as [_ [= <-]].
        apply Hlt in H'. lia.
      * apply list_lookup_singleton_Some in H as [H _].
        apply list_lookup_singleton_Some in H' as [H' _]. lia.
Qed.
End Tokens.

Section BuiltDefinitions.
Context {W : Type}.
Implicit Types (σ : State W) (d : ServiceDefinition W).
Implicit Types (this : InternalResolver) (m : Registrations W).

(** *** Fuel *)

Lemma map_resolve_fuel n n' r ts σ args σ1 :
  n ≤ n' →
  map_resolve (resolve n r) ts σ = Ret args σ1 →
  map_resolve (resolve (W := W) n' r) ts σ = Ret args σ1.
Proof.
  intros Hn Hargs. rewrite <- Hargs. apply map_resolve_refines.
  - intros t σ0. by apply resolve_fuel.
  - by rewrite Hargs.
Qed.

Lemma enough_fuel_any n k r t σ (o : Outcome W Value) :
  InternalResolve (S n) r t σ = o → returns o → n < k →
  InternalResolve k r t σ = o.
Proof.
  intros <- Hret Hk. apply (InternalResolve_fuel (S n) k); [lia|done].
Qed.

Lemma parent_declines_fuel n n' σ par t σ0 :
  n ≤ n' → parent_declines n σ par t σ0 →
  parent_declines (W := W) n' σ par t σ0.
Proof.
  intros Hn. destruct par as [p|]; simpl; [|done].
  intros (u & Hu & Hfalsy). exists u. split; [|done].
  rewrite <- Hu. apply (InternalResolve_fuel n n'); [done|].
  by rewrite Hu.
Qed.



(** *** Two tokens of [InjectionToken.of] as registry keys *)

(** X2.  Two calls of [InjectionToken.of] give two different tokens,
    whatever the qualifiers, equal or not; registered one after the other
    they make two entries of the registry, in that order, and neither
    definition replaces the other. *)
Theorem minted_tokens_register_separately id1 id2 h d1 d2 σ :
  let t1 := (InjectionToken_of id1 h).1 in
  let h1 := (InjectionToken_of id1 h).2 in
  let t2 := (InjectionToken_of id2 h1).1 in
  t1 ≠ t2 ∧
  ∃ c σ',
    createContainer_provide_all t1 d1 [(t2, d2)] σ = Ret c σ' ∧
    maps σ' !! ContainerMapKey c = Some [(t1, d1); (t2, d2)] ∧
    ContainerProvidedKey c = [t1; t2] ∧
    JSMap.get t1 [(t1, d1); (t2, d2)] = Some d1 ∧
    JSMap.get t2 [(t1, d1); (t2, d2)] = Some d2.
Proof.
  intros t1 h1 t2.
  assert (t1 = length (tokenIds h) ∧ t2 = S (length (tokenIds h)))
    as [Ht1 Ht2].
  { subst t1 h1 t2. unfold InjectionToken_of.
    destruct (truthy id1), (truthy id2); simpl;
      rewrite ?length_app; simpl; split; lia. }
  assert (t1 ≠ t2) as Hne by lia.
  split; [done|].
  unfold createContainer_provide_all.
  rewrite createContainer_provide_eq. simpl.
  erewrite provide_eq; last first.
  { simpl. by rewrite lookup_app_r, Nat.sub_diag. }
  eexists _, _. split; [done|]. simpl.
  rewrite lookup_app_r by (rewrite length_app; simpl; lia).
  rewrite length_app. simpl.
  replace (length (maps σ) + 1 - (length (maps σ) + 1)) with 0 by lia.
  simpl. split_and!; repeat case_decide; done || congruence.
Qed.

(** *** [fromValue] *)


(** *** Failures *)

Lemma map_resolve_app_throw (f : Token → State W → Outcome W Value)
    pre dep post σ0 args σ1 e σ2 :
  map_resolve f pre σ0 = Ret args σ1 →
  f dep σ1 = Throw e σ2 →
  map_resolve f (pre ++ dep :: post) σ0 = Throw e σ2.
Proof.
  revert σ0 args. induction pre as [|x pre IH]; intros σ0 args; simpl.
  - intros [= _ <-] Hdep. by rewrite Hdep.
  - destruct (f x σ0) as [v σa| | |] eqn:Hx; simpl; try done.
    destruct (map_resolve f pre σa) as [vs σb| | |] eqn:Hpre; simpl;
      try done.
    intros [= _ <-] Hdep. by rewrite (IH _ _ Hpre Hdep).
Qed.

(** The three lifetimes share the path to the construction once the
    parent has declined and the cache has missed. *)
Lemma InternalResolve_throw n σ r t this m d σ0 e σ2 :
  resolvers σ !! r = Some this →
  maps σ !! registrations this = Some m →
  JSMap.get t m = Some d →
  match lifetime d with
  | scoped => σ0 = σ
  | _ => parent_declines n σ (parent this) t σ0
  end →
  (lifetime d ≠ transient → truthy (cache_get r t σ0) = false) →
  construct (InternalResolve n) r d σ0 = Throw e σ2 →
  ∀ k, n < k →
    InternalResolve k r t σ = Throw e σ2 ∧ resolve k r t σ = Throw e σ2.
Proof.
  intros Hr Hm Hget Hpar Hcache Hcon.
  assert (InternalResolve (S n) r t σ = Throw e σ2) as HIR.
  { destruct (lifetime d) eqn:Hlt.
    - rewrite (InternalResolve_singleton _ _ _ _ _ _ _ Hr Hm Hget Hlt).
      rewrite (probe_parent_declines _ _ _ _ _ _ Hpar).
      unfold cached_or_construct, construct_and_cache.
      rewrite Hcache by done. by rewrite Hcon.
    - rewrite (InternalResolve_transient _ _ _ _ _ _ _ Hr Hm Hget Hlt).
      by rewrite (probe_parent_declines _ _ _ _ _ _ Hpar).
    - subst σ0.
      rewrite (InternalResolve_scoped _ _ _ _ _ _ _ Hr Hm Hget Hlt).
      unfold cached_or_construct, construct_and_cache.
      rewrite Hcache by done. by rewrite Hcon. }
  intros k Hk.
  assert (InternalResolve k r t σ = Throw e σ2) as HIRk.
  { by apply (enough_fuel_any n). }
  split; [done|]. unfold resolve, resolve_via. by rewrite HIRk.
Qed.

(** X4.  A factory that throws: once the parent has declined, the cache
    has missed and the dependencies are resolved, whatever the factory
    throws leaves [InternalResolve] and [resolve] as it is, not wrapped
    and not replaced.  The store keeps what the dependencies and the
    factory did to it, and the failing call itself caches nothing: the
    caches are the ones the dependencies left. *)
Theorem factory_exception_propagates n σ r t this m d σ0 args σ1 e w :
  resolvers σ !! r = Some this →
  maps σ !! registrations this = Some m →
  JSMap.get t m = Some d →
  match lifetime d with
  | scoped => σ0 = σ
  | _ => parent_declines n σ (parent this) t σ0
  end →
  (lifetime d ≠ transient → truthy (cache_get r t σ0) = false) →
  map_resolve (resolve n r) (requires d) σ0 = Ret args σ1 →
  instance d args (world σ1) = (Raised e, w) →
  let σ2 := mkState (maps σ1) (resolvers σ1) w in
  (∀ k, n < k →
     InternalResolve k r t σ = Throw (Thrown e) σ2 ∧
     resolve k r t σ = Throw (Thrown e) σ2) ∧
  cache_get r t σ2 = cache_get r t σ1.
Proof.
  intros Hr Hm Hget Hpar Hcache Hargs Hinst σ2. split; [|done].
  apply (InternalResolve_throw n σ r t this m d σ0); try done.
  unfold construct.
  change (resolve_via (InternalResolve n) r) with (resolve (W := W) n r).
  rewrite Hargs. simpl. unfold call_instance. by rewrite Hinst.
Qed.

(** X5.  A dependency that fails: when the dependencies before it have
    been resolved and its own [resolve] throws, the resolution of the
    dependent token throws the same exception from the same store.  The
    dependencies after it are not resolved and the factory is not
    invoked.  In particular a dependency that the resolver's registry
    does not hold ends the resolution with the missing-registration
    error, in the store the earlier dependencies left. *)
Theorem dependency_failure_propagates n σ r t this m d σ0 pre dep post
    args σ1 :
  resolvers σ !! r = Some this →
  maps σ !! registrations this = Some m →
  JSMap.get t m = Some d →
  match lifetime d with
  | scoped => σ0 = σ
  | _ => parent_declines n σ (parent this) t σ0
  end →
  (lifetime d ≠ transient → truthy (cache_get r t σ0) = false) →
  requires d = pre ++ dep :: post →
  map_resolve (resolve n r) pre σ0 = Ret args σ1 →
  (∀ e σ2, resolve n r dep σ1 = Throw e σ2 →
     ∀ k, n < k →
       InternalResolve k r t σ = Throw e σ2 ∧
       resolve k r t σ = Throw e σ2) ∧
  (absent_at σ1 r dep →
     ∀ k, S n < k →
       InternalResolve k r t σ = Throw MissingRegistration σ1 ∧
       resolve k r t σ = Throw MissingRegistration σ1).
Proof.
  intros Hr Hm Hget Hpar Hcache Hreq Hpre.
  assert (∀ n' e σ2, n ≤ n' → resolve n' r dep σ1 = Throw e σ2 →
            ∀ k, n' < k →
              InternalResolve k r t σ = Throw e σ2 ∧
              resolve k r t σ = Throw e σ2) as Hgen.
  { intros n' e σ2 Hn Hdep.
    apply (InternalResolve_throw n' σ r t this m d σ0); try done.
    - destruct (lifetime d); [|  |done];
        by apply (parent_declines_fuel n).
    - unfold construct. rewrite Hreq.
      change (resolve_via (InternalResolve n') r)
        with (resolve (W := W) n' r).
      erewrite map_resolve_app_throw; [done| |exact Hdep].
      by apply (map_resolve_fuel n). }
  split.
  - intros e σ2 Hdep. by apply (Hgen n).
  - intros Habs. apply (Hgen (S n)); [lia|]. by apply resolve_absent.
Qed.
End BuiltDefinitions.

(** * Beyond the specification: what a store keeps *)

Section CacheInvariants.
Context {W : Type}.
Abbreviation IRfun := (nat → Token → State W → Outcome W Value).
Implicit Types (σ : State W) (d : ServiceDefinition W).
Implicit Types (this : InternalResolver) (m : Registrations W).
Implicit Types (IR : IRfun).

(** *** Cache entries are retained *)

Lemma retains_refl σ : retains σ σ.
Proof. intros i this k v Hi Hk. by exists this, v. Qed.

Lemma retains_trans σ1 σ2 σ3 :
  retains σ1 σ2 → retains σ2 σ3 → retains σ1 σ3.
Proof.
  intros H12 H23 i this k v Hi Hk.
  destruct (H12 i this k v Hi Hk) as (this2 & v2 & Hi2 & Hk2 & Hv2).
  destruct (H23 i this2 k v2 Hi2 Hk2) as (this3 & v3 & Hi3 & Hk3 & Hv3).
  exists this3, v3. split_and!; [done..|].
  intros Hv. specialize (Hv2 Hv). subst v2. by apply Hv3.
Qed.

Lemma retains_world σ w : retains σ (mkState (maps σ) (resolvers σ) w).
Proof. intros i this k v Hi Hk. by exists this, v. Qed.

(** Writing an entry that was falsy or missing at the start. *)
Lemma retains_cache_set r t inst σ σc :
  retains σ σc → truthy (cache_get r t σ) = false →
  retains σ (cache_set r t inst σc).
Proof.
  intros Hret Hfalsy i this k v Hi Hk.
  destruct (Hret i this k v Hi Hk) as (this' & v' & Hi' & Hk' & Hv).
  unfold cache_set. simpl.
  destruct (decide (i = r)) as [->|Hne].
  - rewrite list_lookup_alter_eq, Hi'. simpl.
    destruct (decide (t = k)) as [->|Hk_ne].
    + eexists _, inst. split_and!; [done|simpl; by rewrite get_set_eq|].
      intros Htruthy. unfold cache_get in Hfalsy.
      rewrite Hi, Hk in Hfalsy. simpl in Hfalsy. congruence.
    + eexists _, v'. split_and!; [done| |done].
      simpl. by rewrite get_set_ne.
  - exists this', v'. by rewrite list_lookup_alter_ne.
Qed.

Lemma resolve_via_retains IR r t σ σ' :
  retaining IR → final (resolve_via IR r t σ) = Some σ' → retains σ σ'.
Proof.
  intros Hs. unfold resolve_via. specialize (Hs r t σ).
  destruct (IR r t σ) as [v σ1| | |]; simpl in *; try done.
  - destruct (truthy v); simpl; auto.
  - auto.
Qed.

Lemma map_resolve_retains IR r ts σ σ' :
  retaining IR →
  final (map_resolve (resolve_via IR r) ts σ) = Some σ' → retains σ σ'.
Proof.
  intros Hs. revert σ. induction ts as [|t ts IH]; intros σ; simpl.
  - intros [= <-]. apply retains_refl.
  - pose proof (resolve_via_retains IR r t σ) as Ht.
    destruct (resolve_via IR r t σ) as [v σ1| | |]; simpl in *; try done.
    + intros Hfin. eapply retains_trans; [by apply Ht|].
      apply IH. by destruct (map_resolve _ ts σ1).
    + intros [= <-]. by apply Ht.
Qed.

Lemma call_instance_retains d args σ σ' :
  final (call_instance d args σ) = Some σ' → retains σ σ'.
Proof.
  unfold call_instance. destruct (instance d args (world σ)) as [[v|e] w];
    intros [= <-]; apply retains_world.
Qed.

Lemma construct_retains IR r d σ σ' :
  retaining IR → final (construct IR r d σ) = Some σ' → retains σ σ'.
Proof.
  intros Hs. unfold construct.
  pose proof (map_resolve_retains IR r (requires d) σ) as Hm.
  destruct (map_resolve _ _ σ) as [args σ1| | |]; simpl in *; try done.
  - intros Hfin. eapply retains_trans; [by apply Hm|].
    by eapply call_instance_retains.
  - intros [= <-]. by apply Hm.
Qed.

Lemma cached_or_construct_retains IR r t d σ σ' :
  retaining IR →
  final (cached_or_construct IR r t d σ) = Some σ' → retains σ σ'.
Proof.
  intros Hs. unfold cached_or_construct, construct_and_cache.
  destruct (truthy (cache_get r t σ)) eqn:Hc.
  { intros [= <-]. apply retains_refl. }
  pose proof (construct_retains IR r d σ) as Hcon.
  destruct (construct IR r d σ) as [v σ1| | |]; simpl in *; try done.
  - intros [= <-]. apply retains_cache_set; [|done]. by apply Hcon.
  - intros [= <-]. by apply Hcon.
Qed.

Lemma probe_parent_retains IR par t (k : State W → Outcome W Value) σ σ' :
  retaining IR →
  (∀ σ0 σ0', final (k σ0) = Some σ0' → retains σ0 σ0') →
  final (probe_parent IR par t k σ) = Some σ' → retains σ σ'.
Proof.
  intros Hs Hk. unfold probe_parent. destruct par as [p|]; [|by apply Hk].
  pose proof (Hs p t σ) as Hpar.
  destruct (IR p t σ) as [v σ1| | |]; simpl in *; try done.
  - destruct (truthy v); [by intros [= <-]; apply Hpar|].
    intros Hfin. eapply retains_trans; [by apply Hpar|]. by apply Hk.
  - intros [= <-]. by apply Hpar.
Qed.

Lemma step_retains IR : retaining IR → retaining (step IR).
Proof.
  intros Hs r t σ σ'. unfold step.
  destruct (resolvers σ !! r) as [this|] eqn:Hr; [|done].
  destruct (maps σ !! registrations this) as [m|] eqn:Hm; [|done].
  destruct (JSMap.get t m) as [d|] eqn:Hget.
  2:{ intros [= <-]. apply retains_refl. }
  destruct (lifetime d) eqn:Hlt.
  - apply probe_parent_retains; [done|].
    intros σ0 σ0'. by apply cached_or_construct_retains.
  - apply probe_parent_retains; [done|].
    intros σ0 σ0'. by apply construct_retains.
  - by apply cached_or_construct_retains.
Qed.

Lemma InternalResolve_retains n : retaining (W := W) (InternalResolve n).
Proof.
  induction n as [|n IH]; [by intros r t σ σ'|].
  intros r t σ σ'. rewrite InternalResolve_unfold. by apply step_retains.
Qed.

Lemma resolve_retains n r t σ σ' :
  final (resolve n r t σ) = Some σ' → retains σ σ'.
Proof. apply resolve_via_retains, InternalResolve_retains. Qed.

Lemma resolve_steps σ σ' :
  rtc resolve_step σ σ' → retains σ σ' ∧ same_shape σ σ'.
Proof.
  induction 1 as [σ|σ σ1 σ2 (k & r & t & Hstep) _ [IHr IHs]].
  - split; [apply retains_refl | apply same_shape_refl].
  - split.
    + eapply retains_trans; [|exact IHr]. by eapply resolve_retains.
    + eapply same_shape_trans; [|exact IHs].
      eapply footprint_same_shape. by eapply resolve_footprint.
Qed.

(** X6.  No call of [resolve], finished by a return or by an exception,
    removes a cache entry of any resolver, and none changes an entry that
    holds a truthy value: what a resolver has cached it keeps, over any
    number of calls on any resolvers and tokens. *)
Theorem cache_entries_retained σ σ' i this k v :
  rtc resolve_step σ σ' →
  resolvers σ !! i = Some this →
  JSMap.get k (cache this) = Some v →
  ∃ this' v',
    resolvers σ' !! i = Some this' ∧
    registrations this' = registrations this ∧
    parent this' = parent this ∧
    JSMap.get k (cache this') = Some v' ∧
    (truthy v = true → v' = v).
Proof.
  intros [Hret Hshape]%resolve_steps Hi Hk.
  destruct (Hret i this k v Hi Hk) as (this' & v' & Hi' & Hk' & Hv).
  destruct (same_shape_lookup _ _ _ _ Hshape Hi) as (this2 & Hi2 & ? & ?).
  exists this', v'. by simplify_eq.
Qed.

(** *** Instances stay *)

Lemma cache_get_Some σ r t v :
  cache_get r t σ = v → truthy v = true →
  ∃ this, resolvers σ !! r = Some this ∧
          JSMap.get t (cache this) = Some v.
Proof.
  unfold cache_get. intros Hv Htruthy.
  destruct (resolvers σ !! r) as [this|]; [|by subst].
  exists this. split; [done|].
  destruct (JSMap.get t (cache this)); simpl in *; by subst.
Qed.

Lemma cached_or_construct_cached n r t d σ v σ1 :
  r < length (resolvers σ) →
  cached_or_construct (InternalResolve n) r t d σ = Ret v σ1 →
  truthy v = true →
  same_shape σ σ1 ∧ cache_get r t σ1 = v.
Proof.
  intros Hr Hcc Hv.
  apply cached_or_construct_inv in Hcc
    as [(_ & -> & ->)|(_ & σc & Hcon & ->)].
  - split; [apply same_shape_refl | done].
  - assert (footprint r σ σc) as Hfp.
    { apply (construct_footprint (InternalResolve n) r d).
      - apply InternalResolve_footprint.
      - by rewrite Hcon. }
    destruct (lookup_lt_is_Some_2 _ _ Hr) as [this Hthis].
    split.
    + eapply same_shape_trans.
      { by eapply footprint_same_shape. }
      split; [done|]. unfold cache_set. simpl.
      rewrite (list_fmap_alter _ _ id) by (by apply Forall_true).
      by apply list_alter_id.
    + apply cache_get_set. by eapply footprint_valid.
Qed.

(** X7.  Once [resolve] has returned an instance of a scoped token, or
    of a singleton token on a resolver without parent, every later
    [resolve] of that token on that resolver returns the same instance
    and changes nothing, whatever calls of [resolve] on whatever
    resolvers and tokens happen in between. *)
Theorem resolved_instance_is_kept k σ r t this m d v σ1 σ' :
  resolvers σ !! r = Some this →
  maps σ !! registrations this = Some m →
  JSMap.get t m = Some d →
  lifetime d = scoped ∨ (lifetime d = singleton ∧ parent this = None) →
  resolve k r t σ = Ret v σ1 →
  rtc resolve_step σ1 σ' →
  ∀ k', 0 < k' → resolve k' r t σ' = Ret v σ'.
Proof.
  intros Hr Hm Hget Hlt Hres Hsteps k' Hk'.
  assert (r < length (resolvers σ)) as Hlen by (by eapply lookup_lt_Some).
  assert (truthy v = true ∧ same_shape σ σ1 ∧ cache_get r t σ1 = v)
    as (Hv & Hshape1 & Hc1).
  { unfold resolve, resolve_via in Hres.
    destruct k as [|k]; [done|].
    destruct (InternalResolve (S k) r t σ) as [u σu| | |] eqn:HIR;
      try done.
    destruct (truthy u) eqn:Hu; [|done].
    injection Hres as -> ->. split; [done|].
    destruct Hlt as [Hlt|[Hlt Hp]].
    - rewrite (InternalResolve_scoped _ _ _ _ _ _ _ Hr Hm Hget Hlt) in HIR.
      by eapply cached_or_construct_cached.
    - rewrite (InternalResolve_singleton _ _ _ _ _ _ _ Hr Hm Hget Hlt)
        in HIR.
      rewrite Hp in HIR. simpl in HIR.
      by eapply cached_or_construct_cached. }
  destruct (cache_get_Some _ _ _ _ Hc1 Hv) as (this1 & Hr1 & Hk1).
  clear Hc1 Hres.
  destruct (resolve_steps _ _ Hsteps) as [Hret Hshape].
  destruct (Hret r this1 t v Hr1 Hk1) as (this' & v' & Hr' & Hk2 & Hv').
  specialize (Hv' Hv). subst v'.
  destruct (same_shape_lookup _ _ _ _ Hshape1 Hr)
    as (this1' & Hr1' & Hreg1 & Hp1).
  destruct (same_shape_lookup _ _ _ _ Hshape Hr1)
    as (this2 & Hr2 & Hreg2 & Hp2).
  simplify_eq.
  assert (maps σ' !! registrations this' = Some m) as Hm'.
  { destruct Hshape as [-> _], Hshape1 as [-> _]. congruence. }
  assert (cache_get r t σ' = v) as Hc'.
  { unfold cache_get. by rewrite Hr', Hk2. }
  destruct k' as [|k']; [lia|].
  unfold resolve, resolve_via.
  destruct Hlt as [Hlt|[Hlt Hp]].
  - rewrite (InternalResolve_scoped _ _ _ _ _ _ _ Hr' Hm' Hget Hlt).
    rewrite cached_or_construct_hit by (by rewrite Hc').
    by rewrite Hc', Hv.
  - rewrite (InternalResolve_singleton _ _ _ _ _ _ _ Hr' Hm' Hget Hlt).
    replace (parent this') with (@None nat) by congruence. simpl.
    rewrite cached_or_construct_hit by (by rewrite Hc').
    by rewrite Hc', Hv.
Qed.

(** *** What a call of [resolve] leaves alone *)

(** X8.  A finished call of [resolve] on [r] changes no registry, makes
    and removes no resolver, leaves every resolver its registry and its
    parent, and writes to the caches of [r] and of its ancestors only:
    every other resolver is exactly as before. *)
Theorem resolve_changes_caches_only k r t σ σ' :
  final (resolve k r t σ) = Some σ' →
  maps σ' = maps σ ∧
  length (resolvers σ') = length (resolvers σ) ∧
  (∀ i this, resolvers σ !! i = Some this →
     ∃ this', resolvers σ' !! i = Some this' ∧
              registrations this' = registrations this ∧
              parent this' = parent this) ∧
  (∀ i, ¬ in_chain σ r i → resolvers σ' !! i = resolvers σ !! i).
Proof.
  intros Hfp%resolve_footprint. split_and!.
  - apply Hfp.
  - apply Hfp.
  - intros i this Hi.
    destruct (fp_shape _ _ _ Hfp i this Hi) as (this' & ? & ? & ? & _).
    by exists this'.
  - apply Hfp.
Qed.

(** *** Caches hold registered tokens only *)

Lemma cacheable_dec σ this k : cacheable σ this k ∨ ¬ cacheable σ this k.
Proof.
  unfold cacheable.
  destruct (maps σ !! registrations this) as [m|] eqn:Hm.
  2:{ right. by intros (? & ? & ? & _). }
  destruct (JSMap.get k m) as [d|] eqn:Hget.
  2:{ right. intros (? & ? & ? & ? & _). congruence. }
  destruct (lifetime d) eqn:Hlt.
  - left. exists m, d. by rewrite Hlt.
  - right. intros (? & ? & ? & ? & ?). congruence.
  - left. exists m, d. by rewrite Hlt.
Qed.

Lemma caches_clean_footprint r σ σ' :
  footprint r σ σ' → caches_clean σ → caches_clean σ'.
Proof.
  intros Hfp Hclean i this' k Hi' Hk.
  destruct (fp_shape_inv _ _ _ _ _ Hfp Hi') as (this & Hi & Hreg & Hp).
  destruct (fp_shape _ _ _ Hfp i this Hi) as (this2 & Hi2 & _ & _ & Hframe).
  simplify_eq.
  destruct (cacheable_dec σ this k) as [Hc|Hnc].
  - by apply (cacheable_footprint r σ σ' this this').
  - exfalso. apply Hnc, (Hclean i); [done|].
    apply dec_stable. intros Hnot%get_None_keys.
    rewrite <- (Hframe k Hnc) in Hnot. by apply get_None_keys in Hnot.
Qed.

Lemma caches_clean_new_map σ m :
  caches_clean σ →
  caches_clean (mkState (maps σ ++ [m]) (resolvers σ) (world σ)).
Proof.
  intros Hclean i this k Hi Hk.
  destruct (Hclean i this k Hi Hk) as (m0 & d & Hm0 & Hget & Hlt).
  exists m0, d. split_and!; [|done..]. simpl. by apply lookup_app_l_Some.
Qed.

Lemma caches_clean_new_resolver σ map par :
  caches_clean σ →
  caches_clean (mkState (maps σ) (resolvers σ ++ [mkResolver map par []])
                  (world σ)).
Proof.
  intros Hclean i this k [Hi|[_ Hi]]%lookup_app_Some Hk.
  - destruct (Hclean i this k Hi Hk) as (m0 & d & Hm0 & Hget & Hlt).
    by exists m0, d.
  - apply list_lookup_singleton_Some in Hi as [_ <-].
    by apply elem_of_nil in Hk.
Qed.

(** *** What the interface keeps *)

Lemma resolver_final c par σ σ' :
  final (resolver c par σ) = Some σ' →
  σ' = σ ∨
  ∃ r, resolver c par σ = Ret r σ' ∧
       ∀ p, par = Some p → p < length (resolvers σ).
Proof.
  destruct (resolver c par σ) as [r σr|e σe| |] eqn:Hres; simpl;
    try done; intros [= ->].
  - right. exists r. split; [done|]. intros p ->.
    unfold resolver, InternalCheckInheriting in Hres.
    destruct (resolvers σ !! p) eqn:Hp; [|done].
    by eapply lookup_lt_Some.
  - left. unfold resolver in Hres.
    assert (∀ (o : Outcome W unit), (∀ e0 σ0, o = Throw e0 σ0 → σ0 = σ) →
              (∀ σ0, o = Ret tt σ0 → σ0 = σ) →
              bind o (λ _ σ1,
                bind (checkForCycles (ContainerMapKey c) σ1) (λ _ σ2,
                  let '(r, σ3) :=
                    new_InternalResolver (ContainerMapKey c) par σ2 in
                  Ret r σ3)) = Throw e σ' → σ' = σ) as Hgen.
    { intros o Hthrow Hret. destruct o as [[] σ0|e0 σ0| |]; simpl;
        try done.
      - rewrite (Hret σ0 eq_refl). unfold checkForCycles.
        destruct (maps σ !! ContainerMapKey c); [|done].
        destruct (isCyclic _) as [[]|]; simpl; try done.
        by intros [= _ <-].
      - intros [= _ <-]. by eapply Hthrow. }
    apply (Hgen _) in Hres; [done| |].
    + intros e0 σ0. destruct par as [p|]; [|done].
      unfold InternalCheckInheriting.
      destruct (resolvers σ !! p) as [pthis|]; [|done].
      destruct (maps σ !! registrations pthis),
        (maps σ !! ContainerMapKey c); try done.
      destruct (check_inheriting _ _); by intros [= _ <-].
    + intros σ0. destruct par as [p|]; [|by intros [= <-]].
      unfold InternalCheckInheriting.
      destruct (resolvers σ !! p) as [pthis|]; [|done].
      destruct (maps σ !! registrations pthis),
        (maps σ !! ContainerMapKey c); try done.
      destruct (check_inheriting _ _); by intros [= <-].
Qed.

Lemma api_step_state_ok σ σ' : state_ok σ → api_step σ σ' → state_ok σ'.
Proof.
  intros Hok Hstep.
  destruct Hstep as [t d σ0 σ0' Hfin|c t d σ0 σ0' Hfin|c par σ0 σ0' Hfin
                    |k r t σ0 σ0' Hfin].
  - destruct (createContainer_provide t d σ0) as [c' σc| | |] eqn:Hcp;
      simpl in Hfin; simplify_eq.
    by eapply createContainer_provide_ok.
  - destruct (provide c t d σ0) as [c' σc| | |] eqn:Hp;
      simpl in Hfin; simplify_eq.
    + by eapply provide_ok.
    + unfold provide in Hp. by destruct (maps σ0 !! ContainerMapKey c).
  - apply resolver_final in Hfin as [->|(r & Hres & Hpar)]; [done|].
    by destruct (resolver_state_ok _ _ _ _ _ Hok Hpar Hres).
  - eapply state_ok_footprint; [done|]. by eapply resolve_footprint.
Qed.

Lemma api_step_caches_clean σ σ' :
  caches_clean σ → api_step σ σ' → caches_clean σ'.
Proof.
  intros Hclean Hstep.
  destruct Hstep as [t d σ0 σ0' Hfin|c t d σ0 σ0' Hfin|c par σ0 σ0' Hfin
                    |k r t σ0 σ0' Hfin].
  - rewrite createContainer_provide_eq in Hfin. simpl in Hfin.
    injection Hfin as <-. by apply caches_clean_new_map.
  - destruct (maps σ0 !! ContainerMapKey c) as [m|] eqn:Hm.
    + rewrite (provide_eq _ _ _ _ _ Hm) in Hfin. simpl in Hfin.
      injection Hfin as <-. by apply caches_clean_new_map.
    + unfold provide in Hfin. by rewrite Hm in Hfin.
  - apply resolver_final in Hfin as [->|(r & Hres & Hpar)]; [done|].
    apply resolver_Ret_inv in Hres as [_ ->].
    by apply caches_clean_new_resolver.
  - eapply caches_clean_footprint; [|done]. by eapply resolve_footprint.
Qed.

(** X9.  Well-formedness is an invariant of the interface: from a store
    in which every registry has distinct keys and every resolver has an
    acyclic registry that holds all the tokens of its parent's, any
    number of finished calls of [createContainer().provide], [provide],
    [resolver] and [resolve] leads to such a store again.  In such a
    store every call of [resolve] on an existing resolver finishes. *)
Theorem api_keeps_stores_well_formed σ σ' :
  state_ok σ → rtc api_step σ σ' →
  state_ok σ' ∧
  ∀ r t, r < length (resolvers σ') →
    ∃ N, ∀ n, N ≤ n → returns (resolve n r t σ').
Proof.
  intros Hok Hsteps.
  assert (state_ok σ') as Hok'.
  { induction Hsteps as [|σ0 σ1 σ2 Hstep _ IH]; [done|].
    apply IH. by eapply api_step_state_ok. }
  split; [done|]. intros r t Hr. by apply resolve_terminates.
Qed.

(** X10.  The keys of a cache are tokens that the resolver's own
    registry registers as scoped or singleton: a resolver starts with an
    empty cache, and no finished call of the interface stores an instance
    under a transient or an unregistered token. *)
Theorem caches_hold_cacheable_tokens σ σ' i this k :
  caches_clean σ → rtc api_step σ σ' →
  resolvers σ' !! i = Some this →
  k ∈ JSMap.keys (cache this) →
  ∃ m d, maps σ' !! registrations this = Some m ∧
         JSMap.get k m = Some d ∧
         (lifetime d = scoped ∨ lifetime d = singleton).
Proof.
  intros Hclean Hsteps.
  assert (caches_clean σ') as Hclean'.
  { induction Hsteps as [|σ0 σ1 σ2 Hstep _ IH]; [done|].
    apply IH. by eapply api_step_caches_clean. }
  intros Hi Hk.
  destruct (Hclean' i this k Hi Hk) as (m & d & Hm & Hget & Hlt).
  exists m, d. split_and!; [done..|].
  destruct (lifetime d); auto. done.
Qed.
End CacheInvariants.

(** * Beyond the specification: containers and resolver chains *)

(** ** The search from one node ([hasCycle]) *)

Section CycleSearch.
Variable graph : Graph.

(** A [true] answer exhibits a cycle that the start node reaches. *)
Lemma hasCycle_true_from fuel node s s' :
  hasCycle fuel graph node s = Some (true, s') →
  (∀ x, x ∈ recStack s → tc (edge graph) x node) →
  ∃ u, rtc (edge graph) node u ∧ tc (edge graph) u u.
Proof.
  revert node s s'.
  induction fuel as [|fuel IH]; intros node s s'; simpl; [done|].
  destruct (decide (node ∈ recStack s)) as [Hs|Hns].
  { intros _ Hreach. exists node. split; [done|auto]. }
  destruct (decide (node ∈ visited s)) as [Hv|Hnv]; [done|].
  set (ns := default [] (JSMap.get node graph)).
  assert (Hloop : ∀ xs s0 s0',
    for_some (hasCycle fuel graph) xs s0 = Some (true, s0') →
    (∀ x y, x ∈ xs → y ∈ recStack s0 → tc (edge graph) y x) →
    ∃ x u, x ∈ xs ∧ rtc (edge graph) x u ∧ tc (edge graph) u u).
  { induction xs as [|x xs IHxs]; intros s0 s0'; simpl; [done|].
    destruct (hasCycle fuel graph x s0) as [[[] s1]|] eqn:Hx; [| |done].
    - intros _ Hreach. destruct (IH _ _ _ Hx) as (u & Hu & Hc).
      { intros y Hy. apply Hreach; [apply list_elem_of_here | done]. }
      exists x, u. split_and!; [apply list_elem_of_here|done..].
    - intros Hrest Hreach.
      destruct (IHxs _ _ Hrest) as (x' & u & Hx' & Hu & Hc).
      { destruct (hasCycle_false graph _ _ _ _ Hx) as (Hst & _).
        intros x' y Hx' Hy. rewrite Hst in Hy.
        apply Hreach; [by apply list_elem_of_further | done]. }
      exists x', u. split_and!; [by apply list_elem_of_further|done..]. }
  destruct (for_some _ ns _) as [[[] s2]|] eqn:Hfor; [|done|done].
  intros _ Hreach. destruct (Hloop _ _ _ Hfor) as (x & u & Hx & Hu & Hc).
  { simpl.
    intros x y Hx%neighbours_edge [->%elem_of_singleton|Hy]%elem_of_union.
    - by apply tc_once.
    - eapply tc_r; eauto. }
  exists u. split; [|done].
  eapply rtc_l; [|exact Hu]. by apply neighbours_edge.
Qed.

(** X18.  Started with an empty visited set and an empty recursion
    stack, [hasCycle(graph, node)] always finishes, and it answers
    [true] exactly when a cycle of the graph can be reached from the
    node; a token that is not a key of the graph counts as a node
    without neighbours.  After the answer [false] the recursion stack is
    empty again and the node is marked as visited. *)
Theorem hasCycle_from_scratch node :
  ∃ b s',
    hasCycle (dfs_fuel graph) graph node (mkDfs ∅ ∅) = Some (b, s') ∧
    (b = true ↔ ∃ u, rtc (edge graph) node u ∧ tc (edge graph) u u) ∧
    (b = false → recStack s' = ∅ ∧ node ∈ visited s').
Proof.
  assert (∃ b s',
            hasCycle (dfs_fuel graph) graph node (mkDfs ∅ ∅) = Some (b, s'))
    as (b & s' & Hrun).
  { destruct (decide (node ∈ universe graph)) as [Hin|Hout].
    - destruct (hasCycle_terminates graph (dfs_fuel graph) node (mkDfs ∅ ∅))
        as (b & s' & H & _); [done| |by eauto].
      pose proof (size_universe graph).
      assert (size (universe graph ∖ visited (mkDfs ∅ ∅))
              ≤ size (universe graph)) by (apply subseteq_size; set_solver).
      lia.
    - unfold dfs_fuel. cbn [hasCycle].
      rewrite !decide_False by set_solver.
      assert (JSMap.get node graph = None) as ->.
      { apply get_None_keys. intros Hk. by apply Hout, key_universe. }
      simpl. eauto. }
  exists b, s'. split; [done|]. destruct b.
  - split_and!; [|done]. split; [intros _|done].
    apply (hasCycle_true_from _ _ _ _ Hrun). set_solver.
  - destruct (hasCycle_false graph _ _ _ _ Hrun)
      as (Hst & _ & Hvis & _ & Hinv).
    simpl in Hst.
    assert (dfs_inv graph s') as [Hclosed Hacyclic].
    { apply Hinv. split; unfold black; simpl; set_solver. }
    split_and!; [|done].
    split; [done|]. intros (u & Hu & Hc). exfalso.
    assert (node ∈ black s') as Hblack.
    { unfold black. rewrite Hst. set_solver. }
    assert (u ∈ black s') as Hu'.
    { clear -Hu Hblack Hclosed.
      induction Hu as [|x y z Hxy _ IH]; [done|].
      apply IH. by eapply Hclosed. }
    by apply (Hacyclic u).
Qed.
End CycleSearch.

(** ** Containers *)

Section ContainerChains.
Context {W : Type}.
Implicit Types (σ : State W) (d : ServiceDefinition W).
Implicit Types (this : InternalResolver) (m : Registrations W).
Implicit Types (c : Container).
Implicit Types (entries : list (Token * ServiceDefinition W)).

(** *** Chains of [provide] *)

Lemma set_all_fresh entries m :
  NoDup (JSMap.keys m ++ entries.*1) → set_all entries m = m ++ entries.
Proof.
  revert m. induction entries as [|[t d] entries IH]; intros m Hnd.
  - by rewrite app_nil_r.
  - change (set_all ((t, d) :: entries) m)
      with (set_all entries (JSMap.set t d m)).
    simpl in Hnd. apply NoDup_app in Hnd as (Hm & Hdisj & Hes).
    apply NoDup_cons in Hes as [Ht Hes].
    rewrite set_fresh.
    + rewrite IH; [by rewrite <- app_assoc|].
      unfold JSMap.keys. rewrite fmap_app. simpl.
      rewrite <- app_assoc. simpl.
      apply NoDup_app. split_and!; [done| |by apply NoDup_cons].
      intros x Hx. by apply Hdisj in Hx.
    + intros Hin. apply Hdisj in Hin. apply Hin, list_elem_of_here.
Qed.

Lemma keys_set_all entries m k :
  k ∈ JSMap.keys m → k ∈ JSMap.keys (set_all entries m).
Proof.
  revert m. induction entries as [|[t d] entries IH]; intros m Hk; [done|].
  change (set_all ((t, d) :: entries) m)
    with (set_all entries (JSMap.set t d m)).
  apply IH. rewrite keys_set. case_decide; [done|].
  apply elem_of_app. by left.
Qed.

Lemma NoDup_set_all entries m :
  NoDup (JSMap.keys m) → NoDup (JSMap.keys (set_all entries m)).
Proof.
  revert m. induction entries as [|[t d] entries IH]; intros m Hnd; [done|].
  change (set_all ((t, d) :: entries) m)
    with (set_all entries (JSMap.set t d m)).
  by apply IH, NoDup_keys_set.
Qed.

Lemma provide_all_eq entries c σ m :
  maps σ !! ContainerMapKey c = Some m →
  ∃ c' σ',
    provide_all c entries σ = Ret c' σ' ∧
    maps σ' !! ContainerMapKey c' = Some (set_all entries m) ∧
    ContainerRequiredKey c'
    = ContainerRequiredKey c ++ concat (requires <$> entries.*2) ∧
    ContainerProvidedKey c' = ContainerProvidedKey c ++ entries.*1 ∧
    resolvers σ' = resolvers σ ∧ world σ' = world σ ∧
    ∀ a, a < length (maps σ) → maps σ' !! a = maps σ !! a.
Proof.
  revert c σ m. induction entries as [|[t d] entries IH]; intros c σ m Hm.
  - exists c, σ. simpl. by rewrite !app_nil_r.
  - simpl. rewrite (provide_eq _ _ _ _ _ Hm). simpl.
    destruct (IH (createInnerContainer
                    (ContainerRequiredKey c ++ requires d)
                    (ContainerProvidedKey c ++ [t]) (length (maps σ)))
                (mkState (maps σ ++ [JSMap.set t d m]) (resolvers σ)
                   (world σ))
                (JSMap.set t d m))
      as (c' & σ' & Hall & Hmap & Hreq & Hprov & Hres & Hw & Hold).
    { simpl. by rewrite lookup_app_r, Nat.sub_diag. }
    exists c', σ'. split_and!; try done.
    + rewrite Hreq. simpl. by rewrite <- app_assoc.
    + rewrite Hprov. simpl. by rewrite <- app_assoc.
    + intros a Ha. rewrite Hold by (simpl; rewrite length_app; lia).
      simpl. by apply lookup_app_l.
Qed.

(** X11.  A chain [createContainer().provide(t, d).provide(t1, d1)...]
    always succeeds.  The registry of the last container is what setting
    the entries one after the other gives; its keys are distinct whatever
    the tokens were, and when the tokens are distinct it lists the
    registrations in the order of the calls.  The provided tokens are
    accumulated in call order, repetitions included, and so are the
    required ones.  Every [Map] that existed before is left alone, and so
    are the resolvers and the world. *)
Theorem provide_chain t d entries σ :
  ∃ c σ',
    createContainer_provide_all t d entries σ = Ret c σ' ∧
    maps σ' !! ContainerMapKey c = Some (set_all entries [(t, d)]) ∧
    NoDup (JSMap.keys (set_all entries [(t, d)])) ∧
    (NoDup (t :: entries.*1) →
       set_all entries [(t, d)] = (t, d) :: entries) ∧
    ContainerProvidedKey c = t :: entries.*1 ∧
    ContainerRequiredKey c
    = requires d ++ concat (requires <$> entries.*2) ∧
    resolvers σ' = resolvers σ ∧ world σ' = world σ ∧
    ∀ a, a < length (maps σ) → maps σ' !! a = maps σ !! a.
Proof.
  unfold createContainer_provide_all.
  rewrite createContainer_provide_eq. simpl.
  destruct (provide_all_eq entries
              (createInnerContainer (requires d) [t] (length (maps σ)))
              (mkState (maps σ ++ [[(t, d)]]) (resolvers σ) (world σ))
              [(t, d)])
    as (c' & σ' & Hall & Hmap & Hreq & Hprov & Hres & Hw & Hold).
  { simpl. by rewrite lookup_app_r, Nat.sub_diag. }
  exists c', σ'. split_and!; try done.
  - apply NoDup_set_all. apply NoDup_singleton.
  - intros Hnd. by rewrite set_all_fresh.
  - intros a Ha. rewrite Hold by (simpl; rewrite length_app; lia).
    simpl. by apply lookup_app_l.
Qed.

(** *** Children of extended containers *)

(** X12.  A container obtained from another one by further [provide]
    calls registers every token of the original.  Hence a resolver made
    from the original is accepted as parent by the extended container:
    the inheritance check passes, and [resolver] can only fail for a
    dependency cycle. *)
Theorem extended_container_accepts_parent c σ m p pthis entries c' σ' :
  maps σ !! ContainerMapKey c = Some m →
  NoDup (JSMap.keys m) →
  resolvers σ !! p = Some pthis →
  registrations pthis = ContainerMapKey c →
  provide_all c entries σ = Ret c' σ' →
  maps σ' !! ContainerMapKey c' = Some (set_all entries m) ∧
  (∀ k, k ∈ JSMap.keys m → k ∈ JSMap.keys (set_all entries m)) ∧
  (∀ e σ'', resolver c' (Some p) σ' = Throw e σ'' →
            e = CircularDependency ∧ cyclic (set_all entries m)) ∧
  (¬ cyclic (set_all entries m) →
     resolver c' (Some p) σ'
     = Ret (length (resolvers σ'))
         (mkState (maps σ')
            (resolvers σ' ++ [mkResolver (ContainerMapKey c') (Some p) []])
            (world σ'))).
Proof.
  intros Hm Hnd Hp Hreg Hall.
  destruct (provide_all_eq entries c σ m Hm)
    as (c2 & σ2 & Hall2 & Hmap & _ & _ & Hres & _ & Hold).
  rewrite Hall in Hall2. injection Hall2 as <- <-.
  assert (inherits σ' (Some p) (set_all entries m)) as Hinh.
  { intros p' [= <-]. exists pthis, m. split_and!.
    - by rewrite Hres.
    - rewrite Hold, Hreg; [done|]. rewrite Hreg.
      by eapply lookup_lt_Some.
    - intros k. apply keys_set_all. }
  assert (NoDup (JSMap.keys (set_all entries m))) as Hnd'
    by (by apply NoDup_set_all).
  split_and!; [done|by intros k; apply keys_set_all| |].
  - intros e σ'' Hthrow.
    destruct (resolver_cases c' (Some p) σ' _ Hmap Hnd')
      as [[Hno _]|[(_ & Hcyc & Hres')|(_ & _ & Hres')]].
    + intros p' [= <-]. exists pthis, m. split.
      * by rewrite Hres.
      * rewrite Hold, Hreg; [done|]. rewrite Hreg.
        by eapply lookup_lt_Some.
    + done.
    + rewrite Hres' in Hthrow. by injection Hthrow as <- <-.
    + by rewrite Hres' in Hthrow.
  - intros Hacyclic. by apply (resolver_success c' (Some p) σ' _ Hmap).
Qed.

(** *** Registrations in dependency order *)

Lemma dependencies_first_step m t u i :
  NoDup (JSMap.keys m) → dependencies_first m →
  depends m t u → JSMap.keys m !! i = Some t →
  ∃ j, JSMap.keys m !! j = Some u ∧ j < i.
Proof.
  intros Hnd Hfirst (d & Hget & Hu) Hi.
  apply get_elem_of in Hget. apply list_elem_of_lookup_1 in Hget as [i' Hi'].
  assert (i' = i) as ->.
  { apply (NoDup_lookup _ _ _ t Hnd); [|done].
    unfold JSMap.keys. by rewrite list_lookup_fmap, Hi'. }
  specialize (Hfirst i t d Hi' u Hu).
  apply list_elem_of_lookup_1 in Hfirst as [j Hj].
  unfold JSMap.keys in Hj. rewrite list_lookup_fmap in Hj.
  destruct (take i m !! j) as [[u' d']|] eqn:Htake; [|done].
  simpl in Hj. injection Hj as ->.
  apply lookup_take_Some in Htake as [Hj Hlt].
  exists j. split; [|done]. unfold JSMap.keys.
  by rewrite list_lookup_fmap, Hj.
Qed.

Lemma dependencies_first_rank m t u i :
  NoDup (JSMap.keys m) → dependencies_first m →
  tc (depends m) t u → JSMap.keys m !! i = Some t →
  ∃ j, JSMap.keys m !! j = Some u ∧ j < i.
Proof.
  intros Hnd Hfirst Htc. revert i.
  induction Htc as [t u Hdep|t w u Hdep _ IH]; intros i Hi.
  - by eapply dependencies_first_step.
  - destruct (dependencies_first_step m t w i Hnd Hfirst Hdep Hi)
      as (j & Hj & Hlt).
    destruct (IH j Hj) as (j' & Hj' & Hlt').
    exists j'. split; [done|lia].
Qed.

Lemma dependencies_first_acyclic m :
  NoDup (JSMap.keys m) → dependencies_first m → ¬ cyclic m.
Proof.
  intros Hnd Hfirst [t Htc].
  assert (∃ d, JSMap.get t m = Some d) as [d Hget].
  { inversion Htc as [? ? (d & ? & _)|? ? ? (d & ? & _) _]; subst;
      by exists d. }
  apply get_Some_keys, list_elem_of_lookup_1 in Hget as [i Hi].
  destruct (dependencies_first_rank m t t i Hnd Hfirst Htc Hi)
    as (j & Hj & Hlt).
  pose proof (NoDup_lookup _ _ _ _ Hnd Hi Hj). lia.
Qed.

(** X13.  Registering every service after the services it requires is
    always accepted: such a registry has no dependency cycle, and
    [resolver] returns a new resolver with an empty cache. *)
Theorem dependencies_first_accepted c par σ m :
  maps σ !! ContainerMapKey c = Some m →
  NoDup (JSMap.keys m) →
  dependencies_first m →
  inherits σ par m →
  ¬ cyclic m ∧
  resolver c par σ
  = Ret (length (resolvers σ))
      (mkState (maps σ)
         (resolvers σ ++ [mkResolver (ContainerMapKey c) par []])
         (world σ)).
Proof.
  intros Hm Hnd Hfirst Hinh.
  assert (¬ cyclic m) as Hacyclic by (by apply dependencies_first_acyclic).
  split; [done|]. by apply (resolver_success c par σ m).
Qed.

(** *** The order of the registrations *)

Lemma elem_of_get m k d :
  NoDup (JSMap.keys m) → (k, d) ∈ m → JSMap.get k m = Some d.
Proof.
  induction m as [|[k' d'] m IH]; intros Hnd Hin.
  - by apply elem_of_nil in Hin.
  - unfold JSMap.keys in Hnd. simpl in Hnd.
    apply NoDup_cons in Hnd as [Hk' Hnd]. simpl.
    apply elem_of_cons in Hin as [[= <- <-]|Hin].
    + by rewrite decide_True.
    + rewrite decide_False; [by apply IH|].
      intros ->. apply Hk'. apply list_elem_of_fmap. by exists (k, d).
Qed.

Lemma get_Permutation m m' k :
  NoDup (JSMap.keys m) → m ≡ₚ m' → JSMap.get k m' = JSMap.get k m.
Proof.
  intros Hnd Hperm.
  assert (NoDup (JSMap.keys m')) as Hnd'.
  { unfold JSMap.keys in *. by rewrite <- Hperm. }
  destruct (JSMap.get k m) as [d|] eqn:Hget.
  - apply elem_of_get; [done|]. rewrite <- Hperm. by apply get_elem_of.
  - apply get_None_keys. apply get_None_keys in Hget.
    unfold JSMap.keys in *. by rewrite <- Hperm.
Qed.

Lemma tc_impl {A : Type} (R R' : relation A) x y :
  (∀ a b, R a b → R' a b) → tc R x y → tc R' x y.
Proof.
  intros HR. induction 1 as [a b Hab|a b c' Hab _ IH].
  - by apply tc_once, HR.
  - eapply tc_l; [by apply HR|done].
Qed.

Lemma cyclic_Permutation m m' :
  NoDup (JSMap.keys m) → m ≡ₚ m' → cyclic m → cyclic m'.
Proof.
  intros Hnd Hperm [t Htc]. exists t. revert Htc. apply tc_impl.
  intros a b (d & Hget & Hb). exists d. split; [|done].
  by rewrite (get_Permutation m m').
Qed.

Lemma cyclic_dec m : NoDup (JSMap.keys m) → cyclic m ∨ ¬ cyclic m.
Proof.
  intros Hnd. destruct (isCyclic_total (graphFromServiceMap m)) as [[] Hb].
  - left. by apply has_cycle_cyclic, isCyclic_spec.
  - right. intros Hc. apply has_cycle_cyclic, isCyclic_spec in Hc; [|done].
    congruence.
Qed.

Lemma isCyclic_cyclic m :
  NoDup (JSMap.keys m) →
  isCyclic (graphFromServiceMap m) = Some true ↔ cyclic m.
Proof.
  intros Hnd. rewrite isCyclic_spec. by apply has_cycle_cyclic.
Qed.

Lemma resolver_circular_iff c par σ m :
  maps σ !! ContainerMapKey c = Some m → NoDup (JSMap.keys m) →
  inherits σ par m →
  resolver c par σ = Throw CircularDependency σ ↔ cyclic m.
Proof.
  intros Hm Hnd Hinh. split.
  - intros Hthrow. destruct (cyclic_dec m Hnd) as [|Hacyclic]; [done|].
    by rewrite (resolver_success c par σ m) in Hthrow.
  - by apply resolver_cyclic.
Qed.

(** X14.  The verdict of the cycle check does not depend on the order
    in which the tokens were registered: two registries with the same
    entries in different orders get the same answer from [isCyclic], and
    [resolver] throws the circular-dependency error for the one exactly
    when it throws it for the other. *)
Theorem cycle_verdict_ignores_order c c' σ m m' :
  maps σ !! ContainerMapKey c = Some m →
  maps σ !! ContainerMapKey c' = Some m' →
  NoDup (JSMap.keys m) → m ≡ₚ m' →
  isCyclic (graphFromServiceMap m') = isCyclic (graphFromServiceMap m) ∧
  ∀ par, inherits σ par m →
    (resolver c' par σ = Throw CircularDependency σ
     ↔ resolver c par σ = Throw CircularDependency σ).
Proof.
  intros Hm Hm' Hnd Hperm.
  assert (NoDup (JSMap.keys m')) as Hnd'.
  { unfold JSMap.keys in *. by rewrite <- Hperm. }
  assert (cyclic m ↔ cyclic m') as Hiff.
  { split; [by apply cyclic_Permutation|].
    by apply cyclic_Permutation. }
  split.
  - pose proof (isCyclic_cyclic m Hnd) as H1.
    pose proof (isCyclic_cyclic m' Hnd') as H2.
    destruct (isCyclic_total (graphFromServiceMap m)) as [b Hb].
    destruct (isCyclic_total (graphFromServiceMap m')) as [b' Hb'].
    rewrite Hb, Hb' in *. f_equal.
    destruct b, b'; try done.
    + assert (Some false = Some true) by (by apply H2, Hiff, H1). done.
    + assert (Some false = Some true) by (by apply H1, Hiff, H2). done.
  - intros par Hinh.
    assert (inherits σ par m') as Hinh'.
    { intros p Hp. destruct (Hinh p Hp) as (pthis & mp & ? & ? & Hsub).
      exists pthis, mp. split_and!; [done..|].
      intros k Hk. apply Hsub in Hk. unfold JSMap.keys in *.
      by rewrite <- Hperm. }
    rewrite (resolver_circular_iff c' par σ m') by done.
    by rewrite (resolver_circular_iff c par σ m).
Qed.

(** *** Resolvers side by side *)

Lemma resolver_Ret_parent c p σ r σ' :
  resolver c (Some p) σ = Ret r σ' → p < length (resolvers σ).
Proof.
  unfold resolver, InternalCheckInheriting.
  destruct (resolvers σ !! p) eqn:Hp; [|done].
  intros _. by eapply lookup_lt_Some.
Qed.

(** X15.  Two resolvers made one after the other from the same
    container, under the same parent or both without parent, are two
    different objects over the same registry, each with its own empty
    cache.  A [resolve] on either of them leaves the other exactly as it
    was. *)
Theorem sibling_resolvers_are_independent c par σ r1 σ1 r2 σ2 :
  state_ok σ →
  resolver c par σ = Ret r1 σ1 →
  resolver c par σ1 = Ret r2 σ2 →
  r1 ≠ r2 ∧
  resolvers σ2 !! r1 = Some (mkResolver (ContainerMapKey c) par []) ∧
  resolvers σ2 !! r2 = Some (mkResolver (ContainerMapKey c) par []) ∧
  (∀ k t σ', final (resolve k r1 t σ2) = Some σ' →
     resolvers σ' !! r2 = resolvers σ2 !! r2) ∧
  (∀ k t σ', final (resolve k r2 t σ2) = Some σ' →
     resolvers σ' !! r1 = resolvers σ2 !! r1).
Proof.
  intros Hok H1 H2.
  assert (∀ p, par = Some p → p < length (resolvers σ)) as Hpar.
  { intros p ->. by eapply resolver_Ret_parent. }
  destruct (resolver_state_ok _ _ _ _ _ Hok Hpar H1) as (Hok1 & -> & ->).
  assert (∀ p, par = Some p →
            p < length (resolvers
                      (mkState (maps σ)
                         (resolvers σ
                          ++ [mkResolver (ContainerMapKey c) par []])
                         (world σ)))) as Hpar1.
  { intros p Hp. simpl. rewrite length_app. specialize (Hpar p Hp). lia. }
  destruct (resolver_state_ok _ _ _ _ _ Hok1 Hpar1 H2) as (Hok2 & -> & ->).
  simpl in *. rewrite length_app in *. simpl in *.
  set (new := mkResolver (ContainerMapKey c) par []) in *.
  set (σ2 := mkState (maps σ) ((resolvers σ ++ [new]) ++ [new]) (world σ))
    in *.
  assert (resolvers σ2 !! length (resolvers σ) = Some new) as Hr1.
  { simpl. rewrite lookup_app_l by (rewrite length_app; simpl; lia).
    by rewrite lookup_app_r, Nat.sub_diag. }
  assert (resolvers σ2 !! (length (resolvers σ) + 1) = Some new) as Hr2.
  { simpl. rewrite lookup_app_r by (rewrite length_app; simpl; lia).
    rewrite length_app. simpl. by rewrite Nat.sub_diag. }
  split_and!; [lia|done..| |].
  - intros k t σ' Hfin. apply (fp_frame _ _ _ (resolve_footprint _ _ _ _ _ Hfin)).
    intros Hchain%(in_chain_le _ _ _ Hok2). lia.
  - intros k t σ' Hfin. apply (fp_frame _ _ _ (resolve_footprint _ _ _ _ _ Hfin)).
    intros Hchain. inversion Hchain as [|? this p q Hthis Hp Hrest]; [lia|].
    subst. rewrite Hr2 in Hthis. injection Hthis as <-. simpl in Hp.
    apply (in_chain_le _ _ _ Hok2) in Hrest.
    specialize (Hpar p Hp). lia.
Qed.

(** *** Instances of ancestors *)

(** X16.  A lookup goes up as far as it can: when every resolver from
    [r] up to an ancestor [q] registers the token as singleton or
    transient and [q]'s own lookup supplies a truthy instance, then that
    instance, and the store [q]'s lookup left, is the result on [r],
    however many resolvers lie in between; none of them constructs or
    caches anything. *)
Theorem ancestor_instance_is_returned σ t r q n v σ' :
  delegates σ t r q →
  InternalResolve n q t σ = Ret v σ' →
  truthy v = true →
  ∃ N, ∀ k, N ≤ k →
    InternalResolve k r t σ = Ret v σ' ∧ resolve k r t σ = Ret v σ'.
Proof.
  intros Hdel Hq Hv.
  assert (∃ N, ∀ k, N ≤ k → InternalResolve k r t σ = Ret v σ')
    as [N HN].
  { induction Hdel as [r|r this m d p q Hr Hm Hget Hlt Hp _ IH].
    - exists n. intros k Hk. rewrite <- Hq.
      apply (InternalResolve_fuel n k); [done|]. by rewrite Hq.
    - destruct (IH Hq) as [N HN]. exists (S N). intros k Hk.
      destruct k as [|k]; [lia|].
      assert (InternalResolve k p t σ = Ret v σ') as Hpk
        by (apply HN; lia).
      destruct (lifetime d) eqn:Hlt'; [| |done].
      + rewrite (InternalResolve_singleton _ _ _ _ _ _ _ Hr Hm Hget Hlt').
        rewrite Hp. by apply probe_parent_supplies.
      + rewrite (InternalResolve_transient _ _ _ _ _ _ _ Hr Hm Hget Hlt').
        rewrite Hp. by apply probe_parent_supplies. }
  exists N. intros k Hk. split; [by apply HN|].
  unfold resolve, resolve_via. by rewrite (HN k Hk), Hv.
Qed.

(** *** From registration to resolution *)

(** X17.  [createContainer().provide(t, d).resolver().resolve(t)] for a
    definition without dependencies whose factory returns a truthy
    instance: every step succeeds, in any store, and the result is the
    instance the factory returned.  The factory has run once; the new
    resolver holds the instance in its cache unless the lifetime is
    transient, in which case its cache is empty. *)
Theorem single_registration_resolves t d σ v w k :
  requires d = [] →
  instance d [] (world σ) = (Returned v, w) →
  truthy v = true →
  0 < k →
  ∃ σ',
    bind (createContainer_provide t d σ) (λ c σ1,
    bind (resolver c None σ1) (λ r σ2, resolve k r t σ2))
    = Ret v σ' ∧
    maps σ' = maps σ ++ [[(t, d)]] ∧
    resolvers σ'
    = resolvers σ
      ++ [mkResolver (length (maps σ)) None
            (match lifetime d with
             | transient => []
             | _ => [(t, v)]
             end)] ∧
    world σ' = w.
Proof.
  intros Hreq Hinst Hv Hk.
  rewrite createContainer_provide_eq. simpl.
  set (σ1 := mkState (maps σ ++ [[(t, d)]]) (resolvers σ) (world σ)).
  assert (maps σ1 !! length (maps σ) = Some [(t, d)]) as Hm1.
  { simpl. by rewrite lookup_app_r, Nat.sub_diag. }
  rewrite (resolver_success
             (createInnerContainer (requires d) [t] (length (maps σ)))
             None σ1 [(t, d)]); [|done|apply NoDup_singleton|done|].
  2:{ apply dependencies_first_acyclic; [apply NoDup_singleton|].
      intros [|i] t' d' Hi u Hu; [|done].
      injection Hi as <- <-. rewrite Hreq in Hu.
      by apply elem_of_nil in Hu. }
  simpl.
  set (r := length (resolvers σ)).
  set (this := mkResolver (length (maps σ)) None []).
  set (σ2 := mkState (maps σ ++ [[(t, d)]]) (resolvers σ ++ [this])
               (world σ)).
  assert (resolvers σ2 !! r = Some this) as Hr.
  { simpl. by rewrite lookup_app_r, Nat.sub_diag. }
  assert (maps σ2 !! registrations this = Some [(t, d)]) as Hm2 by done.
  assert (JSMap.get t [(t, d)] = Some d) as Hget.
  { simpl. by rewrite decide_True. }
  assert (cache_get r t σ2 = VUndefined) as Hc.
  { unfold cache_get. by rewrite Hr. }
  assert (construct (InternalResolve (k - 1)) r d σ2
          = Ret v (mkState (maps σ2) (resolvers σ2) w)) as Hcon.
  { apply (construct_eq _ _ _ _ []); [by rewrite Hreq|done]. }
  assert (alter (λ this0, mkResolver (registrations this0) (parent this0)
                            (JSMap.set t v (cache this0)))
            r (resolvers σ ++ [this])
          = resolvers σ ++ [mkResolver (length (maps σ)) None [(t, v)]])
    as Halter.
  { subst r. rewrite alter_app_r_alt by done. by rewrite Nat.sub_diag. }
  destruct k as [|k]; [lia|]. simpl in Hcon. rewrite Nat.sub_0_r in Hcon.
  unfold resolve, resolve_via.
  destruct (lifetime d) eqn:Hlt.
  - rewrite (InternalResolve_singleton _ _ _ _ _ _ _ Hr Hm2 Hget Hlt).
    simpl.
    rewrite (cached_or_construct_miss _ _ _ _ _ _ _
               ltac:(by rewrite Hc) Hcon).
    rewrite Hv. eexists. split; [done|]. simpl. by rewrite Halter.
  - rewrite (InternalResolve_transient _ _ _ _ _ _ _ Hr Hm2 Hget Hlt).
    simpl. rewrite Hcon, Hv. by eexists.
  - rewrite (InternalResolve_scoped _ _ _ _ _ _ _ Hr Hm2 Hget Hlt).
    rewrite (cached_or_construct_miss _ _ _ _ _ _ _
               ltac:(by rewrite Hc) Hcon).
    rewrite Hv. eexists. split; [done|]. simpl. by rewrite Halter.
Qed.
End ContainerChains.

(** * The further properties on concrete stores *)

Import Examples Scenarios.

Lemma InjectionToken_of_spec_witness :
  tokens_ok no_tokens ∧
  tokenIds (InjectionToken_of (VNumber 0) no_tokens).2 !! 0
  = Some (IdSymbol 0) ∧
  tokens_ok (InjectionToken_of (VNumber 0) no_tokens).2.
Proof.
  assert (H : tokens_ok no_tokens).
  { split; intros t; intros; by destruct t. }
  split; [exact H|].
  destruct (InjectionToken_of_spec (VNumber 0) no_tokens H)
    as (_ & _ & _ & _ & Hok).
  split; [reflexivity | exact Hok].
Defined.


Lemma factory_exception_propagates_witness :
  lifetime failingService = scoped ∧
  resolve 2 0 depA failing_state
  = Throw (Thrown (VString "boom"))
      (mkState (maps failing_state)
         [mkResolver 0 None [(depB, VObject 0)]] 2).
Proof.
  split; [reflexivity|].
  destruct (factory_exception_propagates 1 failing_state 0 depA
              (mkResolver 0 None []) _ failingService failing_state
              [VObject 0]
              (mkState (maps failing_state)
                 [mkResolver 0 None [(depB, VObject 0)]] 1)
              (VString "boom") 2
              eq_refl eq_refl eq_refl eq_refl (λ _, eq_refl) eq_refl eq_refl)
    as [H _].
  exact (proj2 (H 2 (Nat.lt_succ_diag_r 1))).
Defined.

Lemma dependency_failure_propagates_witness :
  requires needsThree = [depB] ++ depC :: [depD] ∧
  absent_at
    (mkState (maps missing_dependency)
       [mkResolver 0 None [(depB, VObject 0)]] 1) 0 depC ∧
  resolve 3 0 depA missing_dependency
  = Throw MissingRegistration
      (mkState (maps missing_dependency)
         [mkResolver 0 None [(depB, VObject 0)]] 1).
Proof.
  assert (Habs : absent_at
                   (mkState (maps missing_dependency)
                      [mkResolver 0 None [(depB, VObject 0)]] 1) 0 depC)
    by (by eexists _, _).
  split_and!; [reflexivity|exact Habs|].
  destruct (dependency_failure_propagates 1 missing_dependency 0 depA
              (mkResolver 0 None []) _ needsThree missing_dependency
              [depB] depC [depD] [VObject 0]
              (mkState (maps missing_dependency)
                 [mkResolver 0 None [(depB, VObject 0)]] 1)
              eq_refl eq_refl eq_refl eq_refl (λ _, eq_refl) eq_refl eq_refl)
    as [_ H].
  exact (proj2 (H Habs 3 (Nat.lt_succ_diag_r 2))).
Defined.

Lemma cache_entries_retained_witness :
  rtc resolve_step three_levels three_levels_later ∧
  ∃ this' v',
    resolvers three_levels_later !! 0 = Some this' ∧
    registrations this' = 0 ∧
    parent this' = None ∧
    JSMap.get depB (cache this') = Some v' ∧
    (truthy (VObject 7) = true → v' = VObject 7).
Proof.
  assert (H : rtc resolve_step three_levels three_levels_later).
  { apply rtc_once. exists 1, 2, depA. reflexivity. }
  split; [exact H|].
  exact (cache_entries_retained three_levels three_levels_later 0
           (mkResolver 0 None [(depB, VObject 7)]) depB (VObject 7)
           H eq_refl eq_refl).
Defined.

Lemma resolved_instance_is_kept_witness :
  resolve 1 0 depA root_state
  = Ret (VObject 0)
      (mkState (maps root_state) [mkResolver 0 None [(depA, VObject 0)]] 1) ∧
  rtc resolve_step
    (mkState (maps root_state) [mkResolver 0 None [(depA, VObject 0)]] 1)
    root_state_later ∧
  resolve 1 0 depA root_state_later = Ret (VObject 0) root_state_later.
Proof.
  assert (H : rtc resolve_step
                (mkState (maps root_state)
                   [mkResolver 0 None [(depA, VObject 0)]] 1)
                root_state_later).
  { eapply rtc_l; [exists 1, 0, depC; reflexivity|].
    eapply rtc_l; [exists 1, 0, depB; reflexivity|].
    apply rtc_refl. }
  split_and!; [reflexivity|exact H|].
  exact (resolved_instance_is_kept 1 root_state 0 depA (mkResolver 0 None [])
           _ scopedService (VObject 0) _ root_state_later
           eq_refl eq_refl eq_refl (or_introl eq_refl) eq_refl H
           1 Nat.lt_0_1).
Defined.

Lemma resolve_changes_caches_only_witness :
  final (resolve 1 1 depA siblings)
  = Some (cache_set 1 depA (VObject 0)
            (mkState (maps siblings) (resolvers siblings) 1)) ∧
  maps (cache_set 1 depA (VObject 0)
          (mkState (maps siblings) (resolvers siblings) 1))
  = maps siblings.
Proof.
  split; [reflexivity|].
  exact (proj1 (resolve_changes_caches_only 1 1 depA siblings _ eq_refl)).
Defined.

Lemma api_keeps_stores_well_formed_witness :
  state_ok (empty_state 0) ∧
  rtc api_step (empty_state 0) partial_root ∧
  state_ok partial_root ∧
  ∃ N, ∀ n, N ≤ n → returns (resolve n 1 sessionService partial_root).
Proof.
  assert (H : rtc api_step (empty_state 0) partial_root).
  { eapply rtc_l.
    { apply (api_createContainer_provide sessionService sessionDefinition).
      reflexivity. }
    eapply rtc_l.
    { apply (api_resolver sessionContainer None). reflexivity. }
    eapply rtc_l.
    { apply (api_provide sessionContainer userRequest singletonService).
      reflexivity. }
    eapply rtc_l.
    { apply (api_resolver
               (createInnerContainer [userRequest]
                  [sessionService; userRequest] 1) (Some 0)).
      reflexivity. }
    apply rtc_refl. }
  split_and!; [apply empty_state_ok|exact H| |];
    destruct (api_keeps_stores_well_formed (empty_state 0) partial_root
                (empty_state_ok 0) H) as [Hok Hterm].
  - exact Hok.
  - apply (Hterm 1 sessionService). simpl. apply Nat.lt_succ_diag_r.
Defined.

Lemma caches_hold_cacheable_tokens_witness :
  rtc api_step (empty_state 0)
    (mkState [[(depA, scopedService)]]
       [mkResolver 0 None [(depA, VObject 0)]] 1) ∧
  ∃ m d,
    maps (mkState [[(depA, scopedService)]]
            [mkResolver 0 None [(depA, VObject 0)]] 1) !! 0 = Some m ∧
    JSMap.get depA m = Some d ∧
    (lifetime d = scoped ∨ lifetime d = singleton).
Proof.
  assert (H : rtc api_step (empty_state 0)
                (mkState [[(depA, scopedService)]]
                   [mkResolver 0 None [(depA, VObject 0)]] 1)).
  { eapply rtc_l.
    { apply (api_createContainer_provide depA scopedService). reflexivity. }
    eapply rtc_l.
    { apply (api_resolver containerA None). reflexivity. }
    eapply rtc_l.
    { apply (api_resolve 1 0 depA). reflexivity. }
    apply rtc_refl. }
  split; [exact H|].
  apply (caches_hold_cacheable_tokens (empty_state 0) _ 0
           (mkResolver 0 None [(depA, VObject 0)]) depA).
  - intros i this k Hi. destruct i; discriminate Hi.
  - exact H.
  - reflexivity.
  - apply list_elem_of_here.
Defined.

Lemma extended_container_accepts_parent_witness :
  provide_all sessionContainer [(userRequest, singletonService)] root_only
  = Ret (createInnerContainer [userRequest] [sessionService; userRequest] 1)
      (mkState (maps partial_root) (resolvers root_only) 0) ∧
  resolver (createInnerContainer [userRequest] [sessionService; userRequest] 1)
    (Some 0) (mkState (maps partial_root) (resolvers root_only) 0)
  = Ret 1 partial_root.
Proof.
  split; [reflexivity|].
  destruct (extended_container_accepts_parent sessionContainer root_only
              [(sessionService, sessionDefinition)] 0 (mkResolver 0 None [])
              [(userRequest, singletonService)]
              (createInnerContainer [userRequest]
                 [sessionService; userRequest] 1)
              (mkState (maps partial_root) (resolvers root_only) 0)
              eq_refl (NoDup_singleton _) eq_refl eq_refl eq_refl)
    as (_ & _ & _ & Hsuccess).
  apply Hsuccess. intros Hc.
  apply (has_cycle_cyclic (W := nat)
           [(sessionService, sessionDefinition);
            (userRequest, singletonService)]) in Hc;
    [|apply (bool_decide_unpack _); vm_compute; exact I].
  revert Hc. apply isCyclic_spec_false. vm_compute. reflexivity.
Defined.

Lemma dependencies_first_accepted_witness :
  dependencies_first layered ∧
  resolver (createInnerContainer [] [] 0) None (mkState [layered] [] 0)
  = Ret 0 (mkState [layered] [mkResolver 0 None []] 0).
Proof.
  assert (Hnd : NoDup (JSMap.keys layered)).
  { apply (bool_decide_unpack _). vm_compute. exact I. }
  assert (H : dependencies_first layered).
  { intros [|[|[|i]]] t d Hi u Hu; try discriminate Hi;
      injection Hi as <- <-; simpl in *; set_solver. }
  split; [exact H|].
  exact (proj2 (dependencies_first_accepted (createInnerContainer [] [] 0)
                  None (mkState [layered] [] 0) layered
                  eq_refl Hnd H (λ p Hp, False_rect _ (None_ne_Some _ Hp)))).
Defined.

Lemma cycle_verdict_ignores_order_witness :
  mutual ≡ₚ mutual_swapped ∧
  isCyclic (graphFromServiceMap mutual_swapped)
  = isCyclic (graphFromServiceMap mutual) ∧
  (resolver (createInnerContainer [] [] 1) None two_orders
   = Throw CircularDependency two_orders
   ↔ resolver (createInnerContainer [] [] 0) None two_orders
     = Throw CircularDependency two_orders).
Proof.
  assert (Hnd : NoDup (JSMap.keys mutual)).
  { apply (bool_decide_unpack _). vm_compute. exact I. }
  assert (Hperm : mutual ≡ₚ mutual_swapped) by apply perm_swap.
  split; [exact Hperm|].
  destruct (cycle_verdict_ignores_order (createInnerContainer [] [] 0)
              (createInnerContainer [] [] 1) two_orders mutual mutual_swapped
              eq_refl eq_refl Hnd Hperm) as [H1 H2].
  split; [exact H1|].
  apply (H2 None). intros p Hp. discriminate Hp.
Defined.

Lemma sibling_resolvers_are_independent_witness :
  state_ok one_scoped ∧
  resolver containerA None one_scoped
  = Ret 0 (mkState (maps one_scoped) [mkResolver 0 None []] 0) ∧
  resolver containerA None
    (mkState (maps one_scoped) [mkResolver 0 None []] 0)
  = Ret 1 (mkState (maps one_scoped)
             [mkResolver 0 None []; mkResolver 0 None []] 0) ∧
  resolvers (cache_set 0 depA (VObject 0)
               (mkState (maps one_scoped)
                  [mkResolver 0 None []; mkResolver 0 None []] 1)) !! 1
  = Some (mkResolver 0 None []).
Proof.
  assert (Hok : state_ok one_scoped).
  { exact (createContainer_provide_ok depA scopedService (empty_state 0)
             _ one_scoped (empty_state_ok 0) eq_refl). }
  split_and!; [exact Hok|reflexivity..|].
  destruct (sibling_resolvers_are_independent containerA None one_scoped
              0 _ 1 _ Hok eq_refl eq_refl) as (_ & _ & _ & H & _).
  exact (H 1 depA _ eq_refl).
Defined.

Lemma ancestor_instance_is_returned_witness :
  delegates three_levels depB 2 0 ∧
  InternalResolve 1 0 depB three_levels = Ret (VObject 7) three_levels ∧
  ∃ N, ∀ k, N ≤ k →
    InternalResolve k 2 depB three_levels = Ret (VObject 7) three_levels ∧
    resolve k 2 depB three_levels = Ret (VObject 7) three_levels.
Proof.
  assert (H : delegates three_levels depB 2 0).
  { apply (delegates_parent three_levels depB 2 (mkResolver 1 (Some 1) [])
             [(depB, transientService); (depA, scopedService)]
             transientService 1 0); [reflexivity..|discriminate|reflexivity|].
    apply (delegates_parent three_levels depB 1 (mkResolver 1 (Some 0) [])
             [(depB, transientService); (depA, scopedService)]
             transientService 0 0); [reflexivity..|discriminate|reflexivity|].
    apply delegates_here. }
  split_and!; [exact H|reflexivity|].
  exact (ancestor_instance_is_returned three_levels depB 2 0 1 (VObject 7)
           three_levels H eq_refl eq_refl).
Defined.

Lemma single_registration_resolves_witness :
  ∃ σ',
    bind (createContainer_provide depA singletonService (empty_state 0))
      (λ c σ1,
    bind (resolver c None σ1) (λ r σ2, resolve 1 r depA σ2))
    = Ret (VObject 0) σ' ∧
    maps σ' = [[(depA, singletonService)]] ∧
    resolvers σ' = [mkResolver 0 None [(depA, VObject 0)]] ∧
    world σ' = 1.
Proof.
  exact (single_registration_resolves depA singletonService (empty_state 0)
           (VObject 0) 1 1 eq_refl eq_refl eq_refl Nat.lt_0_1).
Defined.
